(** * traefik-token-injector: credential resolution core

    A shallow embedding of the Go sources

      - [request_builder.go]  (BuildNestedObject, setNestedValue,
                               BuildRESTRequest, BuildGraphQLRequest,
                               findCredentialValue)
      - [token_extractor.go]  (ExtractTokenFromResponse)
      - [token_cache.go]      (TokenCache.Get / Set / Delete / Clear)
      - [auth_handler.go]     (GetAuthToken and its four strategies)

    Go strings and byte slices are sequences of 8-bit bytes: [string] here.
    A Go [map[string]T] is a [gmap string T].  Go's [int] and [int64] are
    64-bit two's complement integers: [Z] with the wrap-around written out.
    Functions returning [(T, error)] return [result E T]. *)

From Stdlib Require Import ZArith String Ascii List.
From stdpp Require Import gmap strings list fin_maps sorting.

#[local] Set Warnings "-register-all".
#[local] Open Scope string_scope.

(** ** Results with typed errors *)

Inductive result (E A : Type) : Type :=
  | Ok (a : A)
  | Err (e : E).
Arguments Ok {E A} a.
Arguments Err {E A} e.

Definition is_ok {E A} (r : result E A) : bool :=
  match r with Ok _ => true | Err _ => false end.

Definition is_err {E A} (r : result E A) : bool :=
  match r with Ok _ => false | Err _ => true end.

(** ** Dynamic values

    What a Go [interface{}] holds after [json.Unmarshal], and what
    [BuildNestedObject] stores in a [map[string]interface{}].  A number
    keeps its lexeme: no function below inspects it. *)

Inductive value : Type :=
  | VNull
  | VBool (b : bool)
  | VNumber (lexeme : string)
  | VString (s : string)
  | VArray (items : list value)
  | VObject (fields : gmap string value).

(** ** types.go *)

(** [CredentialsPairType]: fields [Key] and [Value]. *)
Record CredentialsPairType : Type := mkPair {
  pairKey : string;
  pairValue : string;
}.

(** [ContentAttributeType]: a declared parameter.  Its [Value] field holds
    the parameter's name. *)
Record ContentAttributeType : Type := mkParam {
  paramType : string;
  paramValue : string;
  paramRequired : bool;
  paramLocation : string;
  paramDescription : string;
  paramDefault : string;
}.

#[global] Instance ContentAttributeType_eq_dec : EqDecision ContentAttributeType.
Proof. solve_decision. Defined.

(** [ContentType]: a declared request or response body. *)
Record ContentType : Type := mkContent {
  contentContentType : string;
  contentSchema : string;
  contentDescription : string;
  contentRequired : bool;
}.

(** [EndpointType]: a REST endpoint; the two bodies are nilable pointers. *)
Record EndpointType : Type := mkEndpoint {
  endpointID : string;
  endpointMethod : string;
  endpointPath : string;
  endpointDescription : string;
  endpointTags : list string;
  endpointParameters : list ContentAttributeType;
  endpointResponseBody : option ContentType;
  endpointRequestBody : option ContentType;
}.

(** [GqlOperationType]: a GraphQL operation. *)
Record GqlOperationType : Type := mkGqlOperation {
  gqlID : string;
  gqlName : string;
  gqlOperationType : string;
  gqlDescription : string;
  gqlArguments : gmap string value;
  gqlResult : string;
}.

(** [EndpointNode]: the union of the two, each a nilable pointer. *)
Record EndpointNode : Type := mkNode {
  nodeEndpointType : option EndpointType;
  nodeGqlOperationType : option GqlOperationType;
}.

Record EndpointEdge : Type := mkEdge { edgeNode : EndpointNode }.

Record EndpointConnection : Type := mkConnection { connEdges : list EndpointEdge }.

(** [CredentialsType]; [Token], [TokenTtl] and [EndpointData] are nilable. *)
Record CredentialsType : Type := mkCredentials {
  credAuthType : string;
  credEndpointType : string;
  credCredentialData : list CredentialsPairType;
  credToken : option string;
  credTokenLocation : string;
  credTokenTtl : option Z;
  credApiKey : string;
  credEndpointData : option EndpointConnection;
}.

(** [CachedToken]: Unix timestamps, [None] for a nil pointer. *)
Record CachedToken : Type := mkCached {
  Token : string;
  ExpiresAt : option Z;
  RefreshAt : option Z;
}.

(** [GlobalConfig] (config.go). *)
Record GlobalConfig : Type := mkConfig {
  GraphQLAPIURL : string;
  GraphQLAuthType : string;
  GraphQLUsername : string;
  GraphQLPassword : string;
  GraphQLAPIToken : string;
  GraphQLTokenHeader : string;
  Timeout : string;
  CacheEnabled : bool;
  TokenRefreshBuffer : Z;
}.

(** ** The libraries the code calls

    [encoding/json], [net/http] and the iteration order of a Go map are
    not code of this repository: the functions below take them as
    interfaces.  [RefJSON] further down gives a decoder and an encoder to
    run the examples with. *)

Class JSON : Type := {
  json_Unmarshal : string -> option value;   (* [None]: a decoding error *)
  json_Marshal : value -> option string;     (* [None]: an encoding error *)
}.

(** The order in which [for key, value := range m] visits a map. *)
Class MapRange : Type :=
  rangeOrder : gmap string string -> list (string * string).

(** Every entry is visited once. *)
Definition rangeLawful `{MapRange} : Prop :=
  forall m : gmap string string, rangeOrder m ≡ₚ map_to_list m.

Record HTTPRequest : Type := mkRequest {
  reqMethod : string;
  reqURL : string;
  reqBody : option string;
  reqHeaders : gmap string string;
}.

(** What [http.NewRequest], [client.Do] and [io.ReadAll] make of a request. *)
Inductive RoundTrip : Type :=
  | NewRequestError
  | DoError
  | ReadAllError
  | Response (StatusCode : Z) (respBody : string).

Class HTTPClient : Type := httpDo : HTTPRequest -> RoundTrip.

(** ** 64-bit integers *)

Definition wrap64 (z : Z) : Z := ((z + 2 ^ 63) mod 2 ^ 64 - 2 ^ 63)%Z.
Definition add64 (a b : Z) : Z := wrap64 (a + b).
Definition sub64 (a b : Z) : Z := wrap64 (a - b).
Definition int64 (z : Z) : Prop := (- 2 ^ 63 <= z < 2 ^ 63)%Z.

(** ** strings.Split with a one-byte separator

    [strings.Split(s, sep)] returns the substrings between the occurrences
    of [sep]; a string without [sep] (the empty string too) gives the
    one-element slice holding it. *)

Fixpoint splitByte (sep : ascii) (s : string) : list string :=
  match s with
  | EmptyString => [EmptyString]
  | String c rest =>
      if Ascii.eqb c sep then EmptyString :: splitByte sep rest
      else match splitByte sep rest with
           | [] => [String c EmptyString]
           | piece :: pieces => String c piece :: pieces
           end
  end.

Definition splitDots (s : string) : list string := splitByte "."%char s.

(** ** request_builder.go: setNestedValue and BuildNestedObject *)

Inductive SetError : Type :=
  | EmptyPath                       (* "empty path" *)
  | PathConflict (key : string).    (* "path conflict: '%s' is not an object" *)

(** The loop of [setNestedValue] over [parts[0 .. len-2]] followed by the
    final assignment.  [current] is the map the Go code points at; the
    maps it walks through are owned by their parent only, so updating the
    child in place is rebuilding the parent's binding. *)
Fixpoint setAlong (current : gmap string value) (parts : list string)
    (v : string) : result SetError (gmap string value) :=
  match parts with
  | [] => Err EmptyPath
  | key :: rest =>
      match rest with
      | [] => Ok (<[key := VString v]> current)
      | _ :: _ =>
          match current !! key with
          | Some (VObject existingMap) =>
              match setAlong existingMap rest v with
              | Ok m => Ok (<[key := VObject m]> current)
              | Err e => Err e
              end
          | Some _ => Err (PathConflict key)
          | None =>
              match setAlong ∅ rest v with
              | Ok m => Ok (<[key := VObject m]> current)
              | Err e => Err e
              end
          end
      end
  end.

Definition setNestedValue (obj : gmap string value) (path v : string)
    : result SetError (gmap string value) :=
  let parts := splitDots path in
  if Nat.eqb (length parts) 0 then Err EmptyPath
  else setAlong obj parts v.

(** "failed to set nested value for key '%s': %w" *)
Inductive BuildObjectError : Type :=
  | SetNestedFailed (key : string) (cause : SetError).

Fixpoint buildInto (acc : gmap string value)
    (credentialData : list CredentialsPairType)
    : result BuildObjectError (gmap string value) :=
  match credentialData with
  | [] => Ok acc
  | p :: rest =>
      match setNestedValue acc (pairKey p) (pairValue p) with
      | Err e => Err (SetNestedFailed (pairKey p) e)
      | Ok acc' => buildInto acc' rest
      end
  end.

Definition BuildNestedObject (credentialData : list CredentialsPairType)
    : result BuildObjectError (gmap string value) :=
  buildInto ∅ credentialData.


(** ** strings.ReplaceAll, for a non-empty [old]

    Non-overlapping occurrences of [old], leftmost first, are replaced by
    [new].  [skip] counts the bytes of a matched occurrence still to be
    passed over. *)

Fixpoint replaceFrom (skip : nat) (s old new : string) : string :=
  match s with
  | EmptyString => EmptyString
  | String c rest =>
      match skip with
      | S k => replaceFrom k rest old new
      | O =>
          if String.prefix old s
          then new ++ replaceFrom (String.length old - 1) rest old new
          else String c (replaceFrom 0 rest old new)
      end
  end.

Definition ReplaceAll (s old new : string) : string := replaceFrom 0 s old new.

(** ** base64.StdEncoding.EncodeToString (RFC 4648, padded) *)

Definition encodeStd : string :=
  "ABCDEFGHIJKLMNOPQRSTUVWXYZabcdefghijklmnopqrstuvwxyz0123456789+/".

Definition sextet (n : N) : ascii :=
  match String.get (N.to_nat (n mod 64)) encodeStd with
  | Some c => c
  | None => "="%char
  end.

Fixpoint EncodeToString (src : string) : string :=
  match src with
  | EmptyString => EmptyString
  | String a EmptyString =>
      let v := (N_of_ascii a * 65536)%N in
      String (sextet (v / 262144)) (String (sextet (v / 4096)) "==")
  | String a (String b EmptyString) =>
      let v := (N_of_ascii a * 65536 + N_of_ascii b * 256)%N in
      String (sextet (v / 262144)) (String (sextet (v / 4096))
        (String (sextet (v / 64)) "="))
  | String a (String b (String c rest)) =>
      let v := (N_of_ascii a * 65536 + N_of_ascii b * 256 + N_of_ascii c)%N in
      String (sextet (v / 262144)) (String (sextet (v / 4096))
        (String (sextet (v / 64)) (String (sextet v) (EncodeToString rest))))
  end.

(** ** request_builder.go: BuildRESTRequest, BuildGraphQLRequest *)

Fixpoint findCredentialValue (credentialData : list CredentialsPairType)
    (key : string) : string :=
  match credentialData with
  | [] => ""
  | p :: rest =>
      if String.eqb (pairKey p) key then pairValue p
      else findCredentialValue rest key
  end.

Inductive BuildError : Type :=
  | EndpointNil                                 (* "endpoint is nil" *)
  | OperationNil                                (* "operation is nil" *)
  | BuildBodyFailed (cause : BuildObjectError)  (* "failed to build request body" *)
  | MarshalBodyFailed                           (* "failed to marshal request body" *)
  | RequiredParameterNotFound (name : string)   (* "required parameter '%s' not found in credentials" *)
  | BuildVariablesFailed (cause : BuildObjectError). (* "failed to build variables" *)

(** What the parameter loop of [BuildRESTRequest] updates. *)
Record ParamState : Type := mkParamState {
  psHeaders : gmap string string;
  psQueryParams : gmap string string;
  psURL : string;
}.

Definition routeParameter (location name v : string) (st : ParamState)
    : ParamState :=
  if String.eqb location "header" then
    mkParamState (<[name := v]> (psHeaders st)) (psQueryParams st) (psURL st)
  else if String.eqb location "query" then
    mkParamState (psHeaders st) (<[name := v]> (psQueryParams st)) (psURL st)
  else if String.eqb location "path" then
    mkParamState (psHeaders st) (psQueryParams st)
      (ReplaceAll (psURL st) ("{" ++ name ++ "}") v)
  else st.

Fixpoint applyParameters (credentialData : list CredentialsPairType)
    (params : list ContentAttributeType) (st : ParamState)
    : result BuildError ParamState :=
  match params with
  | [] => Ok st
  | param :: rest =>
      let v := findCredentialValue credentialData (paramValue param) in
      if String.eqb v "" && paramRequired param
      then Err (RequiredParameterNotFound (paramValue param))
      else applyParameters credentialData rest
             (routeParameter (paramLocation param) (paramValue param) v st)
  end.

(** [key=value] joined by [&], in the order the entries are visited. *)
Fixpoint queryString (first : bool) (entries : list (string * string)) : string :=
  match entries with
  | [] => ""
  | (key, v) :: rest =>
      (if first then "" else "&") ++ key ++ "=" ++ v ++ queryString false rest
  end.

(** The body and the headers it sets, before the parameters are read. *)
Definition requestBody `{JSON} (endpoint : EndpointType)
    (credentialData : list CredentialsPairType)
    : result BuildError (option string * gmap string string) :=
  match endpointRequestBody endpoint with
  | Some rb =>
      if contentRequired rb then
        match BuildNestedObject credentialData with
        | Err e => Err (BuildBodyFailed e)
        | Ok bodyObj =>
            match json_Marshal (VObject bodyObj) with
            | None => Err MarshalBodyFailed
            | Some bodyData =>
                Ok (Some bodyData, {[ "Content-Type" := contentContentType rb ]})
            end
        end
      else Ok (None, ∅)
  | None => Ok (None, ∅)
  end.

Definition BuildRESTRequest `{JSON} `{MapRange} (endpoint : option EndpointType)
    (credentialData : list CredentialsPairType) (baseURL : string)
    : result BuildError HTTPRequest :=
  match endpoint with
  | None => Err EndpointNil
  | Some endpoint =>
      match requestBody endpoint credentialData with
      | Err e => Err e
      | Ok (body, headers) =>
          match applyParameters credentialData (endpointParameters endpoint)
                  (mkParamState headers ∅ (baseURL ++ endpointPath endpoint)) with
          | Err e => Err e
          | Ok st =>
              let url :=
                if Nat.ltb 0 (size (psQueryParams st))
                then psURL st ++ "?" ++ queryString true (rangeOrder (psQueryParams st))
                else psURL st in
              Ok (mkRequest (endpointMethod endpoint) url body (psHeaders st))
          end
      end
  end.

Definition BuildGraphQLRequest (operation : option GqlOperationType)
    (credentialData : list CredentialsPairType)
    : result BuildError (string * gmap string value) :=
  match operation with
  | None => Err OperationNil
  | Some operation =>
      let query := gqlOperationType operation ++ " " ++ gqlName operation in
      match BuildNestedObject credentialData with
      | Err e => Err (BuildVariablesFailed e)
      | Ok variables => Ok (query, variables)
      end
  end.

(** ** token_extractor.go *)

Inductive ExtractError : Type :=
  | EmptyTokenLocation                          (* "tokenLocation is empty" *)
  | InvalidJSON                                 (* "failed to parse response as JSON" *)
  | NotAnObject (part : string) (index : nat)   (* "path segment '%s' (index %d) is not an object" *)
  | MissingSegment (part : string)              (* "path segment '%s' not found in response" *)
  | NotAString (tokenLocation : string)         (* "token value at path '%s' is not a string" *)
  | EmptyTokenValue (tokenLocation : string).   (* "token value at path '%s' is empty" *)

(** The loop over [pathParts], from index [i] on. *)
Fixpoint navigate (current : value) (pathParts : list string) (i : nat)
    : result ExtractError value :=
  match pathParts with
  | [] => Ok current
  | part :: rest =>
      match current with
      | VObject currentMap =>
          match currentMap !! part with
          | Some next => navigate next rest (S i)
          | None => Err (MissingSegment part)
          end
      | _ => Err (NotAnObject part i)
      end
  end.

Definition ExtractTokenFromResponse `{JSON} (responseBody tokenLocation : string)
    : result ExtractError string :=
  if String.eqb tokenLocation "" then Err EmptyTokenLocation
  else
    match json_Unmarshal responseBody with
    | None => Err InvalidJSON
    | Some data =>
        match navigate data (splitDots tokenLocation) 0 with
        | Err e => Err e
        | Ok (VString token) =>
            if String.eqb token "" then Err (EmptyTokenValue tokenLocation)
            else Ok token
        | Ok _ => Err (NotAString tokenLocation)
        end
    end.

(** ** token_cache.go

    The cache is the map [tokens]; the lock makes every method atomic, so
    a method is a function of the map.  [now] is what [time.Now().Unix()]
    returns inside the call. *)

Definition NewTokenCache : gmap string CachedToken := ∅.

Definition TokenCache_Get (tokens : gmap string CachedToken) (now : Z)
    (serviceId : string) (refreshBuffer : Z) : string * bool * bool :=
  match tokens !! serviceId with
  | None => ("", false, false)
  | Some cached =>
      if match ExpiresAt cached with
         | Some expiresAt => (expiresAt <=? now)%Z
         | None => false
         end
      then ("", false, false)
      else if match RefreshAt cached with
              | Some refreshAt => (refreshAt <=? now)%Z
              | None => false
              end
      then (Token cached, true, true)
      else (Token cached, false, true)
  end.

(** The entry [Set] builds before it stores it. *)
Definition newCachedToken (now : Z) (token : string) (ttl : option Z)
    (refreshBuffer : Z) : CachedToken :=
  match ttl with
  | Some ttl =>
      if (0 <? ttl)%Z then
        let expiresAt := add64 now ttl in
        let refreshAt := sub64 (add64 now ttl) refreshBuffer in
        if (now <? refreshAt)%Z
        then mkCached token (Some expiresAt) (Some refreshAt)
        else mkCached token (Some expiresAt) (Some now)
      else mkCached token None None
  | None => mkCached token None None
  end.

Definition TokenCache_Set (tokens : gmap string CachedToken) (now : Z)
    (serviceId token : string) (ttl : option Z) (refreshBuffer : Z)
    : gmap string CachedToken :=
  <[serviceId := newCachedToken now token ttl refreshBuffer]> tokens.

Definition TokenCache_Delete (tokens : gmap string CachedToken)
    (serviceId : string) : gmap string CachedToken :=
  delete serviceId tokens.

Definition TokenCache_Clear (tokens : gmap string CachedToken)
    : gmap string CachedToken := ∅.

(** ** auth_handler.go *)

(** What [callRESTAuthEndpoint] and [callGraphQLAuthEndpoint] fail with. *)
Inductive CallError : Type :=
  | BuildRESTFailed (cause : BuildError)       (* "failed to build REST request" *)
  | BuildGraphQLFailed (cause : BuildError)    (* "failed to build GraphQL request" *)
  | MarshalRequestFailed                       (* "failed to marshal request" *)
  | CreateRequestFailed                        (* "failed to create (HTTP) request" *)
  | ExecuteRequestFailed                       (* "failed to execute request" *)
  | ReadResponseFailed                         (* "failed to read response" *)
  | BadStatus (StatusCode : Z) (respBody : string) (* "... returned status %d: %s" *)
  | ExtractTokenFailed (cause : ExtractError). (* "failed to extract token" *)

Inductive AuthError : Type :=
  | CredentialsNil                             (* "credentials are nil" *)
  | UnsupportedAuthType (authType : string)    (* "unsupported auth type: %s" *)
  | BasicCredentialsNotFound                   (* "username or password not found in credential data" *)
  | ApiKeyEmpty                                (* "apiKey is empty" *)
  | NoEndpointConfigured                       (* "no authentication endpoint configured" *)
  | InvalidEndpointConfiguration               (* "invalid endpoint configuration" *)
  | ObtainTokenFailed (cause : CallError).     (* "failed to obtain token" *)

(** [AuthHandler]: the cache it points to and the configuration; the HTTP
    client is the [HTTPClient] instance. *)
Record AuthHandler : Type := mkHandler {
  handlerCache : gmap string CachedToken;
  handlerConfig : GlobalConfig;
}.

(** The loop of [handleBasicAuth]: every matching pair assigns. *)
Fixpoint scanBasic (credentialData : list CredentialsPairType)
    (username password : string) : string * string :=
  match credentialData with
  | [] => (username, password)
  | p :: rest =>
      let username :=
        if String.eqb (pairKey p) "username" || String.eqb (pairKey p) "user"
        then pairValue p else username in
      let password :=
        if String.eqb (pairKey p) "password" || String.eqb (pairKey p) "pass"
        then pairValue p else password in
      scanBasic rest username password
  end.

Definition handleBasicAuth (credentials : CredentialsType)
    : result AuthError string :=
  let '(username, password) := scanBasic (credCredentialData credentials) "" "" in
  if String.eqb username "" || String.eqb password ""
  then Err BasicCredentialsNotFound
  else
    let auth := username ++ ":" ++ password in
    Ok ("Basic " ++ EncodeToString auth).

Definition handleAPITokenAuth (credentials : CredentialsType)
    : result AuthError string :=
  if String.eqb (credApiKey credentials) "" then Err ApiKeyEmpty
  else Ok (credApiKey credentials).

(** After the request is built: send it, check the status among
    [accepted], extract the token. *)
Definition exchange `{JSON} `{HTTPClient} (req : HTTPRequest)
    (accepted : list Z) (tokenLocation : string) : result CallError string :=
  match httpDo req with
  | NewRequestError => Err CreateRequestFailed
  | DoError => Err ExecuteRequestFailed
  | ReadAllError => Err ReadResponseFailed
  | Response StatusCode respBody =>
      if forallb (fun ok => negb (StatusCode =? ok)%Z) accepted
      then Err (BadStatus StatusCode respBody)
      else
        match ExtractTokenFromResponse respBody tokenLocation with
        | Err e => Err (ExtractTokenFailed e)
        | Ok token => Ok token
        end
  end.

Definition callRESTAuthEndpoint `{JSON} `{MapRange} `{HTTPClient}
    (endpoint : EndpointType) (credentials : CredentialsType)
    : result CallError string :=
  match BuildRESTRequest (Some endpoint) (credCredentialData credentials) "" with
  | Err e => Err (BuildRESTFailed e)
  | Ok req => exchange req [200; 201]%Z (credTokenLocation credentials)
  end.

(** [GraphQLRequest{Query, Variables}] as [json.Marshal] sees it: the
    [variables] field is tagged [omitempty]. *)
Definition GraphQLRequest (query : string) (variables : gmap string value) : value :=
  if Nat.eqb (size variables) 0
  then VObject {[ "query" := VString query ]}
  else VObject (<["variables" := VObject variables]> {[ "query" := VString query ]}).

Definition callGraphQLAuthEndpoint `{JSON} `{HTTPClient}
    (operation : GqlOperationType) (credentials : CredentialsType)
    : result CallError string :=
  match BuildGraphQLRequest (Some operation) (credCredentialData credentials) with
  | Err e => Err (BuildGraphQLFailed e)
  | Ok (query, variables) =>
      match json_Marshal (GraphQLRequest query variables) with
      | None => Err MarshalRequestFailed
      | Some reqData =>
          let graphqlURL := "" in
          exchange
            (mkRequest "POST" graphqlURL (Some reqData)
               {[ "Content-Type" := "application/json" ]})
            [200]%Z (credTokenLocation credentials)
      end
  end.

(** [handleLoginAuth] reads the clock at most twice: [nowGet] inside
    [cache.Get] and [nowSet] inside [cache.Set].  It returns the token (or
    the error) and the cache as the call leaves it. *)
Definition handleLoginAuth `{JSON} `{MapRange} `{HTTPClient} (h : AuthHandler)
    (nowGet nowSet : Z) (serviceId : string) (credentials : CredentialsType)
    : result AuthError string * gmap string CachedToken :=
  let config := handlerConfig h in
  let cache := handlerCache h in
  let store token :=
    if CacheEnabled config
    then TokenCache_Set cache nowSet serviceId token
           (credTokenTtl credentials) (TokenRefreshBuffer config)
    else cache in
  let hit :=
    if CacheEnabled config then
      let '(token, needsRefresh, exists_) :=
        TokenCache_Get cache nowGet serviceId (TokenRefreshBuffer config) in
      if exists_ && negb needsRefresh then Some token else None
    else None in
  match hit with
  | Some token => (Ok token, cache)
  | None =>
      let preset :=
        match credToken credentials with
        | Some token => if String.eqb token "" then None else Some token
        | None => None
        end in
      match preset with
      | Some token => (Ok token, store token)
      | None =>
          match credEndpointData credentials with
          | None => (Err NoEndpointConfigured, cache)
          | Some (mkConnection []) => (Err NoEndpointConfigured, cache)
          | Some (mkConnection (edge :: _)) =>
              let endpointNode := edgeNode edge in
              let called :=
                match (if String.eqb (credEndpointType credentials) "REST"
                       then nodeEndpointType endpointNode else None) with
                | Some endpoint => Some (callRESTAuthEndpoint endpoint credentials)
                | None =>
                    match (if String.eqb (credEndpointType credentials) "GRAPHQL"
                           then nodeGqlOperationType endpointNode else None) with
                    | Some operation =>
                        Some (callGraphQLAuthEndpoint operation credentials)
                    | None => None
                    end
                end in
              match called with
              | None => (Err InvalidEndpointConfiguration, cache)
              | Some (Err e) => (Err (ObtainTokenFailed e), cache)
              | Some (Ok token) => (Ok token, store token)
              end
          end
      end
  end.

Definition GetAuthToken `{JSON} `{MapRange} `{HTTPClient} (h : AuthHandler)
    (nowGet nowSet : Z) (serviceId : string)
    (credentials : option CredentialsType)
    : result AuthError string * gmap string CachedToken :=
  match credentials with
  | None => (Err CredentialsNil, handlerCache h)
  | Some credentials =>
      if String.eqb (credAuthType credentials) "BASIC"
      then (handleBasicAuth credentials, handlerCache h)
      else if String.eqb (credAuthType credentials) "LOGIN"
      then handleLoginAuth h nowGet nowSet serviceId credentials
      else if String.eqb (credAuthType credentials) "APITOKEN"
      then (handleAPITokenAuth credentials, handlerCache h)
      else if String.eqb (credAuthType credentials) "NONE"
      then (Ok "", handlerCache h)
      else (Err (UnsupportedAuthType (credAuthType credentials)), handlerCache h)
  end.

(** ** A reference JSON codec

    A decoder and an encoder for the grammar of RFC 8259, after
    [encoding/json] decoding into an [interface{}] and encoding one: an
    object becomes a map (the last of equal keys wins), escapes are decoded
    to UTF-8 (an unpaired surrogate as U+FFFD), nesting deeper than 10000
    is refused; the encoder writes the keys of a map in byte order and
    escapes as [json.Marshal] does.  A number keeps its lexeme, and bytes
    above 127 are copied as they are (the library converts a number to a
    float64, refusing one out of range, and replaces ill-formed UTF-8).
    The examples run on it; the general statements hold for every [JSON]. *)

Module RefJSON.

Definition code (c : ascii) : N := N_of_ascii c.
Definition byte (n : N) : ascii := ascii_of_N (n mod 256).

Definition isSpace (c : ascii) : bool :=
  (code c =? 32)%N || (code c =? 9)%N || (code c =? 10)%N || (code c =? 13)%N.

Definition isDigit (c : ascii) : bool := (48 <=? code c)%N && (code c <=? 57)%N.

Fixpoint skipSpace (s : string) : string :=
  match s with
  | String c rest => if isSpace c then skipSpace rest else s
  | EmptyString => s
  end.

Fixpoint spanDigits (s : string) : string * string :=
  match s with
  | String c rest =>
      if isDigit c then let (ds, r) := spanDigits rest in (String c ds, r)
      else (EmptyString, s)
  | EmptyString => (EmptyString, s)
  end.

Definition hexVal (c : ascii) : option N :=
  let n := code c in
  if (48 <=? n)%N && (n <=? 57)%N then Some (n - 48)%N
  else if (97 <=? n)%N && (n <=? 102)%N then Some (n - 87)%N
  else if (65 <=? n)%N && (n <=? 70)%N then Some (n - 55)%N
  else None.

Definition hex4 (a b c d : ascii) : option N :=
  match hexVal a, hexVal b, hexVal c, hexVal d with
  | Some x, Some y, Some z, Some w => Some (((x * 16 + y) * 16 + z) * 16 + w)%N
  | _, _, _, _ => None
  end.

(** utf8.EncodeRune for a valid scalar value. *)
Definition utf8 (r : N) : string :=
  if (r <? 128)%N then String (byte r) ""
  else if (r <? 2048)%N then
    String (byte (192 + r / 64)) (String (byte (128 + r mod 64)) "")
  else if (r <? 65536)%N then
    String (byte (224 + r / 4096))
      (String (byte (128 + (r / 64) mod 64)) (String (byte (128 + r mod 64)) ""))
  else
    String (byte (240 + r / 262144))
      (String (byte (128 + (r / 4096) mod 64))
         (String (byte (128 + (r / 64) mod 64)) (String (byte (128 + r mod 64)) ""))).

Definition replacementChar : N := 65533.

Definition isSurrogate (r : N) : bool := (55296 <=? r)%N && (r <? 57344)%N.

(** utf16.DecodeRune *)
Definition decodeSurrogates (r1 r2 : N) : N :=
  if (55296 <=? r1)%N && (r1 <? 56320)%N && (56320 <=? r2)%N && (r2 <? 57344)%N
  then ((r1 - 55296) * 1024 + (r2 - 56320) + 65536)%N
  else replacementChar.

Definition simpleEscape (c : ascii) : option ascii :=
  let n := code c in
  if (n =? 34)%N then Some (byte 34)        (* quote *)
  else if (n =? 92)%N then Some (byte 92)   (* backslash *)
  else if (n =? 47)%N then Some (byte 47)   (* slash *)
  else if (n =? 98)%N then Some (byte 8)    (* escape b *)
  else if (n =? 102)%N then Some (byte 12)  (* escape f *)
  else if (n =? 110)%N then Some (byte 10)  (* escape n *)
  else if (n =? 114)%N then Some (byte 13)  (* escape r *)
  else if (n =? 116)%N then Some (byte 9)   (* escape t *)
  else None.

Definition andThen (pre : string) (r : option (string * string))
    : option (string * string) :=
  match r with
  | Some (s, rest) => Some (pre ++ s, rest)
  | None => None
  end.

(** The characters of a string literal after its opening quote, unquoted,
    and the input after its closing quote. *)
Fixpoint scanString (s : string) : option (string * string) :=
  match s with
  | EmptyString => None
  | String c rest =>
      if (code c =? 34)%N then Some (EmptyString, rest)
      else if (code c =? 92)%N then
        match rest with
        | EmptyString => None
        | String e rest1 =>
            if (code e =? 117)%N then
              match rest1 with
              | String h1 (String h2 (String h3 (String h4 rest2))) =>
                  match hex4 h1 h2 h3 h4 with
                  | None => None
                  | Some rr =>
                      if isSurrogate rr then
                        match rest2 with
                        | String b (String u (String g1 (String g2
                            (String g3 (String g4 rest3))))) =>
                            match (if (code b =? 92)%N && (code u =? 117)%N
                                   then hex4 g1 g2 g3 g4 else None) with
                            | Some rr1 =>
                                let dec := decodeSurrogates rr rr1 in
                                if (dec =? replacementChar)%N
                                then andThen (utf8 replacementChar) (scanString rest2)
                                else andThen (utf8 dec) (scanString rest3)
                            | None => andThen (utf8 replacementChar) (scanString rest2)
                            end
                        | _ => andThen (utf8 replacementChar) (scanString rest2)
                        end
                      else andThen (utf8 rr) (scanString rest2)
                  end
              | _ => None
              end
            else
              match simpleEscape e with
              | Some ch => andThen (String ch "") (scanString rest1)
              | None => None
              end
        end
      else if (code c <? 32)%N then None
      else andThen (String c "") (scanString rest)
  end.

Definition scanNumber (s : string) : option (string * string) :=
  let '(sign, s1) :=
    match s with
    | String c r => if (code c =? 45)%N then ("-", r) else ("", s)
    | EmptyString => ("", s)
    end in
  match s1 with
  | EmptyString => None
  | String d r =>
      if negb (isDigit d) then None
      else
        let '(int, r1) :=
          if (code d =? 48)%N then ("0", r)
          else let (ds, r') := spanDigits r in (String d ds, r') in
        let frac :=
          match r1 with
          | String p r2 =>
              if (code p =? 46)%N then
                let (ds, r3) := spanDigits r2 in
                if (ds =? "")%string then None else Some ("." ++ ds, r3)
              else Some ("", r1)
          | EmptyString => Some ("", r1)
          end in
        match frac with
        | None => None
        | Some (fr, r4) =>
            let exp :=
              match r4 with
              | String e r5 =>
                  if (code e =? 101)%N || (code e =? 69)%N then
                    let '(es, r6) :=
                      match r5 with
                      | String g r' =>
                          if (code g =? 43)%N || (code g =? 45)%N
                          then (String g "", r') else ("", r5)
                      | EmptyString => ("", r5)
                      end in
                    let (ds, r7) := spanDigits r6 in
                    if (ds =? "")%string then None
                    else Some (String e es ++ ds, r7)
                  else Some ("", r4)
              | EmptyString => Some ("", r4)
              end in
            match exp with
            | None => None
            | Some (ex, r8) => Some (sign ++ int ++ fr ++ ex, r8)
            end
        end
  end.

Fixpoint dropPrefix (p s : string) : option string :=
  match p, s with
  | EmptyString, _ => Some s
  | String a p', String b s' => if Ascii.eqb a b then dropPrefix p' s' else None
  | String _ _, EmptyString => None
  end.

Definition maxNestingDepth : N := 10000.

(** A value at the head of the input and what follows it; the members of
    an object after its opening brace or a comma, added to [acc]; the
    elements of an array likewise.  [depth] counts the objects and arrays
    that are open. *)

Fixpoint parseValue (fuel : nat) (depth : N) (s : string) : option (value * string) :=
  match fuel with
  | O => None
  | S fuel =>
      match skipSpace s with
      | EmptyString => None
      | String c rest =>
          if (code c =? 123)%N then           (* { *)
            if (maxNestingDepth <? depth + 1)%N then None
            else
              match skipSpace rest with
              | String c' rest' =>
                  if (code c' =? 125)%N then Some (VObject ∅, rest')
                  else parseMembers fuel (depth + 1)%N ∅ rest
              | EmptyString => None
              end
          else if (code c =? 91)%N then       (* [ *)
            if (maxNestingDepth <? depth + 1)%N then None
            else
              match skipSpace rest with
              | String c' rest' =>
                  if (code c' =? 93)%N then Some (VArray [], rest')
                  else parseElements fuel (depth + 1)%N [] rest
              | EmptyString => None
              end
          else if (code c =? 34)%N then
            match scanString rest with
            | Some (str, rest') => Some (VString str, rest')
            | None => None
            end
          else if (code c =? 116)%N then
            match dropPrefix "true" (String c rest) with
            | Some rest' => Some (VBool true, rest') | None => None end
          else if (code c =? 102)%N then
            match dropPrefix "false" (String c rest) with
            | Some rest' => Some (VBool false, rest') | None => None end
          else if (code c =? 110)%N then
            match dropPrefix "null" (String c rest) with
            | Some rest' => Some (VNull, rest') | None => None end
          else
            match scanNumber (String c rest) with
            | Some (lexeme, rest') => Some (VNumber lexeme, rest')
            | None => None
            end
      end
  end
with parseMembers (fuel : nat) (depth : N) (acc : gmap string value) (s : string)
    : option (value * string) :=
  match fuel with
  | O => None
  | S fuel =>
      match skipSpace s with
      | String q rest =>
          if (code q =? 34)%N then
            match scanString rest with
            | Some (key, rest1) =>
                match skipSpace rest1 with
                | String colon rest2 =>
                    if (code colon =? 58)%N then
                      match parseValue fuel depth rest2 with
                      | Some (v, rest3) =>
                          match skipSpace rest3 with
                          | String d rest4 =>
                              if (code d =? 44)%N
                              then parseMembers fuel depth (<[key := v]> acc) rest4
                              else if (code d =? 125)%N
                              then Some (VObject (<[key := v]> acc), rest4)
                              else None
                          | EmptyString => None
                          end
                      | None => None
                      end
                    else None
                | EmptyString => None
                end
            | None => None
            end
          else None
      | EmptyString => None
      end
  end
with parseElements (fuel : nat) (depth : N) (acc : list value) (s : string)
    : option (value * string) :=
  match fuel with
  | O => None
  | S fuel =>
      match parseValue fuel depth s with
      | Some (v, rest) =>
          match skipSpace rest with
          | String d rest' =>
              if (code d =? 44)%N then parseElements fuel depth (acc ++ [v]) rest'
              else if (code d =? 93)%N then Some (VArray (acc ++ [v]), rest')
              else None
          | EmptyString => None
          end
      | None => None
      end
  end.

(** The whole input is one value between white space.  The recursion is
    given a depth of twice the length of the input and two more. *)
Definition decode (data : string) : option value :=
  match parseValue (2 * String.length data + 2) 0%N data with
  | Some (v, rest) =>
      match skipSpace rest with
      | EmptyString => Some v
      | String _ _ => None
      end
  | None => None
  end.


Definition hexDigit (n : N) : ascii :=
  match String.get (N.to_nat (n mod 16)) "0123456789abcdef" with
  | Some c => c
  | None => "0"%char
  end.

Definition escapeByte (c : ascii) : string :=
  let n := code c in
  let esc (e : N) := String (byte 92) (String (byte e) "") in
  if (n =? 34)%N then esc 34%N
  else if (n =? 92)%N then esc 92%N
  else if (n =? 8)%N then esc 98%N
  else if (n =? 12)%N then esc 102%N
  else if (n =? 10)%N then esc 110%N
  else if (n =? 13)%N then esc 114%N
  else if (n =? 9)%N then esc 116%N
  else if (n <? 32)%N || (n =? 60)%N || (n =? 62)%N || (n =? 38)%N then
    esc 117%N ++ "00" ++ String (hexDigit (n / 16)) (String (hexDigit n) "")
  else String c "".

Fixpoint escapeString (s : string) : string :=
  match s with
  | EmptyString => EmptyString
  | String c rest => escapeByte c ++ escapeString rest
  end.

Definition quote (s : string) : string :=
  String (byte 34) (escapeString s ++ String (byte 34) "").

Definition keyLe (a b : string * string) : Prop := Is_true (String.leb a.1 b.1).

#[local] Instance keyLe_dec (a b : string * string) : Decision (keyLe a b) := _.

Fixpoint encode (v : value) : string :=
  match v with
  | VNull => "null"
  | VBool true => "true"
  | VBool false => "false"
  | VNumber lexeme => lexeme
  | VString s => quote s
  | VArray items =>
      "[" ++ String.concat ","
               ((fix each (l : list value) : list string :=
                   match l with
                   | [] => []
                   | x :: r => encode x :: each r
                   end) items) ++ "]"
  | VObject fields =>
      "{" ++ String.concat ","
               (map (fun kv : string * string => quote kv.1 ++ ":" ++ kv.2)
                  (merge_sort keyLe (map_to_list (encode <$> fields)))) ++ "}"
  end.

End RefJSON.

Definition refJSON : JSON :=
  {| json_Unmarshal := RefJSON.decode;
     json_Marshal := fun v => Some (RefJSON.encode v) |}.

(** A map visited in the order of its list of entries. *)
Definition listOrder : MapRange := map_to_list.

(** An upstream that answers every request with one status and body. *)
Definition fixedUpstream (StatusCode : Z) (respBody : string) : HTTPClient :=
  fun _ => Response StatusCode respBody.

(** ** Sample data *)

(** A JSON text written with single quotes for its double quotes. *)
Fixpoint jsonText (s : string) : string :=
  match s with
  | EmptyString => EmptyString
  | String c rest =>
      String (if (N_of_ascii c =? 39)%N then ascii_of_N 34 else c) (jsonText rest)
  end.

(** The two documents of the extraction examples. *)
Definition loginResponse : string := jsonText "{'data':{'login':{'token':'abc'}}}".
Definition emptyDataResponse : string := jsonText "{'data':{}}".

(** The configuration [LoadGlobalConfig] yields for a file that sets the
    API URL, enables the cache and leaves the rest to the defaults. *)
Definition defaultConfig : GlobalConfig :=
  mkConfig "http://directory/graphql" "none" "" "" "" "Authorization" "10s" true 10.

(** BASIC credentials holding the pairs [credentialData]. *)
Definition basicCredentials (credentialData : list CredentialsPairType)
    : CredentialsType :=
  mkCredentials "BASIC" "" credentialData None "" None "" None.

(** A LOGIN declaration over REST: POST /login with the pairs as JSON body,
    the token at [data.token], valid for an hour. *)
Definition loginEndpoint : EndpointType :=
  mkEndpoint "ep1" "POST" "/login" "" [] []
    None (Some (mkContent "application/json" "" "" true)).

Definition loginCredentials : CredentialsType :=
  mkCredentials "LOGIN" "REST"
    [mkPair "user.name" "john"; mkPair "user.pass" "secret"]
    None "data.token" (Some 3600%Z) ""
    (Some (mkConnection [mkEdge (mkNode (Some loginEndpoint) None)])).

(** A cache whose entry for "svc" is due for a refresh from time 50 on and
    expires at time 100. *)
Definition staleCache : gmap string CachedToken :=
  {[ "svc" := mkCached "old" (Some 100%Z) (Some 50%Z) ]}.

(** An endpoint with an optional header and an optional query parameter,
    and a required path parameter. *)
Definition searchEndpoint : EndpointType :=
  mkEndpoint "ep2" "GET" "/tenants/{tenant}/token" "" []
    [mkParam "string" "X-Trace" false "header" "" "";
     mkParam "string" "scope" false "query" "" "";
     mkParam "string" "tenant" true "path" "" ""]
    None None.

(** ** Vocabulary of the statements *)

(** [v] is the value of the last pair of [credentialData] whose key is one
    of [keys]. *)
Definition lastMatch (keys : list string)
    (credentialData : list CredentialsPairType) (v : string) : Prop :=
  exists pre p post,
    credentialData = (pre ++ p :: post)%list /\ pairKey p ∈ keys /\
    pairValue p = v /\ Forall (fun q => pairKey q ∉ keys) post.

(** No pair of [credentialData] has a key among [keys]. *)
Definition noMatch (keys : list string)
    (credentialData : list CredentialsPairType) : Prop :=
  Forall (fun q => pairKey q ∉ keys) credentialData.

(** [path] leads, through objects only, to a value of [m] that is not an
    object. *)
Fixpoint leafAt (m : gmap string value) (path : list string) : Prop :=
  match path with
  | [] => False
  | key :: rest =>
      match m !! key with
      | Some (VObject m') => leafAt m' rest
      | Some _ => rest = []
      | None => False
      end
  end.

(** [p] is a prefix of [q] and shorter. *)
Definition properPrefix (p q : list string) : Prop := p `prefix_of` q /\ p <> q.

#[global] Instance properPrefix_dec : RelDecision properPrefix.
Proof. intros a b. unfold properPrefix. apply _. Defined.

(** The segments of the key of some pair extend those of an earlier one. *)
Definition extendsEarlier (credentialData : list CredentialsPairType) : Prop :=
  exists (i j : nat) (p q : CredentialsPairType),
    i < j /\ credentialData !! i = Some p /\ credentialData !! j = Some q /\
    properPrefix (splitDots (pairKey p)) (splitDots (pairKey q)).

(** The first segment of a dotted key. *)
Definition topLevel (key : string) : string := hd "" (splitDots key).

(** What links the object under construction to the pairs already
    [seen]: every leaf was put there by one of them, and each of them
    still finds a leaf at its path or above it. *)
Definition tracks (acc : gmap string value)
    (seen : list CredentialsPairType) : Prop :=
  (forall path, leafAt acc path ->
     exists p, p ∈ seen /\ splitDots (pairKey p) = path) /\
  (forall p, p ∈ seen ->
     exists path, path `prefix_of` splitDots (pairKey p) /\ leafAt acc path).

(** Every hop along the path from the first value is an object holding
    the next segment, and the last hop gives the second value. *)
Inductive reaches : value -> list string -> value -> Prop :=
  | reaches_here (v : value) : reaches v [] v
  | reaches_hop (fields : gmap string value) (part : string)
      (rest : list string) (next w : value) :
      fields !! part = Some next -> reaches next rest w ->
      reaches (VObject fields) (part :: rest) w.

Definition notObject (v : value) : Prop :=
  match v with VObject _ => False | _ => True end.

Definition notString (v : value) : Prop :=
  match v with VString _ => False | _ => True end.

(** The segments of [path] before one [part] of it lead to an object that
    does not hold [part]. *)
Definition segmentAbsent (data : value) (path : list string) (part : string)
    : Prop :=
  exists pre post fields,
    path = (pre ++ part :: post)%list /\
    reaches data pre (VObject fields) /\ fields !! part = None.

(** The segments of [path] before its segment [part] of index [i] lead to
    a value that is not an object. *)
Definition hopNotObject (data : value) (path : list string) (part : string)
    (i : nat) : Prop :=
  exists pre post w,
    path = (pre ++ part :: post)%list /\ length pre = i /\
    reaches data pre w /\ notObject w.

(** A GraphQL login declaration, and an upstream that answers only the
    requests sent to the empty URL. *)
Definition loginOperation : GqlOperationType :=
  mkGqlOperation "op1" "login" "mutation" "" ∅ "".

Definition emptyURLUpstream (StatusCode : Z) (respBody : string) : HTTPClient :=
  fun req =>
    if String.eqb (reqURL req) "" then Response StatusCode respBody else DoError.

(** Neither list of segments is a prefix of the other. *)
Definition incomparable (a b : list string) : Prop :=
  ~ a `prefix_of` b /\ ~ b `prefix_of` a.

(** The keys of the pairs are incomparable two by two. *)
Fixpoint pairwiseIncomparable (credentialData : list CredentialsPairType) : Prop :=
  match credentialData with
  | [] => True
  | p :: rest =>
      Forall (fun q => incomparable (splitDots (pairKey p)) (splitDots (pairKey q)))
        rest /\
      pairwiseIncomparable rest
  end.

#[global] Instance CredentialsPairType_eq_dec : EqDecision CredentialsPairType.
Proof. solve_decision. Defined.

(** Some parameter of [params] has the location and the name. *)
Definition declares (location : string) (params : list ContentAttributeType)
    (name : string) : bool :=
  existsb (fun param =>
             String.eqb (paramLocation param) location &&
             String.eqb (paramValue param) name) params.

(** The endpoint declares a body and requires it. *)
Definition bodyRequired (endpoint : EndpointType) : bool :=
  match endpointRequestBody endpoint with
  | Some rb => contentRequired rb
  | None => false
  end.

(** The declared content type of the body, if one is declared. *)
Definition bodyContentType (endpoint : EndpointType) : string :=
  match endpointRequestBody endpoint with
  | Some rb => contentContentType rb
  | None => ""
  end.

(** The parameter is required and resolves to the empty string. *)
Definition unresolved (cd : list CredentialsPairType)
    (param : ContentAttributeType) : Prop :=
  paramRequired param = true /\ findCredentialValue cd (paramValue param) = "".

(** * The rest of the plugin: configuration, directory client, middleware *)

(** ** More of the libraries

    The working directory, the file system, the YAML decoder and
    [time.ParseDuration], as [LoadGlobalConfig] and [GetTimeout] use them;
    the decoder of the YAML text gives the [GlobalConfig] that
    [yaml.Unmarshal] fills from a zero value. *)
Class System : Type := {
  os_Getwd : option string;
  filepath_Join : list string -> string;
  os_ReadFile : string -> option string;
  yaml_Unmarshal : string -> option GlobalConfig;
  time_ParseDuration : string -> option Z;
}.

(** [textproto.CanonicalMIMEHeaderKey]: a key made of token bytes only gets
    an upper-case first letter and an upper-case letter after every dash,
    the other letters in lower case; any other key is left as it is. *)
Definition validHeaderFieldByte (c : ascii) : bool :=
  let n := N_of_ascii c in
  ((48 <=? n)%N && (n <=? 57)%N) || ((65 <=? n)%N && (n <=? 90)%N) ||
  ((97 <=? n)%N && (n <=? 122)%N) ||
  existsb (N.eqb n) [33; 35; 36; 37; 38; 39; 42; 43; 45; 46; 94; 95; 96; 124; 126]%N.

Fixpoint allValid (s : string) : bool :=
  match s with
  | EmptyString => true
  | String c rest => validHeaderFieldByte c && allValid rest
  end.

Fixpoint canonicalFrom (upper : bool) (s : string) : string :=
  match s with
  | EmptyString => EmptyString
  | String c rest =>
      let n := N_of_ascii c in
      let c' :=
        if upper && (97 <=? n)%N && (n <=? 122)%N then ascii_of_N (n - 32)
        else if negb upper && (65 <=? n)%N && (n <=? 90)%N then ascii_of_N (n + 32)
        else c in
      String c' (canonicalFrom (N_of_ascii c' =? 45)%N rest)
  end.

Definition CanonicalMIMEHeaderKey (s : string) : string :=
  if allValid s then canonicalFrom true s else s.

(** [http.Header]: the values of each canonical key.  [Set] replaces them
    by one value. *)
Definition Header_Set (key v : string) (header : gmap string (list string))
    : gmap string (list string) :=
  <[CanonicalMIMEHeaderKey key := [v]]> header.

(** ** types.go: the answer of the directory *)

Record HeaderType : Type := mkHeader {
  headerKey : string;
  headerValue : string;
}.

Record InstanceType : Type := mkInstance {
  instID : string;
  instName : string;
  instType : string;
  instServiceHost : string;
  instServicePath : string;
  instRemoteHost : string;
  instRemotePath : string;
  instVersionID : string;
  instOperations : list string;
  instHeaders : list HeaderType;
  instCredentials : option CredentialsType;
  instCreatedAt : Z;
  instUpdatedAt : Z;
}.

Record GraphQLError : Type := mkGraphQLError {
  errMessage : string;
  errPath : list string;
}.

Record InstanceEdge : Type := mkInstanceEdge { instanceNode : option InstanceType }.

Record InstanceConnection : Type := mkInstanceConnection {
  instanceEdges : list InstanceEdge;
}.

Record InstanceData : Type := mkInstanceData {
  dataGetInstances : option InstanceConnection;
}.

Record GraphQLResponse : Type := mkGraphQLResponse {
  responseData : option InstanceData;
  responseErrors : list GraphQLError;
}.

(** The request of the directory client as it is sent: the URL, the body
    and the header the [Set] calls leave. *)
Record DirectoryRequest : Type := mkDirectoryRequest {
  dirURL : string;
  dirBody : string;
  dirHeader : gmap string (list string);
}.

(** What [client.Do] and [io.ReadAll] make of it. *)
Inductive DirectoryAnswer : Type :=
  | TransportError
  | BodyReadError
  | Answer (StatusCode : Z) (respData : string).

(** Whether [http.NewRequest] accepts a POST to the URL, the HTTP client
    of the directory client, with its timeout, and [json.Unmarshal] into a
    [GraphQLResponse]. *)
Class Directory : Type := {
  directoryNewRequest : string -> bool;
  directoryDo : DirectoryRequest -> DirectoryAnswer;
  decodeGraphQLResponse : string -> option GraphQLResponse;
}.

(** [EndpointNode.UnmarshalJSON] reads the same bytes twice, with
    [json.Unmarshal] into an [EndpointType] and into a [GqlOperationType]. *)
Class NodeDecoders : Type := {
  decodeEndpointType : string -> option EndpointType;
  decodeGqlOperationType : string -> option GqlOperationType;
}.

(** The receiver is updated in place and the error is always nil. *)
Definition EndpointNode_UnmarshalJSON `{NodeDecoders} (e : EndpointNode)
    (data : string) : EndpointNode :=
  match (match decodeEndpointType data with
         | Some endpoint =>
             if String.eqb (endpointMethod endpoint) "" then None else Some endpoint
         | None => None
         end) with
  | Some endpoint => mkNode (Some endpoint) (nodeGqlOperationType e)
  | None =>
      match (match decodeGqlOperationType data with
             | Some gqlOp =>
                 if String.eqb (gqlOperationType gqlOp) "" then None else Some gqlOp
             | None => None
             end) with
      | Some gqlOp => mkNode (nodeEndpointType e) (Some gqlOp)
      | None => e
      end
  end.

(** ** config.go *)

Record Config : Type := mkPluginConfig { ServiceId : string }.

Definition CreateConfig : Config := mkPluginConfig "".

Inductive ConfigError : Type :=
  | ServiceIdRequired                        (* "serviceId is required" *)
  | GetwdFailed                              (* "failed to get working directory" *)
  | ReadConfigFailed (configPath : string)   (* "failed to read config file at %s" *)
  | ParseConfigFailed                        (* "failed to parse config file" *)
  | GraphQLAPIURLRequired                    (* "graphql_api_url is required" *)
  | InvalidGraphQLAuthType (authType : string) (* "invalid graphql_auth_type: %s ..." *)
  | BasicCredentialsRequired                 (* "graphql_username and graphql_password are required for basic auth" *)
  | APITokenRequired.                        (* "graphql_api_token is required for apitoken auth" *)

(** The "Set defaults" block of [LoadGlobalConfig]. *)
Definition setDefaults (config : GlobalConfig) : GlobalConfig :=
  mkConfig (GraphQLAPIURL config)
    (if String.eqb (GraphQLAuthType config) "" then "none" else GraphQLAuthType config)
    (GraphQLUsername config) (GraphQLPassword config) (GraphQLAPIToken config)
    (if String.eqb (GraphQLTokenHeader config) "" then "Authorization"
     else GraphQLTokenHeader config)
    (if String.eqb (Timeout config) "" then "10s" else Timeout config)
    (CacheEnabled config)
    (if (TokenRefreshBuffer config =? 0)%Z then 10%Z else TokenRefreshBuffer config).

Definition LoadGlobalConfig `{System} : result ConfigError GlobalConfig :=
  match os_Getwd with
  | None => Err GetwdFailed
  | Some cwd =>
      let configPath := filepath_Join [cwd; "instance"; "etc"; "config.yml"] in
      match os_ReadFile configPath with
      | None => Err (ReadConfigFailed configPath)
      | Some data =>
          match yaml_Unmarshal data with
          | None => Err ParseConfigFailed
          | Some config => Ok (setDefaults config)
          end
      end
  end.

Definition GetTimeout `{System} (c : GlobalConfig) : option Z :=
  time_ParseDuration (Timeout c).

Definition Config_Validate (c : Config) : result ConfigError unit :=
  if String.eqb (ServiceId c) "" then Err ServiceIdRequired else Ok tt.

Definition GlobalConfig_Validate (c : GlobalConfig) : result ConfigError unit :=
  if String.eqb (GraphQLAPIURL c) "" then Err GraphQLAPIURLRequired
  else if negb (String.eqb (GraphQLAuthType c) "none" ||
                String.eqb (GraphQLAuthType c) "basic" ||
                String.eqb (GraphQLAuthType c) "apitoken")
  then Err (InvalidGraphQLAuthType (GraphQLAuthType c))
  else if String.eqb (GraphQLAuthType c) "basic" &&
          (String.eqb (GraphQLUsername c) "" || String.eqb (GraphQLPassword c) "")
  then Err BasicCredentialsRequired
  else if String.eqb (GraphQLAuthType c) "apitoken" &&
          String.eqb (GraphQLAPIToken c) ""
  then Err APITokenRequired
  else Ok tt.

(** ** graphql_client.go *)

Inductive FetchError : Type :=
  | FetchMarshalFailed                       (* "failed to marshal request" *)
  | FetchCreateRequestFailed                 (* "failed to create request" *)
  | AddAuthenticationFailed (authType : string) (* "failed to add authentication: unsupported auth type: %s" *)
  | FetchExecuteFailed                       (* "failed to execute request" *)
  | FetchReadFailed                          (* "failed to read response" *)
  | DirectoryStatus (StatusCode : Z) (respData : string) (* "GraphQL API returned status %d: %s" *)
  | FetchParseFailed                         (* "failed to parse response" *)
  | DirectoryError (message : string)        (* "GraphQL error: %s" *)
  | NoInstanceFound (instanceId : string)    (* "no instance found with ID: %s" *)
  | InstanceNodeNil.                         (* "instance node is nil" *)

(** [NewGraphQLClient]: the configuration and the timeout of the HTTP
    client; [None] for "invalid timeout". *)
Definition NewGraphQLClient `{System} (config : GlobalConfig)
    : option (GlobalConfig * Z) :=
  match GetTimeout config with
  | None => None
  | Some timeout => Some (config, timeout)
  end.

(** The text of the query, written with single quotes for its two double
    quotes. *)
Definition instanceQuery : string := jsonText "
		query instance($id: String!) {
			getInstances(
				queryInput: {
					search: [
						{
							field: '_id'
							value: {
								value: $id
								kind: ID
								operator: EQ
							}
						}
					]
				}
			) {
				edges {
					node {
						_id
						name
						type
						service_host
						service_path
						remote_host
						remote_path
						version_id
						operations
						headers {
							key
							value
						}
						credentials {
							apiKey
							token
							tokenLocation
							tokenTtl
							credentialData {
								key
								value
							}
							endpointType
							authType
							endpointData {
								edges {
									node {
										... on EndpointType {
											_id
											method
											path
											description
											tags
											parameters {
												type
												value
												required
												location
												description
												default
											}
											responseBody {
												contentType
												contentSchema
												description
											}
											requestBody {
												contentType
												contentSchema
												description
												required
											}
										}
										... on GqlOperationType {
											_id
											name
											operationType
											description
											arguments
											result
										}
									}
								}
							}
						}
					}
				}
			}
		}
	".

(** [addAuthentication] on the header of the request. *)
Definition addAuthentication (config : GlobalConfig)
    (header : gmap string (list string))
    : result FetchError (gmap string (list string)) :=
  if String.eqb (GraphQLAuthType config) "basic" then
    let auth := GraphQLUsername config ++ ":" ++ GraphQLPassword config in
    Ok (Header_Set "Authorization" ("Basic " ++ EncodeToString auth) header)
  else if String.eqb (GraphQLAuthType config) "apitoken" then
    Ok (Header_Set (GraphQLTokenHeader config) (GraphQLAPIToken config) header)
  else if String.eqb (GraphQLAuthType config) "none" then Ok header
  else Err (AddAuthenticationFailed (GraphQLAuthType config)).

(** What [FetchInstanceById] makes of the body of a 200 answer. *)
Definition instanceOfResponse `{Directory} (respData instanceId : string)
    : result FetchError InstanceType :=
  match decodeGraphQLResponse respData with
  | None => Err FetchParseFailed
  | Some gqlResp =>
      match responseErrors gqlResp with
      | first :: _ => Err (DirectoryError (errMessage first))
      | [] =>
          match responseData gqlResp with
          | None => Err (NoInstanceFound instanceId)
          | Some data =>
              match dataGetInstances data with
              | None => Err (NoInstanceFound instanceId)
              | Some connection =>
                  match instanceEdges connection with
                  | [] => Err (NoInstanceFound instanceId)
                  | edge :: _ =>
                      match instanceNode edge with
                      | None => Err InstanceNodeNil
                      | Some instance => Ok instance
                      end
                  end
              end
          end
      end
  end.

Definition FetchInstanceById `{JSON} `{Directory} (config : GlobalConfig)
    (instanceId : string) : result FetchError InstanceType :=
  match json_Marshal
          (GraphQLRequest instanceQuery {[ "id" := VString instanceId ]}) with
  | None => Err FetchMarshalFailed
  | Some reqData =>
      if negb (directoryNewRequest (GraphQLAPIURL config))
      then Err FetchCreateRequestFailed
      else
        match addAuthentication config
                (Header_Set "Content-Type" "application/json" ∅) with
        | Err e => Err e
        | Ok header =>
            match directoryDo
                    (mkDirectoryRequest (GraphQLAPIURL config) reqData header) with
            | TransportError => Err FetchExecuteFailed
            | BodyReadError => Err FetchReadFailed
            | Answer StatusCode respData =>
                if negb (StatusCode =? 200)%Z
                then Err (DirectoryStatus StatusCode respData)
                else instanceOfResponse respData instanceId
            end
        end
  end.

(** ** middleware.go *)

Inductive NewError : Type :=
  | InvalidPluginConfiguration (cause : ConfigError)   (* "invalid plugin configuration" *)
  | LoadGlobalConfigurationFailed (cause : ConfigError) (* "failed to load global configuration" *)
  | InvalidGlobalConfiguration (cause : ConfigError)   (* "invalid global configuration" *)
  | CreateGraphQLClientFailed.                         (* "failed to create GraphQL client: invalid timeout" *)

(** [TokenInjector]: the two configurations and the cache; the directory
    client and the authentication handler are made of them. *)
Record TokenInjector : Type := mkInjector {
  injConfig : Config;
  injGlobalConfig : GlobalConfig;
  injCache : gmap string CachedToken;
}.

Definition New `{System} (config : Config) : result NewError TokenInjector :=
  match Config_Validate config with
  | Err e => Err (InvalidPluginConfiguration e)
  | Ok _ =>
      match LoadGlobalConfig with
      | Err e => Err (LoadGlobalConfigurationFailed e)
      | Ok globalConfig =>
          match GlobalConfig_Validate globalConfig with
          | Err e => Err (InvalidGlobalConfiguration e)
          | Ok _ =>
              match NewGraphQLClient globalConfig with
              | None => Err CreateGraphQLClientFailed
              | Some _ => Ok (mkInjector config globalConfig NewTokenCache)
              end
          end
      end
  end.

(** What [ServeHTTP] does with the request: answer it with [http.Error], or
    hand it to the next handler with this header. *)
Inductive Served : Type :=
  | Refused (StatusCode : Z) (message : string)
  | Forwarded (header : gmap string (list string)).

(** The value put in the Authorization header for a non-empty token. *)
Definition authorizationValue (authType token : string) : string :=
  if negb (String.eqb authType "BASIC") && negb (String.eqb authType "APITOKEN")
  then
    if Nat.ltb 7 (String.length token) &&
       negb (String.eqb (String.substring 0 7 token) "Bearer ")
    then "Bearer " ++ token
    else token
  else token.

(** The loop over the headers of the instance. *)
Definition addCustomHeaders (headers : list HeaderType)
    (header : gmap string (list string)) : gmap string (list string) :=
  fold_left (fun h custom => Header_Set (headerKey custom) (headerValue custom) h)
    headers header.

(** [ServeHTTP] on the header of the request; the cache is the one of the
    handler, and the clock readings are those of [GetAuthToken]. *)
Definition ServeHTTP `{JSON} `{MapRange} `{HTTPClient} `{Directory}
    (t : TokenInjector) (nowGet nowSet : Z) (header : gmap string (list string))
    : Served * gmap string CachedToken :=
  match FetchInstanceById (injGlobalConfig t) (ServiceId (injConfig t)) with
  | Err _ => (Refused 500 "Failed to fetch instance data", injCache t)
  | Ok instance =>
      match instCredentials instance with
      | None => (Forwarded header, injCache t)
      | Some credentials =>
          match GetAuthToken (mkHandler (injCache t) (injGlobalConfig t))
                  nowGet nowSet (ServiceId (injConfig t)) (Some credentials) with
          | (Err _, cache) => (Refused 401 "Failed to authenticate", cache)
          | (Ok token, cache) =>
              let injected :=
                if String.eqb token "" then header
                else Header_Set "Authorization"
                       (authorizationValue (credAuthType credentials) token) header in
              (Forwarded (addCustomHeaders (instHeaders instance) injected), cache)
          end
      end
  end.

(** ** More sample data *)

(** A configuration file that sets the API URL and nothing else, in a
    system where it is found and parsed. *)
Definition minimalFile : GlobalConfig :=
  mkConfig "http://directory/graphql" "" "" "" "" "" "" false 0.

Definition sampleSystem : System :=
  {| os_Getwd := Some "/srv";
     filepath_Join := String.concat "/";
     os_ReadFile := fun path =>
       if String.eqb path "/srv/instance/etc/config.yml" then Some "yaml" else None;
     yaml_Unmarshal := fun _ => Some minimalFile;
     time_ParseDuration := fun s => if String.eqb s "10s" then Some 10000000000%Z else None |}.

(** An instance that declares LOGIN credentials and two headers of its
    own. *)
Definition sampleInstance : InstanceType :=
  mkInstance "svc" "billing" "REST" "" "" "" "" "" []
    [mkHeader "x-tenant" "acme"; mkHeader "X-Tenant" "beta"]
    (Some loginCredentials) 0 0.

(** A directory that answers every request with one response. *)
Definition fixedDirectory (answer : DirectoryAnswer)
    (decoded : option GraphQLResponse) : Directory :=
  {| directoryNewRequest := fun _ => true;
     directoryDo := fun _ => answer;
     decodeGraphQLResponse := fun _ => decoded |}.

Definition foundInstance (instance : InstanceType) : option GraphQLResponse :=
  Some (mkGraphQLResponse
          (Some (mkInstanceData (Some (mkInstanceConnection
             [mkInstanceEdge (Some instance)]))))
          []).


(** A login answer whose token is at [data.token]. *)
Definition tokenResponse : string := jsonText "{'data':{'token':'abcdefghij'}}".

(** The middleware of service "svc" with the default configuration and a
    new cache. *)
Definition sampleInjector : TokenInjector :=
  mkInjector (mkPluginConfig "svc") defaultConfig NewTokenCache.

(** A configuration file with a negative refresh buffer, in a system where
    it is found and parsed. *)
Definition negativeBufferFile : GlobalConfig :=
  mkConfig "http://directory/graphql" "" "" "" "" "" "" true (-5).

Definition negativeBufferSystem : System :=
  {| os_Getwd := Some "/srv";
     filepath_Join := String.concat "/";
     os_ReadFile := fun path =>
       if String.eqb path "/srv/instance/etc/config.yml" then Some "yaml" else None;
     yaml_Unmarshal := fun _ => Some negativeBufferFile;
     time_ParseDuration := fun s => if String.eqb s "10s" then Some 10000000000%Z else None |}.
(** * Properties *)

(** ** The definitions at work *)

Example splitDots_examples :
  splitDots "" = [""] /\ splitDots "a.b" = ["a"; "b"] /\
  splitDots "a..b." = ["a"; ""; "b"; ""] /\ splitDots "." = [""; ""].
Proof. repeat split. Qed.

Example ReplaceAll_examples :
  ReplaceAll "/a/{id}/b/{id}{id" "{id}" "42" = "/a/42/b/42{id" /\
  ReplaceAll "aaaa" "aa" "b" = "bb".
Proof. split; reflexivity. Qed.

Example EncodeToString_examples :
  EncodeToString "Man" = "TWFu" /\ EncodeToString "Ma" = "TWE=" /\
  EncodeToString "M" = "TQ==" /\ EncodeToString "light work." = "bGlnaHQgd29yay4=".
Proof. repeat split. Qed.

Example BuildNestedObject_example :
  BuildNestedObject [mkPair "user.name" "john"; mkPair "user.pass" "secret"]
  = Ok {[ "user" := VObject (<["pass" := VString "secret"]> {[ "name" := VString "john" ]}) ]}.
Proof. by vm_compute. Qed.

Example json_examples :
  RefJSON.decode loginResponse
  = Some (VObject {[ "data" :=
            VObject {[ "login" := VObject {[ "token" := VString "abc" ]} ]} ]}) /\
  RefJSON.decode (jsonText "[1, -2.5e3, true, null, 'a\u00e9' ]")
  = Some (VArray [VNumber "1"; VNumber "-2.5e3"; VBool true; VNull;
                  VString (String "a" (String (ascii_of_N 195) (String (ascii_of_N 169) "")))]) /\
  RefJSON.decode (jsonText "{'data':{},}") = None /\
  RefJSON.decode "01" = None /\
  RefJSON.encode (VObject (<["b" := VString "x<y"]> {[ "a" := VArray [VNull; VBool true] ]}))
  = jsonText "{'a':[null,true],'b':'x\u003cy'}".
Proof. repeat split; by vm_compute. Qed.

Example BuildGraphQLRequest_example :
  BuildGraphQLRequest (Some (mkGqlOperation "op" "login" "mutation" "" ∅ ""))
    [mkPair "input.user" "john"]
  = Ok ("mutation login", {[ "input" := VObject {[ "user" := VString "john" ]} ]}).
Proof. by vm_compute. Qed.

(** A login that succeeds: the token comes from the response and is
    stored with its expiry and refresh times. *)
Example login_success :
  @GetAuthToken refJSON listOrder
    (fixedUpstream 200 (jsonText "{'data':{'token':'abc'}}"))
    (mkHandler staleCache defaultConfig) 60 61 "svc" (Some loginCredentials)
  = (Ok "abc", {[ "svc" := mkCached "abc" (Some 3661%Z) (Some 3651%Z) ]}).
Proof. by vm_compute. Qed.

(** A cached token that is not due for a refresh is returned as it is. *)
Example login_cache_hit :
  @GetAuthToken refJSON listOrder (fixedUpstream 500 "down")
    (mkHandler staleCache defaultConfig) 49 49 "svc" (Some loginCredentials)
  = (Ok "old", staleCache).
Proof. by vm_compute. Qed.

(** The ways a login fails; each leaves the cache as it was. *)
Example login_failure_modes :
  let h := mkHandler staleCache defaultConfig in
  let login (client : HTTPClient) credentials :=
    @GetAuthToken refJSON listOrder client h 60 61 "svc" (Some credentials) in
  let declared endpointType credentialData endpointData :=
    mkCredentials "LOGIN" endpointType credentialData None "data.token"
      (Some 3600%Z) "" endpointData in
  let rest := Some (mkConnection [mkEdge (mkNode (Some loginEndpoint) None)]) in
  login (fixedUpstream 200 "") (declared "REST" [] None)
  = (Err NoEndpointConfigured, staleCache) /\
  login (fixedUpstream 200 "") (declared "GRAPHQL" [] rest)
  = (Err InvalidEndpointConfiguration, staleCache) /\
  login (fixedUpstream 200 "")
    (declared "REST" [mkPair "a" "x"; mkPair "a.b" "y"] rest)
  = (Err (ObtainTokenFailed (BuildRESTFailed (BuildBodyFailed
       (SetNestedFailed "a.b" (PathConflict "a"))))), staleCache) /\
  login (fun _ => DoError) loginCredentials
  = (Err (ObtainTokenFailed ExecuteRequestFailed), staleCache) /\
  login (fixedUpstream 401 "denied") loginCredentials
  = (Err (ObtainTokenFailed (BadStatus 401 "denied")), staleCache) /\
  login (fixedUpstream 201 (jsonText "{'data':{}}")) loginCredentials
  = (Err (ObtainTokenFailed (ExtractTokenFailed (MissingSegment "token"))),
     staleCache).
Proof. repeat split; by vm_compute. Qed.

Example other_auth_types :
  let h := mkHandler staleCache defaultConfig in
  let declared authType apiKey :=
    Some (mkCredentials authType "" [] None "" None apiKey None) in
  @GetAuthToken refJSON listOrder (fixedUpstream 500 "") h 0 0 "svc"
    (declared "NONE" "") = (Ok "", staleCache) /\
  @GetAuthToken refJSON listOrder (fixedUpstream 500 "") h 0 0 "svc"
    (declared "APITOKEN" "k-1") = (Ok "k-1", staleCache) /\
  @GetAuthToken refJSON listOrder (fixedUpstream 500 "") h 0 0 "svc"
    (declared "APITOKEN" "") = (Err ApiKeyEmpty, staleCache) /\
  @GetAuthToken refJSON listOrder (fixedUpstream 500 "") h 0 0 "svc"
    (declared "OAUTH" "") = (Err (UnsupportedAuthType "OAUTH"), staleCache) /\
  @GetAuthToken refJSON listOrder (fixedUpstream 500 "") h 0 0 "svc" None
  = (Err CredentialsNil, staleCache).
Proof. repeat split. Qed.

(** ** 64-bit arithmetic *)

Lemma wrap64_small (z : Z) : int64 z -> wrap64 z = z.
Proof.
  unfold int64, wrap64. intros Hz.
  rewrite Z.mod_small by lia. lia.
Qed.

Lemma wrap64_range (z : Z) : int64 (wrap64 z).
Proof.
  unfold int64, wrap64.
  pose proof (Z.mod_pos_bound (z + 2 ^ 63) (2 ^ 64)) as Hb. lia.
Qed.

(** ** TokenCache *)

Section Cache.
Implicit Types (tokens : gmap string CachedToken) (id token : string).
Implicit Types (now ttl buffer : Z).

Lemma Get_after_Set tokens now now' id token (ottl : option Z) buffer buffer' :
  TokenCache_Get (TokenCache_Set tokens now id token ottl buffer) now' id buffer'
  = let cached := newCachedToken now token ottl buffer in
    if match ExpiresAt cached with Some e => (e <=? now')%Z | None => false end
    then ("", false, false)
    else if match RefreshAt cached with Some r => (r <=? now')%Z | None => false end
    then (token, true, true)
    else (token, false, true).
Proof.
  unfold TokenCache_Get, TokenCache_Set. rewrite lookup_insert_eq.
  assert (Token (newCachedToken now token ottl buffer) = token) as ->; [|done].
  unfold newCachedToken. destruct ottl as [ttl|]; [|done].
  destruct (0 <? ttl)%Z; [|done]. by case_match.
Qed.

Lemma newCachedToken_in_range now token ttl buffer :
  (0 < ttl)%Z -> int64 (now + ttl) -> int64 (now + ttl - buffer) ->
  newCachedToken now token (Some ttl) buffer
  = mkCached token (Some (now + ttl)%Z)
      (Some (if (now <? now + ttl - buffer)%Z then now + ttl - buffer else now)%Z).
Proof.
  intros Httl He Hr. unfold newCachedToken, add64, sub64.
  assert ((0 <? ttl) = true)%Z as -> by lia.
  rewrite (wrap64_small (now + ttl)) by done.
  rewrite (wrap64_small (now + ttl - buffer)) by done.
  by case_match.
Qed.
End Cache.

(** C3.  After [Set(id, "t1", ttl=20, buffer=10)] at the clock reading [t],
    a [Get] at [t] returns [("t1", false, true)], a [Get] at [t + 11]
    returns [("t1", true, true)], and a [Get] at [t + 21] reports that the
    entry does not exist; [t] and [t + 21] are readings of the 64-bit
    clock. *)
Theorem cache_ttl20_buffer10 (tokens : gmap string CachedToken) (id : string)
    (t buffer' : Z) :
  int64 t -> int64 (t + 21) ->
  let tokens' := TokenCache_Set tokens t id "t1" (Some 20%Z) 10 in
  TokenCache_Get tokens' t id buffer' = ("t1", false, true) /\
  TokenCache_Get tokens' (t + 11) id buffer' = ("t1", true, true) /\
  TokenCache_Get tokens' (t + 21) id buffer' = ("", false, false).
Proof.
  intros Ht Ht21 tokens'. unfold tokens'. unfold int64 in *.
  rewrite !Get_after_Set, newCachedToken_in_range by (unfold int64; lia).
  cbn [ExpiresAt RefreshAt].
  assert ((t <? t + 20 - 10) = true)%Z as -> by lia.
  repeat split.
  - assert ((t + 20 <=? t) = false)%Z as -> by lia.
    by assert ((t + 20 - 10 <=? t) = false)%Z as -> by lia.
  - assert ((t + 20 <=? t + 11) = false)%Z as -> by lia.
    by assert ((t + 20 - 10 <=? t + 11) = true)%Z as -> by lia.
  - by assert ((t + 20 <=? t + 21) = true)%Z as -> by lia.
Qed.

Lemma cache_ttl20_buffer10_witness :
  let tokens' := TokenCache_Set NewTokenCache 1700000000 "svc" "t1" (Some 20%Z) 10 in
  TokenCache_Get tokens' 1700000000 "svc" 10 = ("t1", false, true) /\
  TokenCache_Get tokens' (1700000000 + 11) "svc" 10 = ("t1", true, true) /\
  TokenCache_Get tokens' (1700000000 + 21) "svc" 10 = ("", false, false).
Proof.
  apply (cache_ttl20_buffer10 NewTokenCache "svc" 1700000000 10);
    unfold int64; lia.
Defined.

(** C8.  After [Set(id, "t2", ttl=nil, buffer=10)] the stored entry has
    neither an expiry nor a refresh timestamp, and a [Get] at any clock
    reading returns [("t2", false, true)]. *)
Theorem cache_without_ttl (tokens : gmap string CachedToken) (id : string)
    (t t' buffer' : Z) :
  let tokens' := TokenCache_Set tokens t id "t2" None 10 in
  tokens' !! id = Some (mkCached "t2" None None) /\
  TokenCache_Get tokens' t' id buffer' = ("t2", false, true).
Proof.
  split.
  - unfold TokenCache_Set. by rewrite lookup_insert_eq.
  - by rewrite Get_after_Set.
Qed.

(** C6, as the code has it.  When [Set] is called at the clock reading
    [now] with a positive [ttl] and a buffer [>= 0], and the 64-bit sums
    [now + ttl] and [now + ttl - buffer] do not wrap around, the entry has
    both timestamps, [RefreshAt <= ExpiresAt], and [RefreshAt = now] as
    soon as [ttl <= buffer]. *)
Theorem set_refresh_not_after_expiry (tokens : gmap string CachedToken)
    (id token : string) (now ttl buffer : Z) :
  (0 < ttl)%Z -> (0 <= buffer)%Z ->
  int64 (now + ttl) -> int64 (now + ttl - buffer) ->
  exists expiresAt refreshAt : Z,
    TokenCache_Set tokens now id token (Some ttl) buffer !! id
      = Some (mkCached token (Some expiresAt) (Some refreshAt)) /\
    expiresAt = (now + ttl)%Z /\
    (refreshAt <= expiresAt)%Z /\
    (now <= refreshAt)%Z /\
    ((ttl <= buffer)%Z -> refreshAt = now).
Proof.
  intros Httl Hbuf He Hr. unfold TokenCache_Set.
  rewrite lookup_insert_eq, newCachedToken_in_range by done.
  eexists _, _. split; [done|]. split; [done|].
  destruct (Z.ltb_spec now (now + ttl - buffer)); repeat split; lia.
Qed.

Lemma set_refresh_not_after_expiry_witness :
  exists expiresAt refreshAt : Z,
    TokenCache_Set NewTokenCache 1700000000 "svc" "tok" (Some 5%Z) 10 !! "svc"
      = Some (mkCached "tok" (Some expiresAt) (Some refreshAt)) /\
    expiresAt = (1700000000 + 5)%Z /\
    (refreshAt <= expiresAt)%Z /\
    (1700000000 <= refreshAt)%Z /\
    ((5 <= 10)%Z -> refreshAt = 1700000000%Z).
Proof.
  apply (set_refresh_not_after_expiry NewTokenCache "svc" "tok" 1700000000 5 10);
    unfold int64; lia.
Defined.

(** C6 as stated fails: with [ttl = 2^63 - 1] the sum [now + ttl] wraps
    around, [ExpiresAt] is negative and [RefreshAt], set to [now], is
    after it. *)
Lemma set_refresh_after_expiry_on_overflow :
  let ttl := (2 ^ 63 - 1)%Z in
  (0 < ttl)%Z /\ (0 <= 10)%Z /\ int64 ttl /\
  TokenCache_Set NewTokenCache 1700000000 "svc" "tok" (Some ttl) 10 !! "svc"
    = Some (mkCached "tok" (Some (-9223372035154775809)%Z) (Some 1700000000%Z)) /\
  ~ (1700000000 <= -9223372035154775809)%Z.
Proof.
  split; [lia|]. split; [lia|]. split; [unfold int64; lia|].
  split; [|lia]. vm_compute. reflexivity.
Qed.

(** ** handleBasicAuth *)

Section Basic.
Implicit Types (cd pre post : list CredentialsPairType) (u p : string).

Lemma scanBasic_app pre post u p :
  scanBasic (pre ++ post)%list u p
  = scanBasic post (scanBasic pre u p).1 (scanBasic pre u p).2.
Proof.
  revert u p. induction pre as [|q pre IH]; intros u p; [done|].
  cbn [app scanBasic]. apply IH.
Qed.

Lemma user_key_test (k : string) :
  String.eqb k "username" || String.eqb k "user" = true
  <-> k ∈ ["username"; "user"].
Proof.
  rewrite orb_true_iff, !String.eqb_eq, !elem_of_cons, elem_of_nil. tauto.
Qed.

Lemma pass_key_test (k : string) :
  String.eqb k "password" || String.eqb k "pass" = true
  <-> k ∈ ["password"; "pass"].
Proof.
  rewrite orb_true_iff, !String.eqb_eq, !elem_of_cons, elem_of_nil. tauto.
Qed.

Lemma scanBasic_noMatch_user cd u p :
  noMatch ["username"; "user"] cd -> (scanBasic cd u p).1 = u.
Proof.
  unfold noMatch. intros Hno. revert u p.
  induction Hno as [|q cd Hq _ IH]; intros u p; [done|].
  cbn [scanBasic]. rewrite IH.
  destruct (String.eqb (pairKey q) "username" || String.eqb (pairKey q) "user")
    eqn:E; [|done].
  by apply user_key_test in E.
Qed.

Lemma scanBasic_noMatch_pass cd u p :
  noMatch ["password"; "pass"] cd -> (scanBasic cd u p).2 = p.
Proof.
  unfold noMatch. intros Hno. revert u p.
  induction Hno as [|q cd Hq _ IH]; intros u p; [done|].
  cbn [scanBasic]. rewrite IH.
  destruct (String.eqb (pairKey q) "password" || String.eqb (pairKey q) "pass")
    eqn:E; [|done].
  by apply pass_key_test in E.
Qed.

Lemma scanBasic_lastMatch_user cd u p v :
  lastMatch ["username"; "user"] cd v -> (scanBasic cd u p).1 = v.
Proof.
  intros (pre & q & post & -> & Hq & <- & Hpost).
  rewrite scanBasic_app. cbn [scanBasic].
  rewrite scanBasic_noMatch_user by done.
  apply user_key_test in Hq. by rewrite Hq.
Qed.

Lemma scanBasic_lastMatch_pass cd u p v :
  lastMatch ["password"; "pass"] cd v -> (scanBasic cd u p).2 = v.
Proof.
  intros (pre & q & post & -> & Hq & <- & Hpost).
  rewrite scanBasic_app. cbn [scanBasic].
  rewrite scanBasic_noMatch_pass by done.
  apply pass_key_test in Hq. by rewrite Hq.
Qed.

Lemma handleBasicAuth_unfold (credentials : CredentialsType) :
  handleBasicAuth credentials
  = let s := scanBasic (credCredentialData credentials) "" "" in
    if String.eqb s.1 "" || String.eqb s.2 "" then Err BasicCredentialsNotFound
    else Ok ("Basic " ++ EncodeToString (s.1 ++ ":" ++ s.2)).
Proof. unfold handleBasicAuth. by destruct (scanBasic _ _ _). Qed.
End Basic.

(** C5, as the code has it.  For authType BASIC, [GetAuthToken] leaves the
    cache alone and takes the LAST pair whose key is "username" or "user"
    and the LAST pair whose key is "password" or "pass".  When both values
    are non-empty it returns "Basic " followed by the base64 of
    [username:password]; when a bucket has no pair, or the value taken is
    empty, it fails.  The pairs [("username","u"), ("password","p")] yield
    "Basic " followed by base64("u:p"), which is "dTpw". *)
Theorem basic_auth_takes_last_match `{JSON} `{MapRange} `{HTTPClient}
    (h : AuthHandler) (nowGet nowSet : Z) (serviceId : string)
    (credentials : CredentialsType) :
  credAuthType credentials = "BASIC" ->
  let cd := credCredentialData credentials in
  let out := GetAuthToken h nowGet nowSet serviceId (Some credentials) in
  out.2 = handlerCache h /\
  (forall u p,
     lastMatch ["username"; "user"] cd u -> lastMatch ["password"; "pass"] cd p ->
     u <> "" -> p <> "" ->
     out.1 = Ok ("Basic " ++ EncodeToString (u ++ ":" ++ p))) /\
  (noMatch ["username"; "user"] cd \/ noMatch ["password"; "pass"] cd ->
   out.1 = Err BasicCredentialsNotFound) /\
  (lastMatch ["username"; "user"] cd "" \/ lastMatch ["password"; "pass"] cd "" ->
   out.1 = Err BasicCredentialsNotFound) /\
  (cd = [mkPair "username" "u"; mkPair "password" "p"] ->
   out.1 = Ok ("Basic " ++ EncodeToString "u:p")) /\
  EncodeToString "u:p" = "dTpw".
Proof.
  intros Hbasic cd out.
  assert (out = (handleBasicAuth credentials, handlerCache h)) as ->.
  { unfold out, GetAuthToken. by rewrite Hbasic. }
  cbn [fst snd]. rewrite handleBasicAuth_unfold. fold cd. cbn zeta.
  split; [done|]. split; [|split; [|split; [|split]]].
  - intros u p Hu Hp Hune Hpne.
    rewrite (scanBasic_lastMatch_user _ _ _ _ Hu), (scanBasic_lastMatch_pass _ _ _ _ Hp).
    apply String.eqb_neq in Hune, Hpne. by rewrite Hune, Hpne.
  - intros [Hno|Hno].
    + by rewrite (scanBasic_noMatch_user _ _ _ Hno).
    + rewrite (scanBasic_noMatch_pass _ _ _ Hno). by rewrite orb_true_r.
  - intros [Hl|Hl].
    + by rewrite (scanBasic_lastMatch_user _ _ _ _ Hl).
    + rewrite (scanBasic_lastMatch_pass _ _ _ _ Hl). by rewrite orb_true_r.
  - by intros ->.
  - reflexivity.
Qed.

Lemma basic_auth_takes_last_match_witness :
  let h := mkHandler NewTokenCache defaultConfig in
  let cd := [mkPair "username" "u"; mkPair "password" "p"] in
  (@GetAuthToken refJSON listOrder (fixedUpstream 200 "") h 0 0 "svc"
     (Some (basicCredentials cd))).1
  = Ok ("Basic " ++ EncodeToString "u:p").
Proof.
  intros h cd.
  apply (@basic_auth_takes_last_match refJSON listOrder (fixedUpstream 200 "")
           h 0%Z 0%Z "svc" (basicCredentials cd) eq_refl).
  reflexivity.
Defined.

(** C5 as stated fails: a later "user" pair replaces the value an earlier
    "username" pair gave, and a pair that is present with an empty value
    makes the call fail. *)
Lemma basic_auth_first_match_refuted :
  let h := mkHandler NewTokenCache defaultConfig in
  (@GetAuthToken refJSON listOrder (fixedUpstream 200 "") h 0 0 "svc"
     (Some (basicCredentials
        [mkPair "username" "a"; mkPair "user" "b"; mkPair "password" "p"]))).1
  = Ok ("Basic " ++ EncodeToString "b:p") /\
  EncodeToString "b:p" <> EncodeToString "a:p" /\
  (@GetAuthToken refJSON listOrder (fixedUpstream 200 "") h 0 0 "svc"
     (Some (basicCredentials [mkPair "username" ""; mkPair "password" "p"]))).1
  = Err BasicCredentialsNotFound.
Proof. repeat split. by vm_compute. Qed.

(** ** strings.Split *)

Lemma splitByte_nonempty (sep : ascii) (s : string) : splitByte sep s <> [].
Proof.
  destruct s as [|c s]; cbn [splitByte]; [done|].
  destruct (Ascii.eqb c sep); [done|]. by destruct (splitByte sep s).
Qed.

Lemma splitDots_nonempty (s : string) : splitDots s <> [].
Proof. apply splitByte_nonempty. Qed.

Lemma splitDots_cons (s : string) :
  exists key rest, splitDots s = key :: rest /\ key = topLevel s.
Proof.
  unfold topLevel. destruct (splitDots s) as [|key rest] eqn:E.
  - by apply splitDots_nonempty in E.
  - by exists key, rest.
Qed.

(** ** setNestedValue *)

Section Nested.
Implicit Types (m : gmap string value) (parts path : list string).
Implicit Types (key v : string).

(** The guard on [len(parts)] never fires. *)
Lemma setNestedValue_setAlong m (dotted : string) v :
  setNestedValue m dotted v = setAlong m (splitDots dotted) v.
Proof.
  unfold setNestedValue. cbn zeta.
  pose proof (splitDots_nonempty dotted). by destruct (splitDots dotted).
Qed.

Lemma setAlong_final m key v :
  setAlong m [key] v = Ok (<[key := VString v]> m).
Proof. done. Qed.

Lemma setAlong_step m key key' parts v :
  setAlong m (key :: key' :: parts) v
  = match m !! key with
    | Some (VObject existingMap) =>
        match setAlong existingMap (key' :: parts) v with
        | Ok m' => Ok (<[key := VObject m']> m)
        | Err e => Err e
        end
    | Some _ => Err (PathConflict key)
    | None =>
        match setAlong ∅ (key' :: parts) v with
        | Ok m' => Ok (<[key := VObject m']> m)
        | Err e => Err e
        end
    end.
Proof. done. Qed.

Lemma leafAt_empty path : ~ leafAt ∅ path.
Proof.
  destruct path as [|key rest]; cbn [leafAt]; [tauto|].
  rewrite lookup_empty. tauto.
Qed.

Lemma properPrefix_nil_l parts : properPrefix [] parts <-> parts <> [].
Proof.
  unfold properPrefix. split; [intros [_ ?]; congruence|].
  intros ?. split; [apply prefix_nil|congruence].
Qed.

Lemma properPrefix_cons key key' path parts :
  properPrefix (key :: path) (key' :: parts)
  <-> key = key' /\ properPrefix path parts.
Proof.
  unfold properPrefix. split.
  - intros [[k Hk] Hne]. simplify_eq/=. split; [done|].
    split; [by exists k|congruence].
  - intros [-> [Hp Hne]]. split; [by apply prefix_cons|congruence].
Qed.

Lemma properPrefix_nil_r path : ~ properPrefix path [].
Proof. intros [Hp Hne]. apply prefix_nil_inv in Hp. congruence. Qed.

(** The walk succeeds unless a shorter path already ends at a value
    that is not an object. *)
Lemma setAlong_ok_iff m parts v :
  parts <> [] ->
  is_ok (setAlong m parts v) = true
  <-> forall path, properPrefix path parts -> ~ leafAt m path.
Proof.
  revert m. induction parts as [|key parts IH]; intros m Hne; [done|].
  destruct parts as [|key' parts].
  - rewrite setAlong_final. split; [|done]. intros _ path Hp.
    destruct path as [|k path]; [intros []|].
    apply properPrefix_cons in Hp as [_ Hp]. by apply properPrefix_nil_r in Hp.
  - rewrite setAlong_step.
    assert (forall sub,
      (forall path, properPrefix path (key :: key' :: parts) ->
                    ~ leafAt (<[key := VObject sub]> m) path)
      <-> (forall path, properPrefix path (key' :: parts) -> ~ leafAt sub path))
      as Hsub.
    { intros sub. split.
      - intros Hall path Hp Hleaf. apply (Hall (key :: path)).
        + by apply properPrefix_cons.
        + cbn. by rewrite lookup_insert_eq.
      - intros Hall [|k path] Hp; [intros []|].
        apply properPrefix_cons in Hp as [-> Hp]. cbn.
        rewrite lookup_insert_eq. by apply Hall. }
    destruct (m !! key) as [[| | | | |existingMap]|] eqn:Hkey.
    1-5: split; [done|]; intros Hall; exfalso; apply (Hall [key]);
         [apply properPrefix_cons; split; [done|by apply properPrefix_nil_l]
         |by cbn; rewrite Hkey].
    + pose proof (Hsub existingMap) as Hs.
      rewrite (insert_id m key (VObject existingMap)) in Hs by done.
      rewrite Hs, <- IH by done.
      by destruct (setAlong existingMap (key' :: parts) v).
    + assert (is_ok (setAlong ∅ (key' :: parts) v) = true) as Hok.
      { apply IH; [done|]. intros path _. apply leafAt_empty. }
      destruct (setAlong ∅ (key' :: parts) v); [|done].
      split; [|done]. intros _ [|k path] Hp; [intros []|].
      apply properPrefix_cons in Hp as [-> Hp]. cbn [leafAt].
      rewrite Hkey. tauto.
Qed.

(** Only a path conflict makes the walk fail. *)
Lemma setAlong_err m parts v e :
  parts <> [] -> setAlong m parts v = Err e ->
  exists key, e = PathConflict key /\ key ∈ parts.
Proof.
  revert m. induction parts as [|key parts IH]; intros m Hne; [done|].
  destruct parts as [|key' parts]; [done|].
  rewrite setAlong_step. intros Herr.
  assert (forall sub, setAlong sub (key' :: parts) v = Err e ->
                      exists k, e = PathConflict k /\ k ∈ key :: key' :: parts)
    as Hsub.
  { intros sub Hs. destruct (IH sub ltac:(done) Hs) as (k & -> & Hin).
    exists k. split; [done|]. apply elem_of_cons. by right. }
  destruct (m !! key) as [[| | | | |existingMap]|] eqn:Hkey.
  1-5: simplify_eq; exists key; split; [done|apply elem_of_cons; by left].
  - destruct (setAlong existingMap (key' :: parts) v) eqn:Hs; [done|].
    simplify_eq. by eapply Hsub.
  - destruct (setAlong ∅ (key' :: parts) v) eqn:Hs; [done|].
    simplify_eq. by eapply Hsub.
Qed.

(** A successful walk changes the binding of its first segment only. *)
Lemma setAlong_lookup_ne m m' key parts v k :
  setAlong m (key :: parts) v = Ok m' -> k <> key -> m' !! k = m !! k.
Proof.
  destruct parts as [|key' parts].
  - rewrite setAlong_final. intros [= <-] ?. by rewrite lookup_insert_ne.
  - rewrite setAlong_step. intros Hok ?.
    repeat case_match; simplify_eq; by rewrite lookup_insert_ne.
Qed.

(** The value assigned is found at the path. *)
Lemma navigate_setAlong m m' parts v i :
  setAlong m parts v = Ok m' -> navigate (VObject m') parts i = Ok (VString v).
Proof.
  revert m m' i. induction parts as [|key parts IH]; intros m m' i; [done|].
  destruct parts as [|key' parts].
  - rewrite setAlong_final. intros [= <-]. cbn. by rewrite lookup_insert_eq.
  - rewrite setAlong_step. intros Hok. cbn [navigate].
    destruct (m !! key) as [[| | | | |existingMap]|]; try done.
    + destruct (setAlong existingMap (key' :: parts) v) as [sub|] eqn:Hs; [|done].
      simplify_eq. rewrite lookup_insert_eq. by eapply IH.
    + destruct (setAlong ∅ (key' :: parts) v) as [sub|] eqn:Hs; [|done].
      simplify_eq. rewrite lookup_insert_eq. by eapply IH.
Qed.

(** The leaves after a successful walk: the new one, and the old ones
    that are not at or below it. *)
Lemma leafAt_setAlong m m' parts v path :
  setAlong m parts v = Ok m' ->
  leafAt m' path <-> path = parts \/ (leafAt m path /\ ~ parts `prefix_of` path).
Proof.
  revert m m' path. induction parts as [|key parts IH]; intros m m' path; [done|].
  assert (forall k rest, k <> key ->
    ~ (key :: parts) `prefix_of` (k :: rest)) as Hhead.
  { intros k rest Hk [? ?]. by simplify_eq/=. }
  destruct parts as [|key' parts].
  - rewrite setAlong_final. intros [= <-].
    destruct path as [|k rest];
    [cbn [leafAt]; split; [intros []|intros [?|[[] _]]; done]|].
    cbn [leafAt]. destruct (decide (k = key)) as [->|Hk].
    + rewrite lookup_insert_eq. split; [intros ->; by left|].
      intros [[= ->]|[_ Hnp]]; [done|].
      exfalso. apply Hnp. by exists rest.
    + rewrite lookup_insert_ne by done. specialize (Hhead k rest Hk).
      split; [intros ?; right; by split|].
      intros [[= -> ]|[? _]]; done.
  - rewrite setAlong_step. intros Hok.
    assert (exists sub sub', setAlong sub (key' :: parts) v = Ok sub' /\
              m' = <[key := VObject sub']> m /\
              (forall rest, leafAt m (key :: rest) <-> leafAt sub rest))
      as (sub & sub' & Hs & -> & Hold).
    { destruct (m !! key) as [[| | | | |existingMap]|] eqn:Hkey; try done.
      - destruct (setAlong existingMap (key' :: parts) v) as [sub'|] eqn:Hs; [|done].
        simplify_eq. exists existingMap, sub'. repeat split; try done.
        all: cbn; by rewrite Hkey.
      - destruct (setAlong ∅ (key' :: parts) v) as [sub'|] eqn:Hs; [|done].
        simplify_eq. exists ∅, sub'. repeat split; try done.
        + cbn. by rewrite Hkey.
        + intros Hl. by apply leafAt_empty in Hl. }
    destruct path as [|k rest];
    [cbn [leafAt]; split; [intros []|intros [?|[[] _]]; done]|].
    destruct (decide (k = key)) as [->|Hk].
    + cbn [leafAt]. rewrite lookup_insert_eq. fold (leafAt sub' rest).
      rewrite (IH _ _ _ Hs), <- Hold.
      assert ((key :: key' :: parts) `prefix_of` (key :: rest)
              <-> (key' :: parts) `prefix_of` rest) as ->.
      { split; [apply prefix_cons_inv_2|apply prefix_cons]. }
      split; (intros [Heq|?]; [left; congruence|by right]).
    + specialize (Hhead k rest Hk). cbn [leafAt].
      rewrite lookup_insert_ne by done.
      split; [intros ?; right; by split|].
      intros [[= ? _]|[? _]]; done.
Qed.
End Nested.

(** ** BuildNestedObject *)

Section Build.
Implicit Types (acc obj : gmap string value).
Implicit Types (cd seen : list CredentialsPairType) (p q : CredentialsPairType).

Lemma buildInto_step acc q cd :
  buildInto acc (q :: cd)
  = match setAlong acc (splitDots (pairKey q)) (pairValue q) with
    | Err e => Err (SetNestedFailed (pairKey q) e)
    | Ok acc' => buildInto acc' cd
    end.
Proof. cbn [buildInto]. by rewrite setNestedValue_setAlong. Qed.

Lemma tracks_empty : tracks ∅ [].
Proof.
  split.
  - intros path Hl. by apply leafAt_empty in Hl.
  - intros p Hp. by apply elem_of_nil in Hp.
Qed.

Lemma tracks_step acc acc' seen q :
  tracks acc seen ->
  setAlong acc (splitDots (pairKey q)) (pairValue q) = Ok acc' ->
  tracks acc' (q :: seen).
Proof.
  intros [Hfrom Hstill] Hset. split.
  - intros path Hl. apply (leafAt_setAlong _ _ _ _ _ Hset) in Hl as [->|[Hl _]].
    + exists q. split; [apply elem_of_cons; by left|done].
    + destruct (Hfrom path Hl) as (p & Hp & Hpath).
      exists p. split; [apply elem_of_cons; by right|done].
  - intros p [->|Hp]%elem_of_cons.
    + exists (splitDots (pairKey q)). split; [done|].
      apply (leafAt_setAlong _ _ _ _ _ Hset). by left.
    + destruct (Hstill p Hp) as (path & Hpre & Hl).
      destruct (decide (splitDots (pairKey q) `prefix_of` path)) as [Hq|Hq].
      * exists (splitDots (pairKey q)). split; [by etrans|].
        apply (leafAt_setAlong _ _ _ _ _ Hset). by left.
      * exists path. split; [done|].
        apply (leafAt_setAlong _ _ _ _ _ Hset). right. by split.
Qed.

(** Whether the pair [q] can be set, by the pairs seen before it. *)
Lemma tracks_blocks acc seen q :
  tracks acc seen ->
  is_ok (setAlong acc (splitDots (pairKey q)) (pairValue q)) = false
  <-> exists p, p ∈ seen /\
        properPrefix (splitDots (pairKey p)) (splitDots (pairKey q)).
Proof.
  intros [Hfrom Hstill].
  pose proof (setAlong_ok_iff acc _ (pairValue q) (splitDots_nonempty (pairKey q)))
    as Hok.
  split.
  - intros Hfail.
    destruct (decide (Exists (fun p =>
        properPrefix (splitDots (pairKey p)) (splitDots (pairKey q))) seen))
      as [Hsome|Hnone]; [by apply Exists_exists in Hsome|].
    exfalso. apply not_true_iff_false in Hfail. apply Hfail, Hok.
    intros path Hpre Hl. destruct (Hfrom path Hl) as (p & Hp & <-).
    apply Hnone, Exists_exists. by exists p.
  - intros (p & Hp & Hpre & Hne). apply not_true_iff_false. intros Hyes.
    destruct (Hstill p Hp) as (path & Hpath & Hl).
    apply (proj1 Hok Hyes path); [|done]. split; [by etrans|].
    intros ->. apply Hne. by apply (anti_symm prefix).
Qed.

Lemma buildInto_err_iff acc seen cd :
  tracks acc seen ->
  is_err (buildInto acc cd) = true
  <-> exists (j : nat) p q,
        cd !! j = Some q /\
        (p ∈ seen \/ exists i, i < j /\ cd !! i = Some p) /\
        properPrefix (splitDots (pairKey p)) (splitDots (pairKey q)).
Proof.
  revert acc seen. induction cd as [|q0 cd IH]; intros acc seen Htr.
  - split; [done|]. by intros (j & p & q & Hj & _).
  - rewrite buildInto_step.
    pose proof (tracks_blocks acc seen q0 Htr) as Hblock.
    destruct (setAlong acc (splitDots (pairKey q0)) (pairValue q0))
      as [acc'|e] eqn:Hset.
    + rewrite (IH acc' (q0 :: seen)) by by eapply tracks_step.
      split.
      * intros (j & p & q & Hj & Hp & Hpre).
        exists (S j), p, q. split; [done|]. split; [|done].
        destruct Hp as [[->|Hp]%elem_of_cons|(i & Hi & Hpi)].
        -- right. exists 0. split; [lia|done].
        -- by left.
        -- right. exists (S i). split; [lia|done].
      * intros (j & p & q & Hj & Hp & Hpre).
        destruct j as [|j].
        -- exfalso. cbn in Hj. simplify_eq.
           assert (false = true) as Habs; [|done].
           cbn [is_ok] in Hblock. rewrite <- (proj2 Hblock); [done|].
           exists p. split; [|done].
           destruct Hp as [Hp|(i & Hi & _)]; [done|lia].
        -- exists j, p, q. split; [done|]. split; [|done].
           destruct Hp as [Hp|(i & Hi & Hpi)].
           ++ left. apply elem_of_cons. by right.
           ++ destruct i as [|i].
              ** cbn in Hpi. simplify_eq. left. apply elem_of_cons. by left.
              ** right. exists i. split; [lia|done].
    + split; [intros _|done].
      destruct (proj1 Hblock eq_refl) as (p & Hp & Hpre).
      exists 0, p, q0. split; [done|]. split; [by left|done].
Qed.

Lemma buildInto_err acc cd e :
  buildInto acc cd = Err e ->
  exists q segment,
    q ∈ cd /\ e = SetNestedFailed (pairKey q) (PathConflict segment) /\
    segment ∈ splitDots (pairKey q).
Proof.
  revert acc. induction cd as [|q0 cd IH]; intros acc; [done|].
  rewrite buildInto_step.
  destruct (setAlong acc (splitDots (pairKey q0)) (pairValue q0))
    as [acc'|e'] eqn:Hset.
  - intros (q & segment & Hq & He)%IH. exists q, segment.
    split; [apply elem_of_cons; by right|done].
  - intros [= <-].
    destruct (setAlong_err _ _ _ _ (splitDots_nonempty _) Hset)
      as (segment & -> & Hin).
    exists q0, segment. split; [apply elem_of_cons; by left|done].
Qed.

Lemma buildInto_app acc cd1 cd2 :
  buildInto acc (cd1 ++ cd2)
  = match buildInto acc cd1 with
    | Ok acc' => buildInto acc' cd2
    | Err e => Err e
    end.
Proof.
  revert acc. induction cd1 as [|q cd1 IH]; intros acc; [done|].
  cbn [app]. rewrite !buildInto_step.
  by destruct (setAlong acc (splitDots (pairKey q)) (pairValue q)).
Qed.
End Build.

(** C1, as the code has it.  [BuildNestedObject] fails exactly when the
    dot-separated segments of the key of some pair properly extend the
    segments of the key of an EARLIER pair of the list, as when "a" -> "x"
    is followed by "a.b" -> "y"; the error is then a path conflict on a
    segment of the key of a pair.  A final segment is assigned without any
    check: whenever the list with [q] at its end is built, the value of
    [q] is what its path holds. *)
Theorem build_conflict_iff_extends_earlier (cd : list CredentialsPairType) :
  (is_err (BuildNestedObject cd) = true <-> extendsEarlier cd) /\
  (forall e, BuildNestedObject cd = Err e ->
     exists q segment,
       q ∈ cd /\ e = SetNestedFailed (pairKey q) (PathConflict segment) /\
       segment ∈ splitDots (pairKey q)) /\
  (forall q obj,
     BuildNestedObject (cd ++ [q]) = Ok obj ->
     navigate (VObject obj) (splitDots (pairKey q)) 0 = Ok (VString (pairValue q))) /\
  BuildNestedObject [mkPair "a" "x"; mkPair "a.b" "y"]
  = Err (SetNestedFailed "a.b" (PathConflict "a")).
Proof.
  unfold BuildNestedObject. split; [|split; [|split]].
  - rewrite (buildInto_err_iff ∅ [] cd tracks_empty). unfold extendsEarlier. split.
    + intros (j & p & q & Hj & [Hp|(i & Hi & Hpi)] & Hpre).
      * by apply elem_of_nil in Hp.
      * by exists i, j, p, q.
    + intros (i & j & p & q & Hi & Hpi & Hj & Hpre).
      exists j, p, q. split; [done|]. split; [|done]. right. by exists i.
  - intros e. apply buildInto_err.
  - intros q obj. rewrite buildInto_app.
    destruct (buildInto ∅ cd) as [acc|]; [|done].
    rewrite buildInto_step.
    destruct (setAlong acc (splitDots (pairKey q)) (pairValue q)) as [acc'|] eqn:Hset;
      [|done].
    cbn [buildInto]. intros [= <-]. by eapply navigate_setAlong.
  - by vm_compute.
Qed.

(** C1 as stated fails: with the two pairs in the other order the later
    pair replaces the object bound to "a" by a string without an error,
    and a repeated key replaces the earlier value. *)
Lemma build_overwrites_silently :
  BuildNestedObject [mkPair "a.b" "y"; mkPair "a" "x"] = Ok {[ "a" := VString "x" ]} /\
  BuildNestedObject [mkPair "a" "x"; mkPair "a" "z"] = Ok {[ "a" := VString "z" ]}.
Proof. split; by vm_compute. Qed.

(** C9: the code binds the empty key.  [strings.Split] never returns an
    empty slice, so the "empty path" guard of [setNestedValue] is dead. *)
Theorem empty_key_is_bound :
  (forall v, BuildNestedObject [mkPair "" v] = Ok {[ "" := VString v ]}) /\
  (forall obj path v, setNestedValue obj path v <> Err EmptyPath).
Proof.
  split; [done|].
  intros obj path v. rewrite setNestedValue_setAlong. intros Herr.
  by destruct (setAlong_err _ _ _ _ (splitDots_nonempty path) Herr) as (? & ? & _).
Qed.

Section RoundTrip.
Implicit Types (acc obj : gmap string value).
Implicit Types (cd : list CredentialsPairType) (p q : CredentialsPairType).

(** A first segment that is not bound yet never conflicts. *)
Lemma setAlong_fresh acc key (parts : list string) (v : string) :
  acc !! key = None -> exists acc', setAlong acc (key :: parts) v = Ok acc'.
Proof.
  intros Hfree.
  assert (is_ok (setAlong acc (key :: parts) v) = true) as Hok.
  { apply setAlong_ok_iff; [done|]. intros [|k path] Hp; [intros []|].
    apply properPrefix_cons in Hp as [-> _]. cbn [leafAt]. rewrite Hfree. tauto. }
  destruct (setAlong acc (key :: parts) v) as [acc'|]; [|done]. by exists acc'.
Qed.

Lemma navigate_first_segment obj obj' key (parts : list string) (i : nat) :
  obj !! key = obj' !! key ->
  navigate (VObject obj) (key :: parts) i = navigate (VObject obj') (key :: parts) i.
Proof. intros Heq. cbn [navigate]. by rewrite Heq. Qed.

Lemma buildInto_disjoint acc cd :
  NoDup (map (fun p => topLevel (pairKey p)) cd) ->
  (forall p, p ∈ cd -> acc !! topLevel (pairKey p) = None) ->
  exists obj,
    buildInto acc cd = Ok obj /\
    (forall p, p ∈ cd ->
       navigate (VObject obj) (splitDots (pairKey p)) 0 = Ok (VString (pairValue p))) /\
    (forall key, key ∉ map (fun p => topLevel (pairKey p)) cd ->
       obj !! key = acc !! key).
Proof.
  revert acc. induction cd as [|q cd IH]; intros acc Hnodup Hfree.
  - exists acc. split; [done|]. split; [|done].
    intros p Hp. by apply elem_of_nil in Hp.
  - cbn [map] in Hnodup. apply NoDup_cons in Hnodup as [Hq Hnodup].
    rewrite buildInto_step.
    destruct (splitDots_cons (pairKey q)) as (key & parts & Hsplit & Hkey).
    rewrite Hsplit.
    destruct (setAlong_fresh acc key parts (pairValue q)) as [acc' Hset].
    { rewrite Hkey. apply Hfree, elem_of_cons. by left. }
    rewrite Hset.
    assert (forall k, k <> key -> acc' !! k = acc !! k) as Hother.
    { intros k Hk. by eapply setAlong_lookup_ne. }
    destruct (IH acc' Hnodup) as (obj & Hbuild & Hfind & Hframe).
    { intros p Hp. rewrite Hother.
      - apply Hfree, elem_of_cons. by right.
      - intros Heq. apply Hq. rewrite <- Hkey, <- Heq.
        apply (list_elem_of_fmap_2 (fun p => topLevel (pairKey p))). done. }
    exists obj. split; [done|]. split.
    + intros p [->|Hp]%elem_of_cons; [|by apply Hfind].
      rewrite Hsplit.
      rewrite (navigate_first_segment obj acc').
      * by eapply navigate_setAlong.
      * apply Hframe. by rewrite Hkey.
    + intros k Hk. cbn [map] in Hk. apply not_elem_of_cons in Hk as [Hk1 Hk2].
      rewrite Hframe by done. apply Hother. by rewrite Hkey.
Qed.
End RoundTrip.

(** C4.  When the first segments of the keys of the pairs are pairwise
    distinct, [BuildNestedObject] succeeds, and walking the object along
    the dotted key of each pair gives the string value of that pair. *)
Theorem build_round_trip (cd : list CredentialsPairType) :
  NoDup (map (fun p => topLevel (pairKey p)) cd) ->
  exists obj,
    BuildNestedObject cd = Ok obj /\
    forall p, p ∈ cd ->
      navigate (VObject obj) (splitDots (pairKey p)) 0 = Ok (VString (pairValue p)).
Proof.
  intros Hnodup.
  destruct (buildInto_disjoint ∅ cd Hnodup) as (obj & Hbuild & Hfind & _).
  - intros p _. apply lookup_empty.
  - by exists obj.
Qed.

Lemma build_round_trip_witness :
  exists obj,
    BuildNestedObject
      [mkPair "user.name" "john"; mkPair "auth.login.pass" "secret"; mkPair "realm" ""]
    = Ok obj /\
    forall p,
      p ∈ [mkPair "user.name" "john"; mkPair "auth.login.pass" "secret"; mkPair "realm" ""] ->
      navigate (VObject obj) (splitDots (pairKey p)) 0 = Ok (VString (pairValue p)).
Proof.
  apply (build_round_trip
    [mkPair "user.name" "john"; mkPair "auth.login.pass" "secret"; mkPair "realm" ""]).
  apply (bool_decide_unpack _). by vm_compute.
Defined.

(** ** ExtractTokenFromResponse *)

Section Navigate.
Implicit Types (v w data : value) (path pre post : list string) (part : string).

Lemma reaches_app v pre post w w' :
  reaches v pre w -> reaches w post w' -> reaches v (pre ++ post) w'.
Proof.
  induction 1 as [v|fields part rest next w Hpart _ IH]; intros Hpost; [done|].
  cbn [app]. eapply reaches_hop; [done|]. by apply IH.
Qed.

Lemma reaches_cons_inv v part rest w :
  reaches v (part :: rest) w ->
  exists fields next, v = VObject fields /\ fields !! part = Some next /\
                      reaches next rest w.
Proof. inversion 1; subst. by eexists _, _. Qed.

Lemma reaches_nil_inv v w : reaches v [] w -> v = w.
Proof. by inversion 1. Qed.

Lemma reaches_functional v path w w' :
  reaches v path w -> reaches v path w' -> w = w'.
Proof.
  induction 1 as [v|fields part rest next w Hpart _ IH]; intros Hw'.
  - by apply reaches_nil_inv in Hw'.
  - apply reaches_cons_inv in Hw' as (? & ? & ? & ? & ?). simplify_eq. by apply IH.
Qed.

Lemma navigate_ok v path i w : navigate v path i = Ok w <-> reaches v path w.
Proof.
  revert v i. induction path as [|part rest IH]; intros v i.
  - cbn [navigate]. split; [intros [= ->]; constructor|].
    intros ->%reaches_nil_inv. done.
  - cbn [navigate]. split.
    + destruct v as [| | | | |fields]; try done.
      destruct (fields !! part) as [next|] eqn:Hpart; [|done].
      intros Hnav%IH. by eapply reaches_hop.
    + intros (fields & next & -> & Hpart & Hrest)%reaches_cons_inv.
      rewrite Hpart. by apply IH.
Qed.

Lemma navigate_missing v path i part :
  navigate v path i = Err (MissingSegment part) <-> segmentAbsent v path part.
Proof.
  unfold segmentAbsent. revert v i.
  induction path as [|part' rest IH]; intros v i.
  - cbn [navigate]. split; [done|]. intros (pre & post & ? & Hpath & _).
    by destruct pre.
  - cbn [navigate]. split.
    + destruct v as [| | | | |fields]; try done.
      destruct (fields !! part') as [next|] eqn:Hpart.
      * intros (pre & post & fields' & -> & Hpre & Hnone)%IH.
        exists (part' :: pre), post, fields'. split; [done|].
        split; [by eapply reaches_hop|done].
      * intros [= ->]. exists [], rest, fields. split; [done|].
        split; [constructor|done].
    + intros (pre & post & fields' & Hpath & Hpre & Hnone).
      destruct pre as [|part'' pre]; simplify_eq/=.
      * apply reaches_nil_inv in Hpre as ->. by rewrite Hnone.
      * apply reaches_cons_inv in Hpre as (fields & next & -> & Hpart & Hpre).
        rewrite Hpart. apply IH. by exists pre, post, fields'.
Qed.

Lemma navigate_not_object v path i part j :
  navigate v path i = Err (NotAnObject part j)
  <-> exists k, j = i + k /\ hopNotObject v path part k.
Proof.
  unfold hopNotObject. revert v i.
  induction path as [|part' rest IH]; intros v i.
  - cbn [navigate]. split; [done|].
    intros (k & _ & pre & post & ? & Hpath & _). by destruct pre.
  - cbn [navigate]. split.
    + assert (notObject v ->
              @Err ExtractError value (NotAnObject part' i) = Err (NotAnObject part j)
              -> exists k, j = i + k /\
                   exists pre post w,
                     part' :: rest = (pre ++ part :: post)%list /\ length pre = k /\
                     reaches v pre w /\ notObject w) as Hhere.
      { intros Hv [= -> ->]. exists 0. split; [lia|].
        exists [], rest, v. repeat split; [constructor|done]. }
      destruct v as [| | | | |fields]; try by apply Hhere.
      destruct (fields !! part') as [next|] eqn:Hpart; [|done].
      intros (k & -> & pre & post & w & -> & <- & Hpre & Hw)%IH.
      exists (S (length pre)). split; [lia|].
      exists (part' :: pre), post, w. repeat split; [by eapply reaches_hop|done].
    + intros (k & -> & pre & post & w & Hpath & <- & Hpre & Hw).
      destruct pre as [|part'' pre]; simplify_eq/=.
      * apply reaches_nil_inv in Hpre as ->.
        rewrite Nat.add_0_r. by destruct w.
      * apply reaches_cons_inv in Hpre as (fields & next & -> & Hpart & Hpre).
        rewrite Hpart. apply IH. exists (length pre). split; [lia|].
        by exists pre, post, w.
Qed.

(** The walk fails in these two ways only. *)
Lemma navigate_err v path i e :
  navigate v path i = Err e ->
  (exists part, e = MissingSegment part) \/ (exists part j, e = NotAnObject part j).
Proof.
  revert v i. induction path as [|part rest IH]; intros v i; [done|].
  cbn [navigate].
  destruct v as [| | | | |fields]; try (intros [= <-]; right; by eexists _, _).
  destruct (fields !! part) as [next|]; [apply IH|].
  intros [= <-]. left. by eexists.
Qed.
End Navigate.

Section Extract.
Context `{JSON}.
Implicit Types (responseBody tokenLocation token : string).

Lemma Extract_unfold responseBody tokenLocation :
  tokenLocation <> "" ->
  ExtractTokenFromResponse responseBody tokenLocation
  = match json_Unmarshal responseBody with
    | None => Err InvalidJSON
    | Some data =>
        match navigate data (splitDots tokenLocation) 0 with
        | Err e => Err e
        | Ok (VString token) =>
            if String.eqb token "" then Err (EmptyTokenValue tokenLocation)
            else Ok token
        | Ok _ => Err (NotAString tokenLocation)
        end
    end.
Proof.
  intros Hne. unfold ExtractTokenFromResponse.
  apply String.eqb_neq in Hne. by rewrite Hne.
Qed.

Lemma Extract_empty_location responseBody :
  ExtractTokenFromResponse responseBody "" = Err EmptyTokenLocation.
Proof. done. Qed.

(** The result of the walk decides the result of the extraction. *)
Lemma Extract_cases responseBody tokenLocation :
  tokenLocation <> "" ->
  match ExtractTokenFromResponse responseBody tokenLocation with
  | Ok token =>
      token <> "" /\
      exists data, json_Unmarshal responseBody = Some data /\
        reaches data (splitDots tokenLocation) (VString token)
  | Err EmptyTokenLocation => False
  | Err InvalidJSON => json_Unmarshal responseBody = None
  | Err (MissingSegment part) =>
      exists data, json_Unmarshal responseBody = Some data /\
        segmentAbsent data (splitDots tokenLocation) part
  | Err (NotAnObject part i) =>
      exists data, json_Unmarshal responseBody = Some data /\
        hopNotObject data (splitDots tokenLocation) part i
  | Err (NotAString location) =>
      location = tokenLocation /\
      exists data w, json_Unmarshal responseBody = Some data /\
        reaches data (splitDots tokenLocation) w /\ notString w
  | Err (EmptyTokenValue location) =>
      location = tokenLocation /\
      exists data, json_Unmarshal responseBody = Some data /\
        reaches data (splitDots tokenLocation) (VString "")
  end.
Proof.
  intros Hne. rewrite Extract_unfold by done.
  destruct (json_Unmarshal responseBody) as [data|]; [|done].
  destruct (navigate data (splitDots tokenLocation) 0) as [w|e] eqn:Hnav.
  - apply navigate_ok in Hnav.
    destruct w as [| | |token| |]; try (split; [done|]; by eexists _, _).
    destruct (String.eqb_spec token "") as [->|Htok].
    + split; [done|]. by exists data.
    + split; [done|]. by exists data.
  - destruct (navigate_err _ _ _ _ Hnav) as [[part ->]|(part & j & ->)].
    + apply navigate_missing in Hnav. by exists data.
    + apply navigate_not_object in Hnav as (k & -> & Hhop). by exists data.
Qed.
Lemma Extract_ok_iff responseBody tokenLocation token :
  ExtractTokenFromResponse responseBody tokenLocation = Ok token
  <-> tokenLocation <> "" /\ token <> "" /\
      exists data, json_Unmarshal responseBody = Some data /\
        reaches data (splitDots tokenLocation) (VString token).
Proof.
  split.
  - intros Hout. destruct (decide (tokenLocation = "")) as [->|Hne]; [done|].
    pose proof (Extract_cases responseBody tokenLocation Hne) as Hc.
    rewrite Hout in Hc. by destruct Hc.
  - intros (Hne & Htok & data & Hdata & Hreach).
    rewrite Extract_unfold, Hdata by done.
    apply navigate_ok with (i := 0) in Hreach. rewrite Hreach.
    apply String.eqb_neq in Htok. by rewrite Htok.
Qed.

Lemma Extract_empty_location_iff responseBody tokenLocation :
  ExtractTokenFromResponse responseBody tokenLocation = Err EmptyTokenLocation
  <-> tokenLocation = "".
Proof.
  split; [|by intros ->].
  intros Hout. destruct (decide (tokenLocation = "")) as [->|Hne]; [done|].
  pose proof (Extract_cases responseBody tokenLocation Hne) as Hc.
  by rewrite Hout in Hc.
Qed.

Lemma Extract_invalid_iff responseBody tokenLocation :
  ExtractTokenFromResponse responseBody tokenLocation = Err InvalidJSON
  <-> tokenLocation <> "" /\ json_Unmarshal responseBody = None.
Proof.
  split.
  - intros Hout. destruct (decide (tokenLocation = "")) as [->|Hne]; [done|].
    pose proof (Extract_cases responseBody tokenLocation Hne) as Hc.
    by rewrite Hout in Hc.
  - intros [Hne Hdata]. by rewrite Extract_unfold, Hdata.
Qed.

Lemma Extract_missing_iff responseBody tokenLocation part :
  ExtractTokenFromResponse responseBody tokenLocation = Err (MissingSegment part)
  <-> tokenLocation <> "" /\
      exists data, json_Unmarshal responseBody = Some data /\
        segmentAbsent data (splitDots tokenLocation) part.
Proof.
  split.
  - intros Hout. destruct (decide (tokenLocation = "")) as [->|Hne]; [done|].
    pose proof (Extract_cases responseBody tokenLocation Hne) as Hc.
    by rewrite Hout in Hc.
  - intros (Hne & data & Hdata & Habs).
    rewrite Extract_unfold, Hdata by done.
    apply navigate_missing with (i := 0) in Habs. by rewrite Habs.
Qed.

Lemma Extract_not_object_iff responseBody tokenLocation part (i : nat) :
  ExtractTokenFromResponse responseBody tokenLocation = Err (NotAnObject part i)
  <-> tokenLocation <> "" /\
      exists data, json_Unmarshal responseBody = Some data /\
        hopNotObject data (splitDots tokenLocation) part i.
Proof.
  split.
  - intros Hout. destruct (decide (tokenLocation = "")) as [->|Hne]; [done|].
    pose proof (Extract_cases responseBody tokenLocation Hne) as Hc.
    by rewrite Hout in Hc.
  - intros (Hne & data & Hdata & Hhop).
    rewrite Extract_unfold, Hdata by done.
    assert (navigate data (splitDots tokenLocation) 0 = Err (NotAnObject part i))
      as ->; [|done].
    apply navigate_not_object. by exists i.
Qed.

Lemma Extract_not_string_iff responseBody tokenLocation :
  ExtractTokenFromResponse responseBody tokenLocation = Err (NotAString tokenLocation)
  <-> tokenLocation <> "" /\
      exists data w, json_Unmarshal responseBody = Some data /\
        reaches data (splitDots tokenLocation) w /\ notString w.
Proof.
  split.
  - intros Hout. destruct (decide (tokenLocation = "")) as [->|Hne]; [done|].
    pose proof (Extract_cases responseBody tokenLocation Hne) as Hc.
    rewrite Hout in Hc. by destruct Hc.
  - intros (Hne & data & w & Hdata & Hreach & Hw).
    rewrite Extract_unfold, Hdata by done.
    apply navigate_ok with (i := 0) in Hreach. rewrite Hreach. by destruct w.
Qed.

Lemma Extract_empty_token_iff responseBody tokenLocation :
  ExtractTokenFromResponse responseBody tokenLocation
  = Err (EmptyTokenValue tokenLocation)
  <-> tokenLocation <> "" /\
      exists data, json_Unmarshal responseBody = Some data /\
        reaches data (splitDots tokenLocation) (VString "").
Proof.
  split.
  - intros Hout. destruct (decide (tokenLocation = "")) as [->|Hne]; [done|].
    pose proof (Extract_cases responseBody tokenLocation Hne) as Hc.
    rewrite Hout in Hc. by destruct Hc.
  - intros (Hne & data & Hdata & Hreach).
    rewrite Extract_unfold, Hdata by done.
    apply navigate_ok with (i := 0) in Hreach. by rewrite Hreach.
Qed.

Lemma Extract_err_iff responseBody tokenLocation :
  is_err (ExtractTokenFromResponse responseBody tokenLocation) = true
  <-> tokenLocation = "" \/ json_Unmarshal responseBody = None \/
      exists data, json_Unmarshal responseBody = Some data /\
        ((exists part, segmentAbsent data (splitDots tokenLocation) part) \/
         (exists part i, hopNotObject data (splitDots tokenLocation) part i) \/
         (exists w, reaches data (splitDots tokenLocation) w /\ notString w) \/
         reaches data (splitDots tokenLocation) (VString "")).
Proof.
  split.
  - intros Herr. destruct (decide (tokenLocation = "")) as [->|Hne]; [by left|].
    right. pose proof (Extract_cases responseBody tokenLocation Hne) as Hc.
    destruct (ExtractTokenFromResponse responseBody tokenLocation)
      as [token|[| |part i|part|location|location]]; try done.
    + by left.
    + right. destruct Hc as (data & Hdata & Hhop). exists data.
      split; [done|]. right. left. by exists part, i.
    + right. destruct Hc as (data & Hdata & Habs). exists data.
      split; [done|]. left. by exists part.
    + right. destruct Hc as (_ & data & w & Hdata & Hreach & Hw). exists data.
      split; [done|]. right. right. left. by exists w.
    + right. destruct Hc as (_ & data & Hdata & Hreach). exists data.
      split; [done|]. by repeat right.
  - destruct (decide (tokenLocation = "")) as [->|Hne]; [done|].
    intros [?|[Hdata|(data & Hdata & Hwhy)]]; [done| |].
    + by rewrite (proj2 (Extract_invalid_iff _ _) (conj Hne Hdata)).
    + destruct Hwhy as [[part Habs]|[(part & i & Hhop)|[(w & Hreach & Hw)|Hreach]]].
      * rewrite (proj2 (Extract_missing_iff _ _ part)); [done|].
        split; [done|]. by exists data.
      * rewrite (proj2 (Extract_not_object_iff _ _ part i)); [done|].
        split; [done|]. by exists data.
      * rewrite (proj2 (Extract_not_string_iff _ _)); [done|].
        split; [done|]. by exists data, w.
      * rewrite (proj2 (Extract_empty_token_iff _ _)); [done|].
        split; [done|]. by exists data.
Qed.
End Extract.

(** C2.  [ExtractTokenFromResponse] returns the token exactly when the
    path is not empty, the document decodes, every hop along the path is
    an object holding the next segment, and the walk ends at a non-empty
    string, which is the token.  It returns an error exactly when the path
    is empty, the document does not decode, a segment is absent, a hop is
    not an object, the value at the end is not a string, or it is the
    empty string; each of the six has its own error.  With the reference
    decoder, the path "data.login.token" gives "abc" in
    [{"data":{"login":{"token":"abc"}}}] and a missing segment "login" in
    [{"data":{}}]. *)
Theorem extract_token_characterised `{JSON} (responseBody tokenLocation : string) :
  let path := splitDots tokenLocation in
  let out := ExtractTokenFromResponse responseBody tokenLocation in
  (forall token,
     out = Ok token
     <-> tokenLocation <> "" /\ token <> "" /\
         exists data, json_Unmarshal responseBody = Some data /\
           reaches data path (VString token)) /\
  (is_err out = true
   <-> tokenLocation = "" \/ json_Unmarshal responseBody = None \/
       exists data, json_Unmarshal responseBody = Some data /\
         ((exists part, segmentAbsent data path part) \/
          (exists part i, hopNotObject data path part i) \/
          (exists w, reaches data path w /\ notString w) \/
          reaches data path (VString ""))) /\
  (out = Err EmptyTokenLocation <-> tokenLocation = "") /\
  (out = Err InvalidJSON
   <-> tokenLocation <> "" /\ json_Unmarshal responseBody = None) /\
  (forall part,
     out = Err (MissingSegment part)
     <-> tokenLocation <> "" /\
         exists data, json_Unmarshal responseBody = Some data /\
           segmentAbsent data path part) /\
  (forall part i,
     out = Err (NotAnObject part i)
     <-> tokenLocation <> "" /\
         exists data, json_Unmarshal responseBody = Some data /\
           hopNotObject data path part i) /\
  (out = Err (NotAString tokenLocation)
   <-> tokenLocation <> "" /\
       exists data w, json_Unmarshal responseBody = Some data /\
         reaches data path w /\ notString w) /\
  (out = Err (EmptyTokenValue tokenLocation)
   <-> tokenLocation <> "" /\
       exists data, json_Unmarshal responseBody = Some data /\
         reaches data path (VString "")) /\
  @ExtractTokenFromResponse refJSON loginResponse "data.login.token" = Ok "abc" /\
  @ExtractTokenFromResponse refJSON emptyDataResponse "data.login.token"
  = Err (MissingSegment "login").
Proof.
  intros path out. unfold path, out.
  split; [intros token; apply Extract_ok_iff|].
  split; [apply Extract_err_iff|].
  split; [apply Extract_empty_location_iff|].
  split; [apply Extract_invalid_iff|].
  split; [intros part; apply Extract_missing_iff|].
  split; [intros part i; apply Extract_not_object_iff|].
  split; [apply Extract_not_string_iff|].
  split; [apply Extract_empty_token_iff|].
  split; by vm_compute.
Qed.

(** ** handleLoginAuth *)

Section Login.
Context `{JSON} `{MapRange} `{HTTPClient}.

Lemma handleLoginAuth_err (h : AuthHandler) (nowGet nowSet : Z)
    (serviceId : string) (credentials : CredentialsType) (e : AuthError) :
  (handleLoginAuth h nowGet nowSet serviceId credentials).1 = Err e ->
  (handleLoginAuth h nowGet nowSet serviceId credentials).2 = handlerCache h /\
  (e = NoEndpointConfigured \/ e = InvalidEndpointConfiguration \/
   exists cause, e = ObtainTokenFailed cause).
Proof.
  unfold handleLoginAuth. cbn zeta.
  repeat (case_match; cbn [fst snd]; try done);
    intros [= <-]; (split; [done|]); eauto.
Qed.
End Login.

(** C7.  When the LOGIN path of [GetAuthToken] returns an error (no
    endpoint configured, invalid endpoint configuration, or a failure to
    obtain the token: building the request, the transport, the status,
    the extraction), the cache it leaves is the cache it was given. *)
Theorem failed_login_leaves_cache `{JSON} `{MapRange} `{HTTPClient}
    (h : AuthHandler) (nowGet nowSet : Z) (serviceId : string)
    (credentials : CredentialsType) (e : AuthError) :
  credAuthType credentials = "LOGIN" ->
  (GetAuthToken h nowGet nowSet serviceId (Some credentials)).1 = Err e ->
  (GetAuthToken h nowGet nowSet serviceId (Some credentials)).2 = handlerCache h /\
  (e = NoEndpointConfigured \/ e = InvalidEndpointConfiguration \/
   exists cause, e = ObtainTokenFailed cause).
Proof.
  intros Hlogin. unfold GetAuthToken. rewrite Hlogin. cbn [String.eqb Ascii.eqb].
  change (String.eqb "LOGIN" "BASIC") with false.
  change (String.eqb "LOGIN" "LOGIN") with true. cbn match.
  apply handleLoginAuth_err.
Qed.

Lemma failed_login_leaves_cache_witness :
  let h := mkHandler staleCache defaultConfig in
  (@GetAuthToken refJSON listOrder (fixedUpstream 500 "down") h 60 61 "svc"
     (Some loginCredentials)).2 = staleCache /\
  (ObtainTokenFailed (BadStatus 500 "down") = NoEndpointConfigured \/
   ObtainTokenFailed (BadStatus 500 "down") = InvalidEndpointConfiguration \/
   exists cause, ObtainTokenFailed (BadStatus 500 "down") = ObtainTokenFailed cause).
Proof.
  intros h.
  apply (@failed_login_leaves_cache refJSON listOrder (fixedUpstream 500 "down")
           h 60%Z 61%Z "svc" loginCredentials
           (ObtainTokenFailed (BadStatus 500 "down")) eq_refl).
  by vm_compute.
Defined.

(** ** BuildRESTRequest *)

Section Parameters.
Implicit Types (cd : list CredentialsPairType) (st : ParamState).
Implicit Types (params : list ContentAttributeType) (param : ContentAttributeType).
Implicit Types (name location v : string).

(** The resolved value is empty when no pair has the key, or when the
    first pair that has it holds the empty string. *)
Lemma findCredentialValue_empty_iff cd name :
  findCredentialValue cd name = ""
  <-> (forall p, p ∈ cd -> pairKey p <> name) \/
      (exists pre post,
         cd = (pre ++ mkPair name "" :: post)%list /\
         forall p, p ∈ pre -> pairKey p <> name).
Proof.
  induction cd as [|q cd IH]; cbn [findCredentialValue].
  - split; [|done]. intros _. left. intros p Hp. by apply elem_of_nil in Hp.
  - destruct (String.eqb_spec (pairKey q) name) as [Hq|Hq].
    + split.
      * intros Hv. right. exists [], cd. split; [|intros p Hp; by apply elem_of_nil in Hp].
        destruct q as [k v]. by simplify_eq/=.
      * intros [Hnone|(pre & post & Hcd & Hpre)].
        -- exfalso. apply (Hnone q); [apply elem_of_cons; by left|done].
        -- destruct pre as [|q' pre]; cbn [app] in Hcd; injection Hcd as -> ->.
           ++ done.
           ++ exfalso. apply (Hpre q'); [apply elem_of_cons; by left|done].
    + rewrite IH. split.
      * intros [Hnone|(pre & post & -> & Hpre)].
        -- left. intros p [->|Hp]%elem_of_cons; [done|by apply Hnone].
        -- right. exists (q :: pre), post. split; [done|].
           intros p [->|Hp]%elem_of_cons; [done|by apply Hpre].
      * intros [Hnone|(pre & post & Hcd & Hpre)].
        -- left. intros p Hp. apply Hnone, elem_of_cons. by right.
        -- destruct pre as [|q' pre]; cbn [app] in Hcd; injection Hcd as -> ->.
           ++ done.
           ++ right. exists pre, post. split; [done|].
              intros p Hp. apply Hpre, elem_of_cons. by right.
Qed.

Lemma findCredentialValue_no_pair cd name :
  (forall p, p ∈ cd -> pairKey p <> name) -> findCredentialValue cd name = "".
Proof. intros Hnone. apply findCredentialValue_empty_iff. by left. Qed.

Lemma applyParameters_step cd param params st :
  applyParameters cd (param :: params) st
  = if String.eqb (findCredentialValue cd (paramValue param)) "" && paramRequired param
    then Err (RequiredParameterNotFound (paramValue param))
    else applyParameters cd params
           (routeParameter (paramLocation param) (paramValue param)
              (findCredentialValue cd (paramValue param)) st).
Proof. done. Qed.

Lemma rejects_iff cd param :
  String.eqb (findCredentialValue cd (paramValue param)) "" && paramRequired param = true
  <-> paramRequired param = true /\ findCredentialValue cd (paramValue param) = "".
Proof. rewrite andb_true_iff, String.eqb_eq. tauto. Qed.

Lemma applyParameters_err_iff cd params st :
  is_err (applyParameters cd params st) = true
  <-> exists param, param ∈ params /\ paramRequired param = true /\
        findCredentialValue cd (paramValue param) = "".
Proof.
  revert st. induction params as [|param params IH]; intros st.
  - split; [done|]. intros (param & Hin & _). by apply elem_of_nil in Hin.
  - rewrite applyParameters_step.
    destruct (String.eqb _ "" && paramRequired param) eqn:Hrej.
    + split; [intros _|done]. apply rejects_iff in Hrej.
      exists param. split; [apply elem_of_cons; by left|done].
    + rewrite IH. split.
      * intros (param' & Hin & Hreq). exists param'.
        split; [apply elem_of_cons; by right|done].
      * intros (param' & [->|Hin]%elem_of_cons & Hreq); [|by exists param'].
        apply rejects_iff in Hreq. congruence.
Qed.

Lemma applyParameters_err cd params st (e : BuildError) :
  applyParameters cd params st = Err e ->
  exists param, param ∈ params /\ e = RequiredParameterNotFound (paramValue param) /\
    paramRequired param = true /\ findCredentialValue cd (paramValue param) = "".
Proof.
  revert st. induction params as [|param params IH]; intros st; [done|].
  rewrite applyParameters_step.
  destruct (String.eqb _ "" && paramRequired param) eqn:Hrej.
  - intros [= <-]. apply rejects_iff in Hrej.
    exists param. split; [apply elem_of_cons; by left|done].
  - intros (param' & Hin & He)%IH. exists param'.
    split; [apply elem_of_cons; by right|done].
Qed.

Lemma routeParameter_headers location name v st :
  psHeaders (routeParameter location name v st)
  = if String.eqb location "header" then <[name := v]> (psHeaders st)
    else psHeaders st.
Proof. unfold routeParameter. by repeat case_match. Qed.

Lemma routeParameter_query location name v st :
  psQueryParams (routeParameter location name v st)
  = if String.eqb location "query" then <[name := v]> (psQueryParams st)
    else psQueryParams st.
Proof.
  unfold routeParameter.
  destruct (String.eqb_spec location "header") as [->|]; [done|].
  by repeat case_match.
Qed.

(** After the loop, a header parameter holds its resolved value. *)
Lemma applyParameters_header cd params st st' param :
  applyParameters cd params st = Ok st' ->
  param ∈ params -> paramLocation param = "header" ->
  psHeaders st' !! paramValue param
  = Some (findCredentialValue cd (paramValue param)).
Proof.
  intros Hok Hin Hloc.
  assert (psHeaders st' !! paramValue param
          = Some (findCredentialValue cd (paramValue param)) \/
          psHeaders st' !! paramValue param = psHeaders st !! paramValue param /\
          param ∉ params) as [?|[_ ?]]; [|done..].
  clear Hin. revert st Hok. induction params as [|param' params IH]; intros st.
  - intros [= <-]. right. split; [done|]. apply not_elem_of_nil.
  - rewrite applyParameters_step. case_match; [done|]. intros Hok.
    destruct (IH _ Hok) as [?|[Hsame Hnotin]]; [by left|].
    rewrite routeParameter_headers in Hsame.
    destruct (decide (param = param')) as [<-|Hne].
    + left. rewrite Hsame, Hloc. cbn. by rewrite lookup_insert_eq.
    + destruct (String.eqb (paramLocation param') "header");
        [destruct (decide (paramValue param' = paramValue param)) as [Heq|Hneq]|].
      * left. by rewrite Hsame, Heq, lookup_insert_eq.
      * right. rewrite Hsame, lookup_insert_ne by done.
        split; [done|]. by apply not_elem_of_cons.
      * right. split; [done|]. by apply not_elem_of_cons.
Qed.

(** After the loop, a query parameter holds its resolved value. *)
Lemma applyParameters_query cd params st st' param :
  applyParameters cd params st = Ok st' ->
  param ∈ params -> paramLocation param = "query" ->
  psQueryParams st' !! paramValue param
  = Some (findCredentialValue cd (paramValue param)).
Proof.
  intros Hok Hin Hloc.
  assert (psQueryParams st' !! paramValue param
          = Some (findCredentialValue cd (paramValue param)) \/
          psQueryParams st' !! paramValue param
          = psQueryParams st !! paramValue param /\
          param ∉ params) as [?|[_ ?]]; [|done..].
  clear Hin. revert st Hok. induction params as [|param' params IH]; intros st.
  - intros [= <-]. right. split; [done|]. apply not_elem_of_nil.
  - rewrite applyParameters_step. case_match; [done|]. intros Hok.
    destruct (IH _ Hok) as [?|[Hsame Hnotin]]; [by left|].
    rewrite routeParameter_query in Hsame.
    destruct (decide (param = param')) as [<-|Hne].
    + left. rewrite Hsame, Hloc. cbn. by rewrite lookup_insert_eq.
    + destruct (String.eqb (paramLocation param') "query");
        [destruct (decide (paramValue param' = paramValue param)) as [Heq|Hneq]|].
      * left. by rewrite Hsame, Heq, lookup_insert_eq.
      * right. rewrite Hsame, lookup_insert_ne by done.
        split; [done|]. by apply not_elem_of_cons.
      * right. split; [done|]. by apply not_elem_of_cons.
Qed.
End Parameters.

Lemma listOrder_lawful : @rangeLawful listOrder.
Proof. by intros m. Qed.

Section Rest.
Context `{JSON} `{MapRange}.
Implicit Types (endpoint : EndpointType) (cd : list CredentialsPairType).
Implicit Types (baseURL : string) (req : HTTPRequest).

Lemma requestBody_err endpoint cd (e : BuildError) :
  requestBody endpoint cd = Err e ->
  (exists cause, e = BuildBodyFailed cause) \/ e = MarshalBodyFailed.
Proof.
  unfold requestBody. repeat case_match; try done; intros [= <-]; eauto.
Qed.

Lemma BuildRESTRequest_ok endpoint cd baseURL req :
  BuildRESTRequest (Some endpoint) cd baseURL = Ok req ->
  exists body headers st,
    requestBody endpoint cd = Ok (body, headers) /\
    applyParameters cd (endpointParameters endpoint)
      (mkParamState headers ∅ (baseURL ++ endpointPath endpoint)) = Ok st /\
    reqHeaders req = psHeaders st /\
    reqURL req
    = if Nat.ltb 0 (size (psQueryParams st))
      then psURL st ++ "?" ++ queryString true (rangeOrder (psQueryParams st))
      else psURL st.
Proof.
  unfold BuildRESTRequest.
  destruct (requestBody endpoint cd) as [[body headers]|]; [|done].
  destruct (applyParameters _ _ _) as [st|] eqn:Happly; [|done].
  intros [= <-]. by exists body, headers, st.
Qed.

Lemma BuildRESTRequest_err_iff endpoint cd baseURL :
  is_ok (requestBody endpoint cd) = true ->
  is_err (BuildRESTRequest (Some endpoint) cd baseURL) = true
  <-> exists param,
        param ∈ endpointParameters endpoint /\ paramRequired param = true /\
        findCredentialValue cd (paramValue param) = "".
Proof.
  intros Hbody. unfold BuildRESTRequest.
  destruct (requestBody endpoint cd) as [[body headers]|]; [|done].
  rewrite <- (applyParameters_err_iff cd (endpointParameters endpoint)
                (mkParamState headers ∅ (baseURL ++ endpointPath endpoint))).
  by destruct (applyParameters _ _ _).
Qed.

Lemma BuildRESTRequest_required endpoint cd baseURL (name : string) :
  BuildRESTRequest (Some endpoint) cd baseURL = Err (RequiredParameterNotFound name) ->
  exists param,
    param ∈ endpointParameters endpoint /\ paramValue param = name /\
    paramRequired param = true /\ findCredentialValue cd name = "".
Proof.
  unfold BuildRESTRequest.
  destruct (requestBody endpoint cd) as [[body headers]|e] eqn:Hbody.
  - destruct (applyParameters _ _ _) as [st|e] eqn:Happly; [done|].
    intros [= ->].
    apply applyParameters_err in Happly as (param & Hin & [= ->] & Hreq & Hval).
    by exists param.
  - intros [= ->]. by destruct (requestBody_err _ _ _ Hbody) as [[? ?]|?].
Qed.

Lemma string_append_assoc (a b c : string) : (a ++ b) ++ c = a ++ b ++ c.
Proof.
  induction a as [|x a IH]; [done|]. exact (f_equal (String x) IH).
Qed.

Lemma string_append_nil_r (a : string) : a ++ "" = a.
Proof.
  induction a as [|x a IH]; [done|]. exact (f_equal (String x) IH).
Qed.

(** After the first entry, the loop writes [&] before every entry. *)
Lemma queryString_rest (entries : list (string * string)) :
  queryString false entries
  = match entries with
    | [] => ""
    | _ :: _ =>
        "&" ++ String.concat "&"
                 (map (fun entry => entry.1 ++ "=" ++ entry.2) entries)
    end.
Proof.
  induction entries as [|[key v] rest IH]; [done|].
  cbn [queryString map fst snd String.concat]. rewrite IH.
  destruct rest as [|next rest].
  - by rewrite string_append_nil_r.
  - cbn [map]. by rewrite !string_append_assoc.
Qed.

(** The loop over the query parameters writes the entries [key=value]
    joined by [&]. *)
Lemma queryString_joined (entries : list (string * string)) :
  queryString true entries
  = String.concat "&" (map (fun entry => entry.1 ++ "=" ++ entry.2) entries).
Proof.
  destruct entries as [|[key v] rest]; [done|].
  cbn [queryString map fst snd String.concat]. rewrite queryString_rest.
  destruct rest as [|next rest].
  - by rewrite string_append_nil_r.
  - cbn [map]. by rewrite !string_append_assoc.
Qed.

Lemma entry_visited (m : gmap string string) (key v : string) :
  rangeLawful -> m !! key = Some v ->
  Nat.ltb 0 (size m) = true /\ (key, v) ∈ rangeOrder m.
Proof.
  intros Hlaw Hkey. split.
  - apply Nat.ltb_lt. destruct (size m) eqn:Hsize; [|lia].
    apply map_size_empty_inv in Hsize as ->. by rewrite lookup_empty in Hkey.
  - rewrite (Hlaw m). by apply elem_of_map_to_list.
Qed.

Lemma BuildRESTRequest_emits endpoint cd baseURL req (param : ContentAttributeType) :
  rangeLawful ->
  BuildRESTRequest (Some endpoint) cd baseURL = Ok req ->
  param ∈ endpointParameters endpoint ->
  (forall p, p ∈ cd -> pairKey p <> paramValue param) ->
  paramRequired param = false /\
  (paramLocation param = "header" ->
   reqHeaders req !! paramValue param = Some "") /\
  (paramLocation param = "query" ->
   exists url entries,
     reqURL req
     = url ++ "?" ++
       String.concat "&" (map (fun entry => entry.1 ++ "=" ++ entry.2) entries) /\
     (paramValue param, "") ∈ entries /\
     NoDup entries.*1).
Proof.
  intros Hlaw Hok Hin Hnone.
  apply BuildRESTRequest_ok in Hok
    as (body & headers & st & Hbody & Happly & Hheaders & Hurl).
  pose proof (findCredentialValue_no_pair cd _ Hnone) as Hval.
  split; [|split].
  - destruct (paramRequired param) eqn:Hreq; [|done].
    assert (is_err (applyParameters cd (endpointParameters endpoint)
      (mkParamState headers ∅ (baseURL ++ endpointPath endpoint))) = true) as Herr.
    { apply applyParameters_err_iff. by exists param. }
    by rewrite Happly in Herr.
  - intros Hloc. rewrite Hheaders, <- Hval.
    by eapply applyParameters_header.
  - intros Hloc.
    pose proof (applyParameters_query _ _ _ _ _ Happly Hin Hloc) as Hq.
    rewrite Hval in Hq. destruct (entry_visited _ _ _ Hlaw Hq) as [Hsize Hvisit].
    rewrite Hsize, queryString_joined in Hurl.
    exists (psURL st), (rangeOrder (psQueryParams st)).
    split; [done|]. split; [done|].
    rewrite (Hlaw (psQueryParams st)). apply NoDup_fst_map_to_list.
Qed.
End Rest.

(** C10.  Once the body is built, [BuildRESTRequest] fails exactly when
    some required parameter resolves to the empty string, and the error
    names such a parameter.  A name resolves to the empty string when no
    pair has it as key, and also when the first pair that has it holds an
    empty value: the two are rejected alike.  In a request that is built,
    a parameter without a matching pair is not required, and it is still
    emitted with an empty value: as a header when its location is
    "header"; when it is "query" (the map of query parameters being
    visited entry by entry), the URL ends in "?" and the entries
    [name=value] joined by "&", of which [name=] for this parameter is
    one, and no other entry has its name. *)
Theorem required_parameter_fails_on_empty_value `{JSON} `{MapRange}
    (endpoint : EndpointType) (cd : list CredentialsPairType) (baseURL : string) :
  rangeLawful ->
  let params := endpointParameters endpoint in
  let out := BuildRESTRequest (Some endpoint) cd baseURL in
  (is_ok (requestBody endpoint cd) = true ->
   (is_err out = true
    <-> exists param, param ∈ params /\ paramRequired param = true /\
          findCredentialValue cd (paramValue param) = "")) /\
  (forall name,
     out = Err (RequiredParameterNotFound name) ->
     exists param, param ∈ params /\ paramValue param = name /\
       paramRequired param = true /\ findCredentialValue cd name = "") /\
  (forall name,
     findCredentialValue cd name = ""
     <-> (forall p, p ∈ cd -> pairKey p <> name) \/
         (exists pre post,
            cd = (pre ++ mkPair name "" :: post)%list /\
            forall p, p ∈ pre -> pairKey p <> name)) /\
  (forall req param,
     out = Ok req -> param ∈ params ->
     (forall p, p ∈ cd -> pairKey p <> paramValue param) ->
     paramRequired param = false /\
     (paramLocation param = "header" ->
      reqHeaders req !! paramValue param = Some "") /\
     (paramLocation param = "query" ->
      exists url entries,
        reqURL req
        = url ++ "?" ++
          String.concat "&"
            (map (fun entry => entry.1 ++ "=" ++ entry.2) entries) /\
        (paramValue param, "") ∈ entries /\
        NoDup entries.*1)).
Proof.
  intros Hlaw params out. unfold params, out.
  split; [apply BuildRESTRequest_err_iff|].
  split; [intros name; apply BuildRESTRequest_required|].
  split; [intros name; apply findCredentialValue_empty_iff|].
  intros req param. by apply BuildRESTRequest_emits.
Qed.

Lemma required_parameter_fails_on_empty_value_witness :
  exists req,
    @BuildRESTRequest refJSON listOrder (Some searchEndpoint)
      [mkPair "tenant" "acme"] "https://auth.example" = Ok req /\
    reqURL req = "https://auth.example/tenants/acme/token?scope=" /\
    reqHeaders req !! "X-Trace" = Some "" /\
    is_err (@BuildRESTRequest refJSON listOrder (Some searchEndpoint)
              [mkPair "tenant" ""] "https://auth.example") = true.
Proof.
  eexists. split; [by vm_compute|]. split; [by vm_compute|].
  pose proof (@required_parameter_fails_on_empty_value refJSON listOrder
    searchEndpoint [mkPair "tenant" ""] "https://auth.example" listOrder_lawful)
    as [Hfail _].
  split; [by vm_compute|].
  apply Hfail; [done|].
  exists (mkParam "string" "tenant" true "path" "" "").
  split; [|done]. cbn. rewrite !elem_of_cons. tauto.
Defined.

(** * Further properties of the code *)

(** ** TokenCache: the other methods, and time *)

(** X1.  [Set] replaces the whole entry of its service id, so of two
    [Set]s on one id only the later shows, and it leaves what [Get]
    returns for every other id as it was. *)
Theorem set_replaces_entry_only (tokens : gmap string CachedToken)
    (now1 now2 : Z) (id token1 token2 : string) (ttl1 ttl2 : option Z)
    (buffer1 buffer2 : Z) :
  TokenCache_Set (TokenCache_Set tokens now1 id token1 ttl1 buffer1)
    now2 id token2 ttl2 buffer2
  = TokenCache_Set tokens now2 id token2 ttl2 buffer2 /\
  forall (other : string) (now' buffer' : Z),
    other <> id ->
    TokenCache_Get (TokenCache_Set tokens now1 id token1 ttl1 buffer1)
      now' other buffer'
    = TokenCache_Get tokens now' other buffer'.
Proof.
  split.
  - unfold TokenCache_Set. apply insert_insert_eq.
  - intros other now' buffer' Hother. unfold TokenCache_Get, TokenCache_Set.
    by rewrite lookup_insert_ne.
Qed.

(** X2.  After [Delete] a [Get] of the id finds nothing, whatever the
    clock reads; the other ids are read as before; and deleting an id that
    has no entry changes nothing.  After [Clear] no id is found at all. *)
Theorem delete_and_clear_remove (tokens : gmap string CachedToken)
    (id : string) :
  (forall now buffer,
     TokenCache_Get (TokenCache_Delete tokens id) now id buffer
     = ("", false, false)) /\
  (forall (other : string) now buffer,
     other <> id ->
     TokenCache_Get (TokenCache_Delete tokens id) now other buffer
     = TokenCache_Get tokens now other buffer) /\
  (tokens !! id = None -> TokenCache_Delete tokens id = tokens) /\
  (forall now buffer,
     TokenCache_Get (TokenCache_Clear tokens) now id buffer = ("", false, false)).
Proof.
  unfold TokenCache_Get, TokenCache_Delete, TokenCache_Clear.
  split; [|split; [|split]].
  - intros now buffer. by rewrite lookup_delete_eq.
  - intros other now buffer Hother. by rewrite lookup_delete_ne.
  - apply delete_id.
  - intros now buffer. by rewrite lookup_empty.
Qed.

(** X3.  What [Get] returns is consistent with the entry: when it reports
    no entry the token is empty and no refresh is asked; when it reports
    one, the token is the stored one, the stored expiry (if any) is
    strictly after the clock reading, and a refresh is asked exactly when
    a refresh time is stored and has been reached.  An expired token is
    never returned. *)
Theorem get_is_sound (tokens : gmap string CachedToken) (now : Z)
    (id : string) (buffer : Z) :
  match TokenCache_Get tokens now id buffer with
  | (token, needsRefresh, false) => token = "" /\ needsRefresh = false
  | (token, needsRefresh, true) =>
      exists cached,
        tokens !! id = Some cached /\ token = Token cached /\
        (forall e, ExpiresAt cached = Some e -> (now < e)%Z) /\
        (needsRefresh = true
         <-> exists r, RefreshAt cached = Some r /\ (r <= now)%Z)
  end.
Proof.
  unfold TokenCache_Get.
  destruct (tokens !! id) as [[token expiresAt refreshAt]|]; [|done].
  cbn [ExpiresAt RefreshAt Token].
  destruct expiresAt as [e|].
  - destruct (Z.leb_spec e now); [done|].
    destruct refreshAt as [r|].
    + destruct (Z.leb_spec r now).
      * eexists. repeat split; try done.
        -- by intros ? [= <-].
        -- intros _. by exists r.
      * eexists. repeat split; try done.
        -- by intros ? [= <-].
        -- intros (r' & [= <-] & ?). lia.
    + eexists. repeat split; try done.
      * by intros ? [= <-].
      * by intros (r' & ? & ?).
  - destruct refreshAt as [r|].
    + destruct (Z.leb_spec r now).
      * eexists. repeat split; try done. intros _. by exists r.
      * eexists. repeat split; try done. intros (r' & [= <-] & ?). lia.
    + eexists. repeat split; try done. by intros (r' & ? & ?).
Qed.

(** X4.  The life of an entry.  When [Set] is called at the clock reading
    [now] with a positive [ttl] and a buffer [>= 0] (the 64-bit sums not
    wrapping around), a [Get] [d >= 0] seconds later returns the token
    without asking for a refresh while [d < ttl - buffer], returns it and
    asks for a refresh while [ttl - buffer <= d < ttl], and finds nothing
    from [d = ttl] on. *)
Theorem get_follows_ttl (tokens : gmap string CachedToken) (id token : string)
    (now ttl buffer d buffer' : Z) :
  (0 < ttl)%Z -> (0 <= buffer)%Z -> (0 <= d)%Z ->
  int64 (now + ttl) -> int64 (now + ttl - buffer) ->
  TokenCache_Get (TokenCache_Set tokens now id token (Some ttl) buffer)
    (now + d) id buffer'
  = if (ttl <=? d)%Z then ("", false, false)
    else if (ttl - buffer <=? d)%Z then (token, true, true)
    else (token, false, true).
Proof.
  intros Httl Hbuf Hd He Hr.
  rewrite Get_after_Set, newCachedToken_in_range by done.
  cbn [ExpiresAt RefreshAt].
  destruct (Z.leb_spec ttl d).
  - by assert ((now + ttl <=? now + d) = true)%Z as -> by lia.
  - assert ((now + ttl <=? now + d) = false)%Z as -> by lia.
    destruct (Z.ltb_spec now (now + ttl - buffer)).
    + destruct (Z.leb_spec (ttl - buffer) d).
      * by assert ((now + ttl - buffer <=? now + d) = true)%Z as -> by lia.
      * by assert ((now + ttl - buffer <=? now + d) = false)%Z as -> by lia.
    + assert ((now <=? now + d) = true)%Z as -> by lia.
      by assert ((ttl - buffer <=? d) = true)%Z as -> by lia.
Qed.

Lemma get_follows_ttl_witness :
  TokenCache_Get (TokenCache_Set NewTokenCache 1700000000 "svc" "tok" (Some 3600%Z) 10)
    (1700000000 + 3595) "svc" 10
  = if (3600 <=? 3595)%Z then ("", false, false)
    else if (3600 - 10 <=? 3595)%Z then ("tok", true, true)
    else ("tok", false, true).
Proof.
  apply (get_follows_ttl NewTokenCache "svc" "tok" 1700000000 3600 10 3595 10);
    unfold int64; lia.
Defined.

(** X5.  A TTL that is zero or negative is taken as no TTL: the entry has
    no timestamps and [Get] returns the token at every clock reading. *)
Theorem nonpositive_ttl_never_expires (tokens : gmap string CachedToken)
    (id token : string) (now ttl buffer now' buffer' : Z) :
  (ttl <= 0)%Z ->
  TokenCache_Set tokens now id token (Some ttl) buffer !! id
  = Some (mkCached token None None) /\
  TokenCache_Get (TokenCache_Set tokens now id token (Some ttl) buffer)
    now' id buffer'
  = (token, false, true).
Proof.
  intros Httl.
  assert (newCachedToken now token (Some ttl) buffer = mkCached token None None)
    as Hnew.
  { unfold newCachedToken. by assert ((0 <? ttl) = false)%Z as -> by lia. }
  split.
  - unfold TokenCache_Set. by rewrite lookup_insert_eq, Hnew.
  - by rewrite Get_after_Set, Hnew.
Qed.

Lemma nonpositive_ttl_never_expires_witness :
  TokenCache_Set NewTokenCache 1700000000 "svc" "tok" (Some 0%Z) 10 !! "svc"
  = Some (mkCached "tok" None None) /\
  TokenCache_Get (TokenCache_Set NewTokenCache 1700000000 "svc" "tok" (Some 0%Z) 10)
    9999999999 "svc" 10
  = ("tok", false, true).
Proof.
  apply (nonpositive_ttl_never_expires NewTokenCache "svc" "tok"
           1700000000 0 10 9999999999 10).
  lia.
Defined.

(** X6.  Time only takes away.  On one cache, when a [Get] finds nothing a
    later [Get] finds nothing, and when a [Get] asks for a refresh a later
    [Get] asks for one too or finds nothing. *)
Theorem get_is_monotone (tokens : gmap string CachedToken) (id : string)
    (now now' buffer buffer' : Z) :
  (now <= now')%Z ->
  ((TokenCache_Get tokens now id buffer).2 = false ->
   (TokenCache_Get tokens now' id buffer').2 = false) /\
  ((TokenCache_Get tokens now id buffer).1.2 = true ->
   (TokenCache_Get tokens now' id buffer').1.2 = true \/
   (TokenCache_Get tokens now' id buffer').2 = false).
Proof.
  intros Hle. unfold TokenCache_Get.
  destruct (tokens !! id) as [[token expiresAt refreshAt]|]; [|by split; [|right]].
  cbn [ExpiresAt RefreshAt Token].
  assert (forall t, (t <=? now)%Z = true -> (t <=? now')%Z = true) as Hmono.
  { intros t Ht. apply Z.leb_le in Ht. apply Z.leb_le. lia. }
  destruct expiresAt as [e|], refreshAt as [r|]; cbn [fst snd];
    repeat match goal with
    | |- context [(?t <=? now)%Z] =>
        let E := fresh in
        destruct (t <=? now)%Z eqn:E; [rewrite (Hmono t E)|]
    | |- context [(?t <=? now')%Z] => destruct (t <=? now')%Z
    end; cbn [fst snd]; split; intros; try done; by (left + right).
Qed.

Lemma get_is_monotone_witness :
  ((TokenCache_Get staleCache 100 "svc" 10).2 = false ->
   (TokenCache_Get staleCache 200 "svc" 10).2 = false) /\
  ((TokenCache_Get staleCache 100 "svc" 10).1.2 = true ->
   (TokenCache_Get staleCache 200 "svc" 10).1.2 = true \/
   (TokenCache_Get staleCache 200 "svc" 10).2 = false).
Proof. apply (get_is_monotone staleCache "svc" 100 200 10 10). lia. Defined.

(** ** GetAuthToken: the paths that succeed, and what it leaves alone *)

Lemma Get_found (tokens : gmap string CachedToken) (now : Z) (id : string)
    (buffer : Z) (token : string) (needsRefresh : bool) :
  TokenCache_Get tokens now id buffer = (token, needsRefresh, true) ->
  exists cached, tokens !! id = Some cached /\ Token cached = token.
Proof.
  unfold TokenCache_Get. destruct (tokens !! id) as [cached|]; [|done].
  intros Hget. exists cached. split; [done|].
  by repeat case_match; simplify_eq.
Qed.

Section AuthPaths.
Context `{JSON} `{MapRange} `{HTTPClient}.
Implicit Types (h : AuthHandler) (credentials : CredentialsType).
Implicit Types (serviceId token : string) (nowGet nowSet : Z).

Lemma GetAuthToken_login h nowGet nowSet serviceId credentials :
  credAuthType credentials = "LOGIN" ->
  GetAuthToken h nowGet nowSet serviceId (Some credentials)
  = handleLoginAuth h nowGet nowSet serviceId credentials.
Proof. intros Hlogin. unfold GetAuthToken. by rewrite Hlogin. Qed.

(** The entry of another service id is never written. *)
Lemma handleLoginAuth_frame h nowGet nowSet serviceId credentials (other : string) :
  other <> serviceId ->
  (handleLoginAuth h nowGet nowSet serviceId credentials).2 !! other
  = handlerCache h !! other.
Proof.
  intros Hother. unfold handleLoginAuth, TokenCache_Set. cbn zeta.
  repeat (case_match; cbn [fst snd]; try done); by rewrite lookup_insert_ne.
Qed.

Lemma handleLoginAuth_disabled h nowGet nowSet serviceId credentials :
  CacheEnabled (handlerConfig h) = false ->
  (handleLoginAuth h nowGet nowSet serviceId credentials).2 = handlerCache h.
Proof.
  intros Hoff. unfold handleLoginAuth. cbn zeta. rewrite Hoff.
  by repeat (case_match; cbn [fst snd]; try done).
Qed.

(** A login that succeeds with the cache enabled leaves the token it
    returns in the entry of the service id. *)
Lemma handleLoginAuth_stores h nowGet nowSet serviceId credentials token :
  CacheEnabled (handlerConfig h) = true ->
  (handleLoginAuth h nowGet nowSet serviceId credentials).1 = Ok token ->
  exists cached,
    (handleLoginAuth h nowGet nowSet serviceId credentials).2 !! serviceId
    = Some cached /\ Token cached = token.
Proof.
  intros Hon. unfold handleLoginAuth. cbn zeta. rewrite Hon.
  assert (forall ttl, exists cached,
    TokenCache_Set (handlerCache h) nowSet serviceId token ttl
      (TokenRefreshBuffer (handlerConfig h)) !! serviceId = Some cached /\
    Token cached = token) as Hset.
  { intros ttl. unfold TokenCache_Set. rewrite lookup_insert_eq.
    eexists. split; [done|]. unfold newCachedToken. by repeat case_match. }
  pose proof (Get_found (handlerCache h) nowGet serviceId
                (TokenRefreshBuffer (handlerConfig h))) as Hget.
  destruct (TokenCache_Get _ _ _ _) as [[cachedToken needsRefresh] [|]];
    cbn [andb negb] in *.
  - destruct needsRefresh; cbn [fst snd].
    + repeat (case_match; cbn [fst snd]; try done); intros [= <-]; apply Hset.
    + intros [= <-]. by apply (Hget cachedToken false).
  - repeat (case_match; cbn [fst snd]; try done); intros [= <-]; apply Hset.
Qed.
End AuthPaths.

(** X7.  A cache hit needs no network.  With the cache enabled, when [Get]
    finds a token that is not due for a refresh, the LOGIN path returns
    that token and leaves the cache as it is, whatever the credentials
    declare and whatever the upstream would answer. *)
Theorem login_cache_hit_skips_upstream `{JSON} `{MapRange} `{HTTPClient}
    (h : AuthHandler) (nowGet nowSet : Z) (serviceId token : string)
    (credentials : CredentialsType) :
  credAuthType credentials = "LOGIN" ->
  CacheEnabled (handlerConfig h) = true ->
  TokenCache_Get (handlerCache h) nowGet serviceId
    (TokenRefreshBuffer (handlerConfig h)) = (token, false, true) ->
  GetAuthToken h nowGet nowSet serviceId (Some credentials)
  = (Ok token, handlerCache h).
Proof.
  intros Hlogin Hon Hget. rewrite GetAuthToken_login by done.
  unfold handleLoginAuth. cbn zeta. by rewrite Hon, Hget.
Qed.

Lemma login_cache_hit_skips_upstream_witness :
  @GetAuthToken refJSON listOrder (fun _ => DoError)
    (mkHandler staleCache defaultConfig) 49 49 "svc" (Some loginCredentials)
  = (Ok "old", staleCache).
Proof.
  by apply (@login_cache_hit_skips_upstream refJSON listOrder (fun _ => DoError)
              (mkHandler staleCache defaultConfig) 49%Z 49%Z "svc" "old"
              loginCredentials).
Defined.

(** X8.  A declared token needs no network either.  When the cache is
    disabled, or [Get] finds nothing or asks for a refresh, and the
    declaration carries a non-empty token, the LOGIN path returns that
    token, whatever the upstream would answer; with the cache enabled the
    token is stored under the declared TTL, otherwise the cache is left as
    it is. *)
Theorem login_declared_token_skips_upstream `{JSON} `{MapRange} `{HTTPClient}
    (h : AuthHandler) (nowGet nowSet : Z) (serviceId token : string)
    (credentials : CredentialsType) :
  credAuthType credentials = "LOGIN" ->
  credToken credentials = Some token -> token <> "" ->
  (CacheEnabled (handlerConfig h) = false \/
   (TokenCache_Get (handlerCache h) nowGet serviceId
      (TokenRefreshBuffer (handlerConfig h))).2 = false \/
   (TokenCache_Get (handlerCache h) nowGet serviceId
      (TokenRefreshBuffer (handlerConfig h))).1.2 = true) ->
  GetAuthToken h nowGet nowSet serviceId (Some credentials)
  = (Ok token,
     if CacheEnabled (handlerConfig h)
     then TokenCache_Set (handlerCache h) nowSet serviceId token
            (credTokenTtl credentials) (TokenRefreshBuffer (handlerConfig h))
     else handlerCache h).
Proof.
  intros Hlogin Htoken Hne Hmiss. rewrite GetAuthToken_login by done.
  unfold handleLoginAuth. cbn zeta. rewrite Htoken.
  apply String.eqb_neq in Hne. rewrite Hne.
  destruct (CacheEnabled (handlerConfig h)); [|done].
  destruct (TokenCache_Get _ _ _ _) as [[cachedToken needsRefresh] found].
  cbn [fst snd] in Hmiss.
  destruct Hmiss as [?|[->| ->]]; [done|done|].
  by rewrite andb_false_r.
Qed.

Lemma login_declared_token_skips_upstream_witness :
  @GetAuthToken refJSON listOrder (fun _ => DoError)
    (mkHandler staleCache defaultConfig) 60 61 "svc"
    (Some (mkCredentials "LOGIN" "REST" [] (Some "preset") "" (Some 30%Z) "" None))
  = (Ok "preset",
     TokenCache_Set staleCache 61 "svc" "preset" (Some 30%Z) 10).
Proof.
  apply (@login_declared_token_skips_upstream refJSON listOrder (fun _ => DoError)
           (mkHandler staleCache defaultConfig) 60%Z 61%Z "svc" "preset"
           (mkCredentials "LOGIN" "REST" [] (Some "preset") "" (Some 30%Z) "" None));
    try done.
  right. right. by vm_compute.
Defined.

(** X9.  What [GetAuthToken] does to the cache.  It never writes the
    entry of a service id other than the one it is called for; with the
    cache disabled it leaves the cache as it is; and with the cache
    enabled, a LOGIN call that returns a token leaves that token in the
    entry of the service id. *)
Theorem auth_writes_own_entry_only `{JSON} `{MapRange} `{HTTPClient}
    (h : AuthHandler) (nowGet nowSet : Z) (serviceId : string)
    (credentials : option CredentialsType) :
  let out := GetAuthToken h nowGet nowSet serviceId credentials in
  (forall other : string, other <> serviceId ->
     out.2 !! other = handlerCache h !! other) /\
  (CacheEnabled (handlerConfig h) = false -> out.2 = handlerCache h) /\
  (forall declared token,
     credentials = Some declared -> credAuthType declared = "LOGIN" ->
     CacheEnabled (handlerConfig h) = true -> out.1 = Ok token ->
     exists cached, out.2 !! serviceId = Some cached /\ Token cached = token).
Proof.
  cbn zeta. split; [|split].
  - intros other Hother. unfold GetAuthToken.
    repeat (case_match; cbn [fst snd]; try done).
    by apply handleLoginAuth_frame.
  - intros Hoff. unfold GetAuthToken.
    repeat (case_match; cbn [fst snd]; try done).
    by apply handleLoginAuth_disabled.
  - intros declared token -> Hlogin Hon. rewrite GetAuthToken_login by done.
    by apply handleLoginAuth_stores.
Qed.

(** X10.  The types other than LOGIN use neither the cache, nor the
    clock, nor the network: the result is the same in every environment,
    and the cache is returned as it was.  A type that is none of "BASIC",
    "LOGIN", "APITOKEN" and "NONE", compared byte by byte, is an error
    that names it. *)
Theorem other_types_are_stateless (J J' : JSON) (M M' : MapRange)
    (C C' : HTTPClient) (h h' : AuthHandler) (nowGet nowSet nowGet' nowSet' : Z)
    (serviceId serviceId' : string) (credentials : CredentialsType) :
  credAuthType credentials <> "LOGIN" ->
  (@GetAuthToken J M C h nowGet nowSet serviceId (Some credentials)).2
  = handlerCache h /\
  (@GetAuthToken J M C h nowGet nowSet serviceId (Some credentials)).1
  = (@GetAuthToken J' M' C' h' nowGet' nowSet' serviceId' (Some credentials)).1 /\
  (credAuthType credentials ∉ ["BASIC"; "APITOKEN"; "NONE"] ->
   (@GetAuthToken J M C h nowGet nowSet serviceId (Some credentials)).1
   = Err (UnsupportedAuthType (credAuthType credentials))).
Proof.
  intros Hother. apply String.eqb_neq in Hother. unfold GetAuthToken.
  rewrite Hother. split; [|split].
  - by repeat case_match.
  - by repeat case_match.
  - intros Hnot. rewrite !not_elem_of_cons in Hnot.
    destruct Hnot as (Hb%String.eqb_neq & Ha%String.eqb_neq & Hn%String.eqb_neq & _).
    by rewrite Hb, Ha, Hn.
Qed.

Lemma other_types_are_stateless_witness :
  let credentials := mkCredentials "basic" "" [] None "" None "" None in
  (@GetAuthToken refJSON listOrder (fixedUpstream 200 "")
     (mkHandler staleCache defaultConfig) 0 0 "svc" (Some credentials)).1
  = Err (UnsupportedAuthType "basic").
Proof.
  intros credentials.
  apply (other_types_are_stateless refJSON refJSON listOrder listOrder
           (fixedUpstream 200 "") (fixedUpstream 200 "")
           (mkHandler staleCache defaultConfig) (mkHandler staleCache defaultConfig)
           0 0 0 0 "svc" "svc" credentials).
  - done.
  - rewrite !not_elem_of_cons. repeat split; try done. apply not_elem_of_nil.
Defined.

(** ** The exchange with the authentication endpoint *)

Section Exchange.
Context `{JSON} `{MapRange}.

Lemma exchange_response (C : HTTPClient) (req : HTTPRequest) (accepted : list Z)
    (tokenLocation : string) (code : Z) (body : string) :
  C req = Response code body ->
  @exchange _ C req accepted tokenLocation
  = if bool_decide (code ∈ accepted)
    then match ExtractTokenFromResponse body tokenLocation with
         | Ok token => Ok token
         | Err e => Err (ExtractTokenFailed e)
         end
    else Err (BadStatus code body).
Proof.
  intros Hresp. unfold exchange, httpDo. rewrite Hresp.
  assert (forallb (fun ok => negb (code =? ok)%Z) accepted
          = negb (bool_decide (code ∈ accepted))) as ->.
  { induction accepted as [|ok accepted IH]; [done|].
    cbn [forallb]. rewrite IH.
    destruct (Z.eqb_spec code ok) as [->|Hne]; cbn [negb andb].
    - rewrite bool_decide_eq_true_2; [done|]. apply elem_of_cons. by left.
    - f_equal. apply bool_decide_ext. rewrite elem_of_cons.
      split; [by right|]. by intros [?|?]. }
  by destruct (bool_decide (code ∈ accepted)).
Qed.
End Exchange.

(** X11.  Which answers are taken.  When the upstream answers the request
    that was built with a status and a body, the REST call extracts the
    token if the status is 200 or 201 and fails with that status
    otherwise; the GraphQL call takes 200 only, so a 201 that carries a
    token is an error there. *)
Theorem accepted_status_codes `{JSON} `{MapRange} (C : HTTPClient)
    (credentials : CredentialsType) (code : Z) (body : string) :
  let extracted :=
    match ExtractTokenFromResponse body (credTokenLocation credentials) with
    | Ok token => Ok token
    | Err e => Err (ExtractTokenFailed e)
    end in
  (forall endpoint req,
     BuildRESTRequest (Some endpoint) (credCredentialData credentials) "" = Ok req ->
     C req = Response code body ->
     @callRESTAuthEndpoint _ _ C endpoint credentials
     = if bool_decide (code = 200%Z \/ code = 201%Z) then extracted
       else Err (BadStatus code body)) /\
  (forall operation query variables reqData,
     BuildGraphQLRequest (Some operation) (credCredentialData credentials)
     = Ok (query, variables) ->
     json_Marshal (GraphQLRequest query variables) = Some reqData ->
     C (mkRequest "POST" "" (Some reqData) {[ "Content-Type" := "application/json" ]})
     = Response code body ->
     @callGraphQLAuthEndpoint _ C operation credentials
     = if bool_decide (code = 200%Z) then extracted
       else Err (BadStatus code body)).
Proof.
  cbn zeta. split.
  - intros endpoint req Hbuild Hresp. unfold callRESTAuthEndpoint.
    rewrite Hbuild, (exchange_response C _ _ _ code body Hresp).
    erewrite bool_decide_ext; [done|].
    rewrite !elem_of_cons, elem_of_nil. tauto.
  - intros operation query variables reqData Hbuild Hmarshal Hresp.
    unfold callGraphQLAuthEndpoint.
    rewrite Hbuild, Hmarshal, (exchange_response C _ _ _ code body Hresp).
    erewrite bool_decide_ext; [done|].
    rewrite !elem_of_cons, elem_of_nil. tauto.
Qed.

(** X12.  The GraphQL login call sends its request to the empty URL, by
    POST: no field of the configuration or of the declaration gives it an
    address.  So two upstreams that answer alike the POST requests to the
    empty URL give the same result. *)
Theorem graphql_login_posts_to_empty_url `{JSON} (C C' : HTTPClient)
    (operation : GqlOperationType) (credentials : CredentialsType) :
  (forall req, reqMethod req = "POST" -> reqURL req = "" -> C req = C' req) ->
  @callGraphQLAuthEndpoint _ C operation credentials
  = @callGraphQLAuthEndpoint _ C' operation credentials.
Proof.
  intros Hsame. unfold callGraphQLAuthEndpoint.
  destruct (BuildGraphQLRequest _ _) as [[query variables]|]; [|done].
  destruct (json_Marshal _) as [reqData|]; [|done].
  unfold exchange, httpDo. by rewrite Hsame.
Qed.

Lemma graphql_login_posts_to_empty_url_witness :
  @callGraphQLAuthEndpoint refJSON
    (fixedUpstream 200 (jsonText "{'data':{'token':'abc'}}"))
    loginOperation loginCredentials
  = @callGraphQLAuthEndpoint refJSON
      (emptyURLUpstream 200 (jsonText "{'data':{'token':'abc'}}"))
      loginOperation loginCredentials.
Proof.
  apply (@graphql_login_posts_to_empty_url refJSON
           (fixedUpstream 200 (jsonText "{'data':{'token':'abc'}}"))
           (emptyURLUpstream 200 (jsonText "{'data':{'token':'abc'}}"))
           loginOperation loginCredentials).
  intros req _ Hurl. unfold fixedUpstream, emptyURLUpstream. by rewrite Hurl.
Defined.

(** ** The request builders *)

(** X13.  [findCredentialValue] compares whole keys, byte by byte, and
    takes the FIRST pair that matches: pairs after it with the same key
    are never read; without a match it returns the empty string. *)
Theorem find_takes_first_match (cd : list CredentialsPairType) (key : string) :
  (forall pre v post,
     cd = (pre ++ mkPair key v :: post)%list ->
     (forall p, p ∈ pre -> pairKey p <> key) ->
     findCredentialValue cd key = v) /\
  ((forall p, p ∈ cd -> pairKey p <> key) -> findCredentialValue cd key = "").
Proof.
  split; [|apply findCredentialValue_no_pair].
  intros pre v post -> Hpre.
  induction pre as [|q pre IH]; cbn [app findCredentialValue].
  - cbn [pairKey pairValue]. by rewrite String.eqb_refl.
  - assert (pairKey q <> key) as Hq%String.eqb_neq
      by (apply Hpre, elem_of_cons; by left).
    rewrite Hq. apply IH. intros p Hp. apply Hpre, elem_of_cons. by right.
Qed.

Section LastWrite.
Implicit Types (m acc obj : gmap string value) (parts path : list string).
Implicit Types (cd pre post : list CredentialsPairType) (v w : string).

(** A string found at a path stays there when the path walked by
    [setAlong] is not a prefix of it. *)
Lemma navigate_setAlong_kept m m' parts v path w (i : nat) :
  setAlong m parts v = Ok m' -> ~ parts `prefix_of` path ->
  navigate (VObject m) path i = Ok (VString w) ->
  navigate (VObject m') path i = Ok (VString w).
Proof.
  revert m m' path i. induction parts as [|key parts IH]; intros m m' path i; [done|].
  destruct path as [|k rest]; [done|].
  intros Hset Hpre. cbn [navigate].
  destruct (decide (k = key)) as [->|Hk];
    [|by rewrite (setAlong_lookup_ne _ _ _ _ _ _ Hset Hk)].
  destruct parts as [|key' parts].
  { exfalso. apply Hpre. by exists rest. }
  rewrite setAlong_step in Hset.
  assert (~ (key' :: parts) `prefix_of` rest) as Hpre'.
  { intros Hp. apply Hpre. by apply prefix_cons. }
  destruct (m !! key) as [[| | | | |existingMap]|]; try done.
  destruct (setAlong existingMap (key' :: parts) v) as [sub|] eqn:Hsub; [|done].
  simplify_eq. rewrite lookup_insert_eq. by apply (IH _ _ _ _ Hsub).
Qed.

Lemma buildInto_kept acc obj post path w :
  buildInto acc post = Ok obj ->
  (forall q, q ∈ post -> ~ splitDots (pairKey q) `prefix_of` path) ->
  navigate (VObject acc) path 0 = Ok (VString w) ->
  navigate (VObject obj) path 0 = Ok (VString w).
Proof.
  revert acc. induction post as [|q post IH]; intros acc.
  - by intros [= <-].
  - rewrite buildInto_step.
    destruct (setAlong acc (splitDots (pairKey q)) (pairValue q)) as [acc'|] eqn:Hset;
      [|done].
    intros Hbuild Hlater Hnav. apply (IH acc' Hbuild).
    + intros q' Hq'. apply Hlater, elem_of_cons. by right.
    + eapply navigate_setAlong_kept; [done| |done].
      apply Hlater, elem_of_cons. by left.
Qed.
End LastWrite.

(** X14.  The last write wins.  In an object that [BuildNestedObject]
    builds, the dotted key of a pair leads to the value of that pair
    unless the key of a LATER pair is equal to it or a prefix of it,
    segment by segment. *)
Theorem build_keeps_value_unless_overwritten
    (pre post : list CredentialsPairType) (p : CredentialsPairType)
    (obj : gmap string value) :
  BuildNestedObject (pre ++ p :: post) = Ok obj ->
  (forall q, q ∈ post ->
     ~ splitDots (pairKey q) `prefix_of` splitDots (pairKey p)) ->
  navigate (VObject obj) (splitDots (pairKey p)) 0 = Ok (VString (pairValue p)).
Proof.
  unfold BuildNestedObject. rewrite buildInto_app.
  destruct (buildInto ∅ pre) as [acc|]; [|done].
  rewrite buildInto_step.
  destruct (setAlong acc (splitDots (pairKey p)) (pairValue p)) as [acc'|] eqn:Hset;
    [|done].
  intros Hbuild Hlater. eapply buildInto_kept; [done..|].
  by eapply navigate_setAlong.
Qed.

Lemma build_keeps_value_unless_overwritten_witness :
  navigate
    (VObject (<["a" := VObject (<["c" := VString "2"]> {[ "b" := VString "3" ]})]> ∅))
    (splitDots (pairKey (mkPair "a.c" "2"))) 0
  = Ok (VString (pairValue (mkPair "a.c" "2"))).
Proof.
  apply (build_keeps_value_unless_overwritten
           [mkPair "a.b" "1"] [mkPair "a.b" "3"] (mkPair "a.c" "2")).
  - by vm_compute.
  - intros q ->%list_elem_of_singleton. by apply (bool_decide_unpack _).
Defined.

Section Order.
Implicit Types (m : gmap string value) (parts : list string) (key v : string).
Implicit Types (cd : list CredentialsPairType) (p q : CredentialsPairType).

(** A walk reads and writes the binding of its first segment only. *)
Lemma setAlong_local m m' key parts v :
  setAlong m (key :: parts) v = Ok m' ->
  exists bound : value,
    forall m0, m0 !! key = m !! key ->
      setAlong m0 (key :: parts) v = Ok (<[key := bound]> m0).
Proof.
  destruct parts as [|key' parts].
  - intros _. by exists (VString v).
  - rewrite setAlong_step. intros Hset.
    destruct (m !! key) as [[| | | | |existingMap]|] eqn:Hkey; try done.
    + destruct (setAlong existingMap (key' :: parts) v) as [sub|] eqn:Hsub; [|done].
      exists (VObject sub). intros m0 Hm0.
      by rewrite setAlong_step, Hm0, Hsub.
    + destruct (setAlong ∅ (key' :: parts) v) as [sub|] eqn:Hsub; [|done].
      exists (VObject sub). intros m0 Hm0.
      by rewrite setAlong_step, Hm0, Hsub.
Qed.

Lemma incomparable_cons key parts1 parts2 :
  incomparable (key :: parts1) (key :: parts2) -> incomparable parts1 parts2.
Proof.
  intros [H1 H2]. split; intros Hp; [apply H1|apply H2]; by apply prefix_cons.
Qed.

Lemma incomparable_nonempty parts1 parts2 :
  incomparable parts1 parts2 -> parts1 <> [] /\ parts2 <> [].
Proof.
  intros [H1 H2]. split; intros ->; [apply H1|apply H2]; apply prefix_nil.
Qed.

(** Two walks along incomparable paths can be done in either order. *)
Lemma setAlong_comm m m1 m12 parts1 parts2 v1 v2 :
  incomparable parts1 parts2 ->
  setAlong m parts1 v1 = Ok m1 -> setAlong m1 parts2 v2 = Ok m12 ->
  exists m2, setAlong m parts2 v2 = Ok m2 /\ setAlong m2 parts1 v1 = Ok m12.
Proof.
  revert m m1 m12 parts2.
  induction parts1 as [|key1 parts1 IH]; intros m m1 m12 parts2 Hinc; [done|].
  destruct parts2 as [|key2 parts2]; [done|].
  destruct (decide (key1 = key2)) as [<-|Hne].
  - apply incomparable_cons in Hinc.
    destruct (incomparable_nonempty _ _ Hinc) as [Hne1 Hne2].
    destruct parts1 as [|key1' parts1]; [done|].
    destruct parts2 as [|key2' parts2]; [done|].
    rewrite !setAlong_step.
    assert (forall sub,
      match setAlong sub (key1' :: parts1) v1 with
      | Ok m' => Ok (<[key1 := VObject m']> m)
      | Err e => Err e
      end = Ok m1 ->
      (forall sub2, <[key1 := VObject sub2]> m !! key1 = Some (VObject sub2)) ->
      setAlong m1 (key1 :: key2' :: parts2) v2 = Ok m12 ->
      exists m2,
        match setAlong sub (key2' :: parts2) v2 with
        | Ok m' => Ok (<[key1 := VObject m']> m)
        | Err e => Err e
        end = Ok m2 /\
        setAlong m2 (key1 :: key1' :: parts1) v1 = Ok m12) as Hcase.
    { intros sub Hset1 Hlook Hset2.
      destruct (setAlong sub (key1' :: parts1) v1) as [sub1|] eqn:Hsub1; [|done].
      simplify_eq. rewrite setAlong_step, Hlook in Hset2.
      destruct (setAlong sub1 (key2' :: parts2) v2) as [sub12|] eqn:Hsub12; [|done].
      simplify_eq.
      destruct (IH _ _ _ _ Hinc Hsub1 Hsub12) as (sub2 & Hsub2 & Hback).
      rewrite Hsub2. eexists. split; [done|].
      rewrite setAlong_step, Hlook, Hback. by rewrite !insert_insert_eq. }
    destruct (m !! key1) as [[| | | | |existingMap]|] eqn:Hkey; try done.
    + intros Hset1 Hset2. rewrite <- setAlong_step in Hset2.
      apply (Hcase existingMap Hset1); [|done].
      intros sub2. apply lookup_insert_eq.
    + intros Hset1 Hset2. rewrite <- setAlong_step in Hset2.
      apply (Hcase ∅ Hset1); [|done].
      intros sub2. apply lookup_insert_eq.
  - intros Hset1 Hset2.
    destruct (setAlong_local _ _ _ _ _ Hset1) as [bound1 Hlocal1].
    destruct (setAlong_local _ _ _ _ _ Hset2) as [bound2 Hlocal2].
    rewrite (Hlocal1 m eq_refl) in Hset1. simplify_eq.
    rewrite (Hlocal2 _ eq_refl) in Hset2. simplify_eq.
    exists (<[key2 := bound2]> m). split.
    + apply Hlocal2. by rewrite lookup_insert_ne.
    + rewrite Hlocal1 by by rewrite lookup_insert_ne.
      by rewrite insert_insert_ne.
Qed.

Lemma pairwiseIncomparable_perm cd cd' :
  cd ≡ₚ cd' -> pairwiseIncomparable cd -> pairwiseIncomparable cd'.
Proof.
  induction 1 as [|p cd cd' Hperm IH|p q cd|cd cd' cd'' _ IH1 _ IH2];
    cbn [pairwiseIncomparable].
  - done.
  - intros [Hp Hrest]. split; [by rewrite <- Hperm|by apply IH].
  - intros [[Hqp Hq]%Forall_cons [Hp Hrest]].
    split; [|by split].
    apply Forall_cons. split; [|done]. destruct Hqp. by split.
  - intros Hcd. by apply IH2, IH1.
Qed.

Lemma buildInto_perm cd cd' :
  cd ≡ₚ cd' -> pairwiseIncomparable cd ->
  forall acc obj, buildInto acc cd = Ok obj -> buildInto acc cd' = Ok obj.
Proof.
  induction 1 as [|p cd cd' Hperm IH|p q cd|cd cd' cd'' Hperm1 IH1 _ IH2].
  - done.
  - intros [_ Hrest] acc obj. rewrite !buildInto_step.
    destruct (setAlong acc _ _) as [acc'|]; [|done]. by apply IH.
  - intros [[Hqp _]%Forall_cons _] acc obj. rewrite !buildInto_step.
    destruct (setAlong acc (splitDots (pairKey q)) (pairValue q)) as [acc1|] eqn:Hq;
      [|done].
    rewrite buildInto_step.
    destruct (setAlong acc1 (splitDots (pairKey p)) (pairValue p)) as [acc2|] eqn:Hp;
      [|done].
    destruct (setAlong_comm _ _ _ _ _ _ _ Hqp Hq Hp) as (acc1' & Hp' & Hq').
    by rewrite Hp', buildInto_step, Hq'.
  - intros Hcd acc obj Hbuild. apply IH2; [by eapply pairwiseIncomparable_perm|].
    by apply IH1.
Qed.

Lemma pairwiseIncomparable_lookup cd (i j : nat) p q :
  pairwiseIncomparable cd -> i < j -> cd !! i = Some p -> cd !! j = Some q ->
  incomparable (splitDots (pairKey p)) (splitDots (pairKey q)).
Proof.
  revert i j. induction cd as [|p0 cd IH]; intros i j Hcd Hij; [done|].
  destruct Hcd as [Hp0 Hrest].
  destruct j as [|j]; [lia|]. destruct i as [|i]; cbn.
  - intros [= ->] Hq. rewrite Forall_forall in Hp0.
    by apply Hp0, (list_elem_of_lookup_2 _ j).
  - apply IH; [done|lia].
Qed.

Lemma pairwiseIncomparable_builds cd :
  pairwiseIncomparable cd -> exists obj, BuildNestedObject cd = Ok obj.
Proof.
  intros Hcd. unfold BuildNestedObject.
  destruct (buildInto ∅ cd) as [obj|e] eqn:Hbuild; [by exists obj|].
  exfalso.
  assert (is_err (buildInto ∅ cd) = true) as Herr by by rewrite Hbuild.
  apply (buildInto_err_iff ∅ [] cd tracks_empty) in Herr
    as (j & p & q & Hj & [Hp|(i & Hi & Hpi)] & Hpre & _).
  - by apply elem_of_nil in Hp.
  - by destruct (pairwiseIncomparable_lookup cd i j p q Hcd Hi Hpi Hj).
Qed.
End Order.

(** X15.  The order of the pairs does not matter when no key is equal to,
    or a prefix of, another key, segment by segment: [BuildNestedObject]
    then succeeds, and on every rearrangement of the list it builds the
    same object. *)
Theorem build_ignores_order_of_incomparable_keys
    (cd cd' : list CredentialsPairType) :
  pairwiseIncomparable cd -> cd ≡ₚ cd' ->
  exists obj, BuildNestedObject cd = Ok obj /\ BuildNestedObject cd' = Ok obj.
Proof.
  intros Hcd Hperm. destruct (pairwiseIncomparable_builds cd Hcd) as [obj Hbuild].
  exists obj. split; [done|]. by apply (buildInto_perm cd cd' Hperm Hcd).
Qed.

Lemma build_ignores_order_of_incomparable_keys_witness :
  exists obj,
    BuildNestedObject [mkPair "user.name" "john"; mkPair "user.pass" "secret";
                       mkPair "realm" "r"] = Ok obj /\
    BuildNestedObject [mkPair "realm" "r"; mkPair "user.pass" "secret";
                       mkPair "user.name" "john"] = Ok obj.
Proof.
  apply build_ignores_order_of_incomparable_keys.
  - cbn [pairwiseIncomparable]. repeat split;
      repeat (apply Forall_cons; split); try apply Forall_nil;
      by apply (bool_decide_unpack _).
  - apply (bool_decide_unpack _). by vm_compute.
Defined.

Lemma BuildNestedObject_err_iff (cd : list CredentialsPairType) :
  is_err (BuildNestedObject cd) = true <-> extendsEarlier cd.
Proof.
  unfold BuildNestedObject.
  rewrite (buildInto_err_iff ∅ [] cd tracks_empty). unfold extendsEarlier. split.
  - intros (j & p & q & Hj & [Hp|(i & Hi & Hpi)] & Hpre).
    + by apply elem_of_nil in Hp.
    + by exists i, j, p, q.
  - intros (i & j & p & q & Hi & Hpi & Hj & Hpre).
    exists j, p, q. split; [done|]. split; [|done]. right. by exists i.
Qed.

(** X16.  [BuildGraphQLRequest] refuses a nil operation; for an operation
    it fails exactly when the key of a pair extends the key of an earlier
    pair, and otherwise returns the operation type, a space and the name
    as the query, with the nested object of the pairs as variables.  The
    declared arguments, description and result type play no part. *)
Theorem graphql_request_is_type_and_name (cd : list CredentialsPairType) :
  BuildGraphQLRequest None cd = Err OperationNil /\
  (forall operation,
     is_err (BuildGraphQLRequest (Some operation) cd) = true <-> extendsEarlier cd) /\
  (forall operation query variables,
     BuildGraphQLRequest (Some operation) cd = Ok (query, variables) ->
     query = gqlOperationType operation ++ " " ++ gqlName operation /\
     BuildNestedObject cd = Ok variables) /\
  (forall operation operation',
     gqlOperationType operation = gqlOperationType operation' ->
     gqlName operation = gqlName operation' ->
     BuildGraphQLRequest (Some operation) cd
     = BuildGraphQLRequest (Some operation') cd).
Proof.
  split; [done|]. split; [|split].
  - intros operation. rewrite <- BuildNestedObject_err_iff.
    unfold BuildGraphQLRequest. by destruct (BuildNestedObject cd).
  - intros operation query variables. unfold BuildGraphQLRequest.
    destruct (BuildNestedObject cd); [|done]. by intros [= <- <-].
  - intros operation operation' Htype Hname. unfold BuildGraphQLRequest.
    by rewrite Htype, Hname.
Qed.

Section RestShape.
Context `{JSON} `{MapRange}.
Implicit Types (cd : list CredentialsPairType) (st : ParamState).
Implicit Types (params : list ContentAttributeType) (name : string).

Lemma declares_cons location (param : ContentAttributeType) params name :
  declares location (param :: params) name
  = (String.eqb (paramLocation param) location &&
     String.eqb (paramValue param) name) || declares location params name.
Proof. done. Qed.

Lemma declares_true location params name :
  declares location params name = true
  <-> exists param, param ∈ params /\ paramLocation param = location /\
        paramValue param = name.
Proof.
  unfold declares. rewrite existsb_exists. split.
  - intros (param & Hin & [Hloc%String.eqb_eq Hname%String.eqb_eq]%andb_true_iff).
    exists param. by rewrite list_elem_of_In.
  - intros (param & Hin & Hloc & Hname). exists param.
    rewrite <- list_elem_of_In. split; [done|].
    apply andb_true_iff. by rewrite !String.eqb_eq.
Qed.

Lemma applyParameters_headers_exact cd params st st' name :
  applyParameters cd params st = Ok st' ->
  psHeaders st' !! name
  = if declares "header" params name then Some (findCredentialValue cd name)
    else psHeaders st !! name.
Proof.
  revert st. induction params as [|param params IH]; intros st.
  - by intros [= <-].
  - rewrite applyParameters_step, declares_cons.
    destruct (String.eqb _ "" && paramRequired param); [done|].
    intros Hok. rewrite (IH _ Hok), routeParameter_headers.
    destruct (declares "header" params name); [by rewrite orb_true_r|].
    rewrite orb_false_r.
    destruct (String.eqb (paramLocation param) "header"); [|done].
    destruct (String.eqb_spec (paramValue param) name) as [->|Hne]; cbn [andb].
    + by rewrite lookup_insert_eq.
    + by rewrite lookup_insert_ne.
Qed.

Lemma applyParameters_query_exact cd params st st' name :
  applyParameters cd params st = Ok st' ->
  psQueryParams st' !! name
  = if declares "query" params name then Some (findCredentialValue cd name)
    else psQueryParams st !! name.
Proof.
  revert st. induction params as [|param params IH]; intros st.
  - by intros [= <-].
  - rewrite applyParameters_step, declares_cons.
    destruct (String.eqb _ "" && paramRequired param); [done|].
    intros Hok. rewrite (IH _ Hok), routeParameter_query.
    destruct (declares "query" params name); [by rewrite orb_true_r|].
    rewrite orb_false_r.
    destruct (String.eqb (paramLocation param) "query"); [|done].
    destruct (String.eqb_spec (paramValue param) name) as [->|Hne]; cbn [andb].
    + by rewrite lookup_insert_eq.
    + by rewrite lookup_insert_ne.
Qed.

Lemma applyParameters_url_unchanged cd params st st' :
  applyParameters cd params st = Ok st' ->
  (forall param, param ∈ params -> paramLocation param <> "path") ->
  psURL st' = psURL st.
Proof.
  revert st. induction params as [|param params IH]; intros st.
  - by intros [= <-].
  - rewrite applyParameters_step. case_match; [done|]. intros Hok Hnopath.
    rewrite (IH _ Hok).
    + assert (paramLocation param <> "path") as Hp%String.eqb_neq
        by (apply Hnopath, elem_of_cons; by left).
      unfold routeParameter. rewrite Hp. by repeat case_match.
    + intros param' Hin. apply Hnopath, elem_of_cons. by right.
Qed.

Lemma requestBody_ok (endpoint : EndpointType) cd body headers :
  requestBody endpoint cd = Ok (body, headers) ->
  if bodyRequired endpoint
  then exists obj data,
         BuildNestedObject cd = Ok obj /\ json_Marshal (VObject obj) = Some data /\
         body = Some data /\
         headers = {[ "Content-Type" := bodyContentType endpoint ]}
  else body = None /\ headers = ∅.
Proof.
  unfold requestBody, bodyRequired, bodyContentType.
  destruct (endpointRequestBody endpoint) as [rb|]; [|by intros [= <- <-]].
  destruct (contentRequired rb); [|by intros [= <- <-]].
  destruct (BuildNestedObject cd) as [obj|]; [|done].
  destruct (json_Marshal (VObject obj)) as [data|] eqn:Hdata; [|done].
  intros [= <- <-]. by exists obj, data.
Qed.
End RestShape.

(** X17.  The body and the headers of a REST request that is built.  The
    method is the declared one.  There is a body exactly when the endpoint
    declares one and requires it; it is then the encoding of the nested
    object of the pairs.  A header is present exactly when a "header"
    parameter declares it, with its resolved value, or when it is
    "Content-Type" and there is a body, with the declared content type; a
    "header" parameter named "Content-Type" takes precedence.  No other
    header is set, and a pair that no parameter names reaches no header. *)
Theorem rest_request_body_and_headers `{JSON} `{MapRange}
    (endpoint : EndpointType) (cd : list CredentialsPairType)
    (baseURL : string) (req : HTTPRequest) :
  BuildRESTRequest (Some endpoint) cd baseURL = Ok req ->
  reqMethod req = endpointMethod endpoint /\
  (if bodyRequired endpoint
   then exists obj data,
          BuildNestedObject cd = Ok obj /\
          json_Marshal (VObject obj) = Some data /\ reqBody req = Some data
   else reqBody req = None) /\
  forall name,
    reqHeaders req !! name
    = if declares "header" (endpointParameters endpoint) name
      then Some (findCredentialValue cd name)
      else if bodyRequired endpoint && String.eqb name "Content-Type"
      then Some (bodyContentType endpoint)
      else None.
Proof.
  unfold BuildRESTRequest.
  destruct (requestBody endpoint cd) as [[body headers]|] eqn:Hbody; [|done].
  destruct (applyParameters _ _ _) as [st|] eqn:Happly; [|done].
  intros [= <-]. cbn [reqMethod reqBody reqHeaders].
  apply requestBody_ok in Hbody. split; [done|]. split.
  - destruct (bodyRequired endpoint).
    + destruct Hbody as (obj & data & ? & ? & ? & _). by exists obj, data.
    + by destruct Hbody.
  - intros name. rewrite (applyParameters_headers_exact _ _ _ _ name Happly).
    cbn [psHeaders]. destruct (declares _ _ _); [done|].
    destruct (bodyRequired endpoint).
    + destruct Hbody as (obj & data & _ & _ & _ & ->). cbn [andb].
      destruct (String.eqb_spec name "Content-Type") as [->|Hne].
      * by rewrite lookup_singleton_eq.
      * by rewrite lookup_singleton_ne.
    + destruct Hbody as [_ ->]. by rewrite lookup_empty.
Qed.

Lemma rest_request_body_and_headers_witness :
  let req :=
    mkRequest "POST" "https://auth.example/login"
      (Some (jsonText "{'user':{'name':'john','pass':'secret'}}"))
      {[ "Content-Type" := "application/json" ]} in
  reqMethod req = "POST" /\
  reqHeaders req !! "Content-Type" = Some "application/json" /\
  reqHeaders req !! "user.name" = None.
Proof.
  intros req.
  destruct (@rest_request_body_and_headers refJSON listOrder loginEndpoint
              (credCredentialData loginCredentials) "https://auth.example" req)
    as (Hmethod & _ & Hheaders); [by vm_compute|].
  split; [exact Hmethod|]. split.
  - exact (Hheaders "Content-Type").
  - exact (Hheaders "user.name").
Defined.

Section RestErrors.
Context `{JSON} `{MapRange}.
Implicit Types (cd : list CredentialsPairType) (st : ParamState).
Implicit Types (params pre post : list ContentAttributeType).

Lemma applyParameters_err_first cd params st (name : string) :
  applyParameters cd params st = Err (RequiredParameterNotFound name)
  <-> exists pre param post,
        params = (pre ++ param :: post)%list /\ paramValue param = name /\
        unresolved cd param /\ forall param', param' ∈ pre -> ~ unresolved cd param'.
Proof.
  unfold unresolved. revert st.
  induction params as [|param0 params IH]; intros st.
  - split; [done|]. intros (pre & ? & ? & Heq & _). by destruct pre.
  - rewrite applyParameters_step.
    destruct (String.eqb _ "" && paramRequired param0) eqn:Hrej.
    + apply rejects_iff in Hrej. split.
      * intros [= <-]. exists [], param0, params. repeat split; try done; try tauto.
        intros ? Hin. by apply elem_of_nil in Hin.
      * intros (pre & param & post & Heq & <- & Hun & Hpre).
        destruct pre as [|param' pre]; cbn [app] in Heq; injection Heq as -> ->.
        -- done.
        -- exfalso. apply (Hpre param'); [apply elem_of_cons; by left|done].
    + rewrite IH. split.
      * intros (pre & param & post & -> & Hname & Hun & Hpre).
        exists (param0 :: pre), param, post. repeat split; try done; try tauto.
        intros param' [->|Hin]%elem_of_cons; [|by apply Hpre].
        rewrite <- rejects_iff. by rewrite Hrej.
      * intros (pre & param & post & Heq & Hname & Hun & Hpre).
        destruct pre as [|param' pre]; cbn [app] in Heq; injection Heq as -> ->.
        -- exfalso. apply rejects_iff in Hun. congruence.
        -- exists pre, param, post. repeat split; try done; try tauto.
           intros param'' Hin. apply Hpre, elem_of_cons. by right.
Qed.

Lemma applyParameters_only_required cd params st (e : BuildError) :
  applyParameters cd params st = Err e ->
  exists name, e = RequiredParameterNotFound name.
Proof.
  intros (param & _ & -> & _)%applyParameters_err. by eexists.
Qed.
End RestErrors.

(** X18.  How [BuildRESTRequest] fails, in the order of its checks.  A nil
    endpoint is refused.  A body error is reported exactly when the body
    is required and the pairs do not build (or do not encode): a body that
    is declared but not required is never built, and a body error comes
    before any complaint about a parameter.  Otherwise the error names the
    FIRST declared parameter that is required and resolves to the empty
    string. *)
Theorem rest_request_errors `{JSON} `{MapRange} (endpoint : EndpointType)
    (cd : list CredentialsPairType) (baseURL : string) :
  let out := BuildRESTRequest (Some endpoint) cd baseURL in
  BuildRESTRequest None cd baseURL = Err EndpointNil /\
  out <> Err EndpointNil /\
  (forall e,
     out = Err (BuildBodyFailed e)
     <-> bodyRequired endpoint = true /\ BuildNestedObject cd = Err e) /\
  (out = Err MarshalBodyFailed
   <-> bodyRequired endpoint = true /\
       exists obj, BuildNestedObject cd = Ok obj /\
                   json_Marshal (VObject obj) = None) /\
  (forall name,
     out = Err (RequiredParameterNotFound name)
     <-> is_ok (requestBody endpoint cd) = true /\
         exists pre param post,
           endpointParameters endpoint = (pre ++ param :: post)%list /\
           paramValue param = name /\ unresolved cd param /\
           forall param', param' ∈ pre -> ~ unresolved cd param').
Proof.
  cbn zeta. split; [done|].
  assert (requestBody endpoint cd
          = if bodyRequired endpoint
            then match BuildNestedObject cd with
                 | Err e => Err (BuildBodyFailed e)
                 | Ok obj =>
                     match json_Marshal (VObject obj) with
                     | None => Err MarshalBodyFailed
                     | Some data =>
                         Ok (Some data,
                             {[ "Content-Type" := bodyContentType endpoint ]})
                     end
                 end
            else Ok (None, ∅)) as Hbody.
  { unfold requestBody, bodyRequired, bodyContentType.
    destruct (endpointRequestBody endpoint) as [rb|]; [|done].
    by destruct (contentRequired rb). }
  unfold BuildRESTRequest.
  destruct (requestBody endpoint cd) as [[body headers]|e0] eqn:Hstage.
  - assert (forall e, ~ (bodyRequired endpoint = true /\ BuildNestedObject cd = Err e))
      as Hnobuild.
    { intros e [Hreq Hbuild]. by rewrite Hreq, Hbuild in Hbody. }
    assert (~ (bodyRequired endpoint = true /\
               exists obj, BuildNestedObject cd = Ok obj /\
                           json_Marshal (VObject obj) = None)) as Hnomarshal.
    { intros (Hreq & obj & Hbuild & Hm). by rewrite Hreq, Hbuild, Hm in Hbody. }
    pose proof (applyParameters_err_first cd (endpointParameters endpoint)
                  (mkParamState headers ∅ (baseURL ++ endpointPath endpoint)))
      as Hfirst.
    destruct (applyParameters _ _ _) as [st|e1] eqn:Happly.
    + split; [done|]. split; [|split].
      * intros e. split; [done|]. intros ?. by destruct (Hnobuild e).
      * split; [done|]. intros ?. by destruct Hnomarshal.
      * intros name. split; [done|]. intros [_ Hex]. by apply Hfirst in Hex.
    + destruct (applyParameters_only_required _ _ _ _ Happly) as [name0 ->].
      split; [done|]. split; [|split].
      * intros e. split; [done|]. intros ?. by destruct (Hnobuild e).
      * split; [done|]. intros ?. by destruct Hnomarshal.
      * intros name. split.
        -- intros [= <-]. split; [done|]. by apply Hfirst.
        -- intros [_ Hex]. apply Hfirst in Hex. by injection Hex as <-.
  - destruct (bodyRequired endpoint); [|done].
    destruct (BuildNestedObject cd) as [obj|e] eqn:Hbuild.
    + destruct (json_Marshal (VObject obj)) as [data|] eqn:Hm; [done|].
      injection Hbody as ->. split; [done|]. split; [|split].
      * intros e. split; [done|]. by intros [_ ?].
      * split; [|done]. intros _. split; [done|]. by exists obj.
      * intros name. split; [done|]. by intros [? _].
    + injection Hbody as ->. split; [done|]. split; [|split].
      * intros e'. split; [by intros [= ->]|]. by intros [_ [= ->]].
      * split; [done|]. by intros (_ & obj & ? & _).
      * intros name. split; [done|]. by intros [? _].
Qed.

(** X19.  The URL of a REST request that is built (the map of query
    parameters being visited entry by entry).  It is a first part followed,
    when a "query" parameter is declared, by "?" and the entries
    [name=value] joined by "&".  Every declared query parameter has
    exactly one entry, whatever the number of times it is declared, with
    its resolved value as it is, without any escaping, and there is no
    other entry.  When no "path" parameter is declared, the first part is
    the base URL followed by the declared path. *)
Theorem rest_request_url `{JSON} `{MapRange} (endpoint : EndpointType)
    (cd : list CredentialsPairType) (baseURL : string) (req : HTTPRequest) :
  rangeLawful ->
  BuildRESTRequest (Some endpoint) cd baseURL = Ok req ->
  exists (url : string) (entries : list (string * string)),
    reqURL req
    = match entries with
      | [] => url
      | _ :: _ =>
          url ++ "?" ++
          String.concat "&" (map (fun entry => entry.1 ++ "=" ++ entry.2) entries)
      end /\
    NoDup entries.*1 /\
    (forall name v,
       (name, v) ∈ entries
       <-> declares "query" (endpointParameters endpoint) name = true /\
           v = findCredentialValue cd name) /\
    ((forall param, param ∈ endpointParameters endpoint ->
        paramLocation param <> "path") ->
     url = baseURL ++ endpointPath endpoint).
Proof.
  intros Hlaw Hok.
  apply BuildRESTRequest_ok in Hok
    as (body & headers & st & _ & Happly & _ & Hurl).
  exists (psURL st), (rangeOrder (psQueryParams st)).
  pose proof (Hlaw (psQueryParams st)) as Hperm.
  split; [|split; [|split]].
  - rewrite Hurl, queryString_joined.
    destruct (size (psQueryParams st)) eqn:Hsize.
    + apply map_size_empty_inv in Hsize. rewrite Hsize in Hperm |- *.
      rewrite map_to_list_empty in Hperm. by apply Permutation_nil_r in Hperm as ->.
    + cbn [Nat.ltb Nat.leb]. destruct (rangeOrder (psQueryParams st)); [|done].
      symmetry in Hperm. apply Permutation_nil_r, map_to_list_empty_iff in Hperm.
      rewrite Hperm, map_size_empty in Hsize. done.
  - rewrite Hperm. apply NoDup_fst_map_to_list.
  - intros name v. rewrite Hperm, elem_of_map_to_list.
    rewrite (applyParameters_query_exact _ _ _ _ name Happly). cbn [psQueryParams].
    destruct (declares "query" _ name).
    + split; [intros [= <-]; by split|]. by intros [_ ->].
    + rewrite lookup_empty. split; [done|]. by intros [? _].
  - intros Hnopath.
    by rewrite (applyParameters_url_unchanged _ _ _ _ Happly Hnopath).
Qed.

Lemma rest_request_url_witness :
  exists (url : string) (entries : list (string * string)),
    "https://auth.example/tenants/acme/token?scope="
    = match entries with
      | [] => url
      | _ :: _ =>
          url ++ "?" ++
          String.concat "&" (map (fun entry => entry.1 ++ "=" ++ entry.2) entries)
      end /\
    NoDup entries.*1 /\
    (forall name v,
       (name, v) ∈ entries
       <-> declares "query" (endpointParameters searchEndpoint) name = true /\
           v = findCredentialValue [mkPair "tenant" "acme"] name) /\
    ((forall param, param ∈ endpointParameters searchEndpoint ->
        paramLocation param <> "path") ->
     url = "https://auth.example" ++ endpointPath searchEndpoint).
Proof.
  apply (@rest_request_url refJSON listOrder searchEndpoint
           [mkPair "tenant" "acme"] "https://auth.example"
           (mkRequest "GET" "https://auth.example/tenants/acme/token?scope=" None
              {[ "X-Trace" := "" ]})
           listOrder_lawful).
  by vm_compute.
Defined.

(** X20.  A document whose top-level value is not an object (a bare
    string, a number, an array, null) gives no token: for every non-empty
    path the extraction fails on the first segment, at index 0. *)
Theorem extract_needs_top_level_object `{JSON}
    (responseBody tokenLocation : string) (data : value) :
  json_Unmarshal responseBody = Some data -> notObject data ->
  tokenLocation <> "" ->
  ExtractTokenFromResponse responseBody tokenLocation
  = Err (NotAnObject (topLevel tokenLocation) 0).
Proof.
  intros Hdata Hnot Hne. apply Extract_not_object_iff. split; [done|].
  exists data. split; [done|].
  destruct (splitDots_cons tokenLocation) as (key & rest & Hsplit & ->).
  exists [], rest, data. rewrite Hsplit. repeat split; [constructor|done].
Qed.

Lemma extract_needs_top_level_object_witness :
  @ExtractTokenFromResponse refJSON (jsonText "'abc'") "token"
  = Err (NotAnObject (topLevel "token") 0).
Proof.
  apply (@extract_needs_top_level_object refJSON (jsonText "'abc'") "token"
           (VString "abc")); done.
Defined.

(** ** Configuration *)

Lemma setDefaults_idempotent (c : GlobalConfig) : setDefaults (setDefaults c) = setDefaults c.
Proof.
  unfold setDefaults. cbn [GraphQLAPIURL GraphQLAuthType GraphQLUsername
    GraphQLPassword GraphQLAPIToken GraphQLTokenHeader Timeout CacheEnabled
    TokenRefreshBuffer].
  f_equal.
  - destruct (String.eqb (GraphQLAuthType c) "") eqn:E; [done|by rewrite E].
  - destruct (String.eqb (GraphQLTokenHeader c) "") eqn:E; [done|by rewrite E].
  - destruct (String.eqb (Timeout c) "") eqn:E; [done|by rewrite E].
  - destruct (TokenRefreshBuffer c =? 0)%Z eqn:E; [done|by rewrite E].
Qed.

Lemma setDefaults_filled (c : GlobalConfig) :
  GraphQLAuthType (setDefaults c) <> "" /\
  GraphQLTokenHeader (setDefaults c) <> "" /\
  Timeout (setDefaults c) <> "" /\
  TokenRefreshBuffer (setDefaults c) <> 0%Z.
Proof.
  unfold setDefaults. cbn [GraphQLAuthType GraphQLTokenHeader Timeout
    TokenRefreshBuffer].
  repeat split.
  - by destruct (String.eqb_spec (GraphQLAuthType c) "").
  - by destruct (String.eqb_spec (GraphQLTokenHeader c) "").
  - by destruct (String.eqb_spec (Timeout c) "").
  - by destruct (Z.eqb_spec (TokenRefreshBuffer c) 0).
Qed.

Lemma LoadGlobalConfig_ok `{System} (c : GlobalConfig) :
  LoadGlobalConfig = Ok c -> exists file, c = setDefaults file.
Proof.
  unfold LoadGlobalConfig. repeat case_match; try done.
  intros [= <-]. by eexists.
Qed.

(** With a negative buffer the refresh time that [Set] stores is after the
    expiry, so that [Get] never asks for a refresh. *)
Lemma negative_buffer_no_refresh (tokens : gmap string CachedToken)
    (id token : string) (now now' ttl buffer buffer' : Z) :
  (buffer < 0)%Z -> (0 < ttl)%Z ->
  int64 (now + ttl) -> int64 (now + ttl - buffer) ->
  (TokenCache_Get (TokenCache_Set tokens now id token (Some ttl) buffer)
     now' id buffer').1.2 = false.
Proof.
  intros Hbuf Httl He Hr.
  rewrite Get_after_Set, newCachedToken_in_range by done.
  cbn [ExpiresAt RefreshAt].
  assert ((now <? now + ttl - buffer) = true)%Z as -> by lia.
  destruct (Z.leb_spec (now + ttl) now'); [done|].
  by assert ((now + ttl - buffer <=? now') = false)%Z as -> by lia.
Qed.

(** X21.  A configuration that [LoadGlobalConfig] returns is the one of
    the file with four defaults filled in: an empty authentication type is
    read as "none", an empty token header as "Authorization", an empty
    timeout as "10s" and a refresh buffer of 0 as 10; every other field,
    and every other value of these four, is the one of the file.  So the
    three strings are not empty and the buffer is not 0.  A negative
    buffer is kept as it is, and it turns the refresh-ahead off: for a
    token that [Set] stores under a positive TTL with the loaded buffer
    (the 64-bit sums not wrapping around), no [Get] asks for a refresh. *)
Theorem loaded_config_has_defaults `{System} (c : GlobalConfig) :
  LoadGlobalConfig = Ok c ->
  GraphQLAuthType c <> "" /\ GraphQLTokenHeader c <> "" /\ Timeout c <> "" /\
  TokenRefreshBuffer c <> 0%Z /\
  exists file,
    (exists cwd data,
       os_Getwd = Some cwd /\
       os_ReadFile (filepath_Join [cwd; "instance"; "etc"; "config.yml"]) = Some data /\
       yaml_Unmarshal data = Some file) /\
    GraphQLAuthType c
    = (if String.eqb (GraphQLAuthType file) "" then "none"
       else GraphQLAuthType file) /\
    GraphQLTokenHeader c
    = (if String.eqb (GraphQLTokenHeader file) "" then "Authorization"
       else GraphQLTokenHeader file) /\
    Timeout c = (if String.eqb (Timeout file) "" then "10s" else Timeout file) /\
    TokenRefreshBuffer c
    = (if (TokenRefreshBuffer file =? 0)%Z then 10%Z else TokenRefreshBuffer file) /\
    GraphQLAPIURL c = GraphQLAPIURL file /\
    GraphQLUsername c = GraphQLUsername file /\
    GraphQLPassword c = GraphQLPassword file /\
    GraphQLAPIToken c = GraphQLAPIToken file /\
    CacheEnabled c = CacheEnabled file /\
    ((TokenRefreshBuffer file < 0)%Z ->
     TokenRefreshBuffer c = TokenRefreshBuffer file /\
     forall (tokens : gmap string CachedToken) (id token : string)
            (now now' ttl : Z),
       (0 < ttl)%Z -> int64 (now + ttl) ->
       int64 (now + ttl - TokenRefreshBuffer c) ->
       (TokenCache_Get
          (TokenCache_Set tokens now id token (Some ttl) (TokenRefreshBuffer c))
          now' id (TokenRefreshBuffer c)).1.2 = false).
Proof.
  intros Hload.
  destruct (LoadGlobalConfig_ok c Hload) as [file0 Hc].
  destruct (setDefaults_filled file0) as (? & ? & ? & ?). rewrite <- Hc in *.
  do 4 (split; [done|]).
  unfold LoadGlobalConfig in Hload.
  destruct os_Getwd as [cwd|] eqn:Hcwd; [|done].
  destruct (os_ReadFile _) as [data|] eqn:Hdata; [|done].
  destruct (yaml_Unmarshal data) as [file|] eqn:Hfile; [|done].
  injection Hload as <-. exists file. split; [by exists cwd, data|].
  do 9 (split; [done|]).
  intros Hneg. cbn [setDefaults TokenRefreshBuffer].
  assert ((TokenRefreshBuffer file =? 0) = false)%Z as -> by lia.
  split; [done|]. intros tokens id token now now' ttl Httl He Hr.
  by apply negative_buffer_no_refresh.
Qed.

Lemma loaded_config_has_defaults_witness :
  exists c,
    @LoadGlobalConfig negativeBufferSystem = Ok c /\
    GraphQLAuthType c = "none" /\ GraphQLTokenHeader c = "Authorization" /\
    Timeout c = "10s" /\ TokenRefreshBuffer c = (-5)%Z /\
    TokenCache_Get
      (TokenCache_Set NewTokenCache 100 "svc" "tok" (Some 20%Z)
         (TokenRefreshBuffer c))
      119 "svc" (TokenRefreshBuffer c)
    = ("tok", false, true).
Proof.
  exists (setDefaults negativeBufferFile). split; [done|].
  destruct (@loaded_config_has_defaults negativeBufferSystem
              (setDefaults negativeBufferFile) eq_refl)
    as (_ & _ & _ & _ & file & (cwd & data & _ & _ & Hfile) &
        Hauth & Hheader & Htimeout & _ & _ & _ & _ & _ & _ & Hnegative).
  injection Hfile as <-.
  destruct Hnegative as [Hbuffer Hrefresh]; [done|].
  split; [exact Hauth|]. split; [exact Hheader|]. split; [exact Htimeout|].
  split; [exact Hbuffer|].
  specialize (Hrefresh NewTokenCache "svc" "tok" 100%Z 119%Z 20%Z).
  by vm_compute.
Defined.

Lemma GlobalConfig_Validate_ok (c : GlobalConfig) :
  GlobalConfig_Validate c = Ok tt
  <-> GraphQLAPIURL c <> "" /\
      (GraphQLAuthType c = "none" \/
       (GraphQLAuthType c = "basic" /\
        GraphQLUsername c <> "" /\ GraphQLPassword c <> "") \/
       (GraphQLAuthType c = "apitoken" /\ GraphQLAPIToken c <> "")).
Proof.
  unfold GlobalConfig_Validate.
  destruct (String.eqb_spec (GraphQLAPIURL c) ""); [(cbn [is_ok]; intuition (congruence || done))|].
  destruct (String.eqb_spec (GraphQLAuthType c) "none") as [->|];
    [cbn; (cbn [is_ok]; intuition (congruence || done))|].
  destruct (String.eqb_spec (GraphQLAuthType c) "basic") as [Hb|].
  - rewrite Hb. cbn [orb negb andb String.eqb Ascii.eqb].
    change (String.eqb "basic" "apitoken") with false. cbn [andb].
    destruct (String.eqb_spec (GraphQLUsername c) "");
      destruct (String.eqb_spec (GraphQLPassword c) ""); cbn [orb];
      (cbn [is_ok]; intuition (congruence || done)).
  - destruct (String.eqb_spec (GraphQLAuthType c) "apitoken") as [Ha|].
    + cbn [orb negb andb].
      destruct (String.eqb_spec (GraphQLAPIToken c) ""); (cbn [is_ok]; intuition (congruence || done)).
    + cbn [orb negb andb]. (cbn [is_ok]; intuition (congruence || done)).
Qed.

Lemma addAuthentication_ok_iff (c : GlobalConfig)
    (header : gmap string (list string)) :
  is_ok (addAuthentication c header) = true
  <-> GraphQLAuthType c ∈ ["basic"; "apitoken"; "none"].
Proof.
  unfold addAuthentication. rewrite !elem_of_cons, elem_of_nil.
  destruct (String.eqb_spec (GraphQLAuthType c) "basic"); [(cbn [is_ok]; intuition (congruence || done))|].
  destruct (String.eqb_spec (GraphQLAuthType c) "apitoken"); [(cbn [is_ok]; intuition (congruence || done))|].
  destruct (String.eqb_spec (GraphQLAuthType c) "none"); (cbn [is_ok]; intuition (congruence || done)).
Qed.

(** X22.  [GlobalConfig.Validate] accepts a configuration exactly when the
    API URL is set and the authentication type is "none", or "basic" with
    a user name and a password, or "apitoken" with a token.  On a
    configuration it accepts, [addAuthentication] never fails; on any
    configuration, [addAuthentication] fails exactly when the type is none
    of the three. *)
Theorem validated_config_authenticates (c : GlobalConfig) :
  (GlobalConfig_Validate c = Ok tt
   <-> GraphQLAPIURL c <> "" /\
       (GraphQLAuthType c = "none" \/
        (GraphQLAuthType c = "basic" /\
         GraphQLUsername c <> "" /\ GraphQLPassword c <> "") \/
        (GraphQLAuthType c = "apitoken" /\ GraphQLAPIToken c <> ""))) /\
  (forall header,
     is_ok (addAuthentication c header) = true
     <-> GraphQLAuthType c ∈ ["basic"; "apitoken"; "none"]) /\
  (GlobalConfig_Validate c = Ok tt ->
   forall header, is_ok (addAuthentication c header) = true).
Proof.
  split; [apply GlobalConfig_Validate_ok|]. split; [apply addAuthentication_ok_iff|].
  intros Hvalid header. apply addAuthentication_ok_iff.
  apply GlobalConfig_Validate_ok in Hvalid as [_ Htype].
  rewrite !elem_of_cons. intuition congruence.
Qed.

(** ** The directory client *)

Section Fetch.
Context `{JSON} `{Directory}.
Implicit Types (config : GlobalConfig) (instanceId respData : string).

Lemma instanceOfResponse_ok respData instanceId (instance : InstanceType) :
  instanceOfResponse respData instanceId = Ok instance
  <-> exists gqlResp data connection edges,
        decodeGraphQLResponse respData = Some gqlResp /\
        responseErrors gqlResp = [] /\
        responseData gqlResp = Some data /\
        dataGetInstances data = Some connection /\
        instanceEdges connection = mkInstanceEdge (Some instance) :: edges.
Proof.
  unfold instanceOfResponse. split.
  - destruct (decodeGraphQLResponse respData) as [gqlResp|]; [|done].
    destruct (responseErrors gqlResp) eqn:Herrors; [|done].
    destruct (responseData gqlResp) as [data|] eqn:Hdata; [|done].
    destruct (dataGetInstances data) as [connection|] eqn:Hconn; [|done].
    destruct (instanceEdges connection) as [|[node] edges] eqn:Hedges; [done|].
    cbn [instanceNode]. destruct node as [instance'|]; [|done].
    intros [= <-]. by exists gqlResp, data, connection, edges.
  - intros (gqlResp & data & connection & edges & -> & -> & -> & -> & ->). done.
Qed.

Lemma FetchInstanceById_ok config instanceId (instance : InstanceType) :
  FetchInstanceById config instanceId = Ok instance
  <-> exists reqData header respData,
        json_Marshal (GraphQLRequest instanceQuery {[ "id" := VString instanceId ]})
        = Some reqData /\
        directoryNewRequest (GraphQLAPIURL config) = true /\
        addAuthentication config (Header_Set "Content-Type" "application/json" ∅)
        = Ok header /\
        directoryDo (mkDirectoryRequest (GraphQLAPIURL config) reqData header)
        = Answer 200 respData /\
        instanceOfResponse respData instanceId = Ok instance.
Proof.
  unfold FetchInstanceById. split.
  - destruct (json_Marshal _) as [reqData|]; [|done].
    destruct (directoryNewRequest _); [|done]. cbn [negb].
    destruct (addAuthentication _ _) as [header|]; [|done].
    destruct (directoryDo _) as [| |code respData] eqn:Hdo; try done.
    destruct (Z.eqb_spec code 200) as [->|]; [|done]. cbn [negb].
    intros Hinst. by exists reqData, header, respData.
  - intros (reqData & header & respData & -> & -> & -> & -> & Hinst). done.
Qed.
End Fetch.

(** X23.  [FetchInstanceById] returns an instance exactly when the request
    is encoded and accepted, the configured authentication type is known,
    the directory answers with status 200 exactly, the answer decodes,
    it lists no GraphQL error, and its first edge holds a node: that node
    is the instance.  Only the first edge is read. *)
Theorem fetch_returns_first_node `{JSON} `{Directory} (config : GlobalConfig)
    (instanceId : string) (instance : InstanceType) :
  FetchInstanceById config instanceId = Ok instance
  <-> exists reqData header respData gqlResp data connection edges,
        json_Marshal (GraphQLRequest instanceQuery {[ "id" := VString instanceId ]})
        = Some reqData /\
        directoryNewRequest (GraphQLAPIURL config) = true /\
        addAuthentication config (Header_Set "Content-Type" "application/json" ∅)
        = Ok header /\
        directoryDo (mkDirectoryRequest (GraphQLAPIURL config) reqData header)
        = Answer 200 respData /\
        decodeGraphQLResponse respData = Some gqlResp /\
        responseErrors gqlResp = [] /\
        responseData gqlResp = Some data /\
        dataGetInstances data = Some connection /\
        instanceEdges connection = mkInstanceEdge (Some instance) :: edges.
Proof.
  rewrite FetchInstanceById_ok. split.
  - intros (reqData & header & respData & ? & ? & ? & ? &
            (gqlResp & data & connection & edges & ?)%instanceOfResponse_ok).
    by exists reqData, header, respData, gqlResp, data, connection, edges.
  - intros (reqData & header & respData & gqlResp & data & connection & edges &
            ? & ? & ? & ? & Hrest).
    exists reqData, header, respData. repeat (split; [done|]).
    apply instanceOfResponse_ok. by exists gqlResp, data, connection, edges.
Qed.

(** X24.  What [FetchInstanceById] refuses first.  With an authentication
    type that is none of "basic", "apitoken" and "none" it fails before
    anything is sent: the result is the same for every answer the
    directory could give.  An answer whose status is not 200 is refused
    with that status, whatever its body holds.  And in a 200 answer that
    lists GraphQL errors the first error is reported, even when the answer
    also holds the instance. *)
Theorem fetch_failure_order `{JSON} (D : Directory) (config : GlobalConfig)
    (instanceId reqData : string) :
  json_Marshal (GraphQLRequest instanceQuery {[ "id" := VString instanceId ]})
  = Some reqData ->
  @directoryNewRequest D (GraphQLAPIURL config) = true ->
  (GraphQLAuthType config ∉ ["basic"; "apitoken"; "none"] ->
   @FetchInstanceById _ D config instanceId
   = Err (AddAuthenticationFailed (GraphQLAuthType config))) /\
  (forall header code respData,
     addAuthentication config (Header_Set "Content-Type" "application/json" ∅)
     = Ok header ->
     @directoryDo D (mkDirectoryRequest (GraphQLAPIURL config) reqData header)
     = Answer code respData ->
     code <> 200%Z ->
     @FetchInstanceById _ D config instanceId = Err (DirectoryStatus code respData)) /\
  (forall header respData gqlResp first others,
     addAuthentication config (Header_Set "Content-Type" "application/json" ∅)
     = Ok header ->
     @directoryDo D (mkDirectoryRequest (GraphQLAPIURL config) reqData header)
     = Answer 200 respData ->
     @decodeGraphQLResponse D respData = Some gqlResp ->
     responseErrors gqlResp = first :: others ->
     @FetchInstanceById _ D config instanceId
     = Err (DirectoryError (errMessage first))).
Proof.
  intros Hmarshal Hnew. unfold FetchInstanceById. rewrite Hmarshal, Hnew.
  cbn [negb]. split; [|split].
  - intros Htype. rewrite !not_elem_of_cons in Htype.
    destruct Htype as (Hb%String.eqb_neq & Ha%String.eqb_neq & Hn%String.eqb_neq & _).
    unfold addAuthentication. by rewrite Hb, Ha, Hn.
  - intros header code respData -> -> Hcode.
    by destruct (Z.eqb_spec code 200).
  - intros header respData gqlResp first others -> -> Hdecode Herrors.
    cbn. unfold instanceOfResponse. by rewrite Hdecode, Herrors.
Qed.

Lemma fetch_failure_order_witness :
  @FetchInstanceById refJSON
    (fixedDirectory (Answer 200 "{}")
       (Some (mkGraphQLResponse
                (Some (mkInstanceData (Some (mkInstanceConnection
                   [mkInstanceEdge (Some sampleInstance)]))))
                [mkGraphQLError "not allowed" []])))
    defaultConfig "svc"
  = Err (DirectoryError (errMessage (mkGraphQLError "not allowed" []))).
Proof.
  eapply (@fetch_failure_order refJSON); try reflexivity.
Defined.

(** ** The middleware *)

(** X25.  A middleware that [New] returns is well formed: its service id
    is not empty, its global configuration passes [Validate] and has its
    defaults in place (the refresh buffer is not 0), its timeout parses,
    [addAuthentication] cannot fail on it, and its cache is empty. *)
Theorem new_middleware_is_well_formed `{System} (config : Config)
    (t : TokenInjector) :
  New config = Ok t ->
  injConfig t = config /\ ServiceId config <> "" /\
  GlobalConfig_Validate (injGlobalConfig t) = Ok tt /\
  LoadGlobalConfig = Ok (injGlobalConfig t) /\
  TokenRefreshBuffer (injGlobalConfig t) <> 0%Z /\
  (exists timeout, GetTimeout (injGlobalConfig t) = Some timeout) /\
  (forall header, is_ok (addAuthentication (injGlobalConfig t) header) = true) /\
  injCache t = NewTokenCache.
Proof.
  unfold New, Config_Validate, NewGraphQLClient.
  destruct (String.eqb_spec (ServiceId config) ""); [done|].
  destruct LoadGlobalConfig as [globalConfig|] eqn:Hload; [|done].
  destruct (GlobalConfig_Validate globalConfig) as [[]|] eqn:Hvalid; [|done].
  destruct (GetTimeout globalConfig) as [timeout|] eqn:Htimeout; [|done].
  intros [= <-]. cbn [injConfig injGlobalConfig injCache].
  repeat split; try done.
  - destruct (LoadGlobalConfig_ok _ Hload) as [file ->].
    apply setDefaults_filled.
  - by exists timeout.
  - intros header. apply addAuthentication_ok_iff.
    apply GlobalConfig_Validate_ok in Hvalid as [_ Htype].
    rewrite !elem_of_cons. intuition congruence.
Qed.

Lemma new_middleware_is_well_formed_witness :
  let t := mkInjector (mkPluginConfig "svc") (setDefaults minimalFile) NewTokenCache in
  injConfig t = mkPluginConfig "svc" /\ ServiceId (mkPluginConfig "svc") <> "" /\
  GlobalConfig_Validate (injGlobalConfig t) = Ok tt /\
  @LoadGlobalConfig sampleSystem = Ok (injGlobalConfig t) /\
  TokenRefreshBuffer (injGlobalConfig t) <> 0%Z /\
  (exists timeout, @GetTimeout sampleSystem (injGlobalConfig t) = Some timeout) /\
  (forall header, is_ok (addAuthentication (injGlobalConfig t) header) = true) /\
  injCache t = NewTokenCache.
Proof.
  intros t. apply (@new_middleware_is_well_formed sampleSystem). reflexivity.
Defined.

Section Headers.
Implicit Types (header : gmap string (list string)) (key v : string).
Implicit Types (headers pre post : list HeaderType) (custom : HeaderType).

Lemma Header_Set_lookup key v header (k : string) :
  Header_Set key v header !! k
  = if decide (CanonicalMIMEHeaderKey key = k) then Some [v] else header !! k.
Proof. unfold Header_Set. apply lookup_insert. Qed.

Lemma addCustomHeaders_app pre post header :
  addCustomHeaders (pre ++ post) header
  = addCustomHeaders post (addCustomHeaders pre header).
Proof. unfold addCustomHeaders. apply fold_left_app. Qed.

(** A key that no header of the instance spells is left alone. *)
Lemma addCustomHeaders_other headers header (k : string) :
  (forall custom, custom ∈ headers ->
     CanonicalMIMEHeaderKey (headerKey custom) <> k) ->
  addCustomHeaders headers header !! k = header !! k.
Proof.
  revert header. induction headers as [|custom headers IH]; intros header Hother;
    [done|].
  unfold addCustomHeaders. cbn [fold_left]. fold (addCustomHeaders headers).
  rewrite IH.
  - rewrite Header_Set_lookup. case_decide as Heq; [|done].
    exfalso. apply (Hother custom); [apply elem_of_cons; by left|done].
  - intros custom' Hin. apply Hother, elem_of_cons. by right.
Qed.

(** The last header of the instance that spells a key gives its value. *)
Lemma addCustomHeaders_last pre custom post header :
  (forall custom', custom' ∈ post ->
     CanonicalMIMEHeaderKey (headerKey custom')
     <> CanonicalMIMEHeaderKey (headerKey custom)) ->
  addCustomHeaders (pre ++ custom :: post) header
    !! CanonicalMIMEHeaderKey (headerKey custom)
  = Some [headerValue custom].
Proof.
  intros Hpost. rewrite addCustomHeaders_app.
  change (addCustomHeaders (custom :: post) ?h)
    with (addCustomHeaders post (Header_Set (headerKey custom) (headerValue custom) h)).
  rewrite addCustomHeaders_other by done.
  rewrite Header_Set_lookup. by case_decide.
Qed.

Lemma authorizationValue_cases (authType token : string) :
  let v := authorizationValue authType token in
  (authType = "BASIC" \/ authType = "APITOKEN" -> v = token) /\
  (String.length token <= 7 -> v = token) /\
  (authType <> "BASIC" -> authType <> "APITOKEN" -> 7 < String.length token ->
   String.prefix "Bearer " v = true /\
   (String.prefix "Bearer " token = false -> v = "Bearer " ++ token)) /\
  (String.prefix "Bearer " token = true -> v = token).
Proof.
  cbn zeta. unfold authorizationValue.
  assert (String.eqb (String.substring 0 7 token) "Bearer "
          = String.prefix "Bearer " token) as Hprefix.
  { destruct (String.prefix "Bearer " token) eqn:Hp.
    - apply String.eqb_eq. by apply (String.prefix_correct "Bearer " token).
    - apply String.eqb_neq. intros Heq.
      apply (String.prefix_correct "Bearer " token) in Heq. congruence. }
  rewrite Hprefix. split; [|split; [|split]].
  - intros [->| ->]; done.
  - intros Hlen. apply Nat.ltb_ge in Hlen. rewrite Hlen.
    by repeat case_match.
  - intros Hb%String.eqb_neq Ha%String.eqb_neq Hlen%Nat.ltb_lt.
    rewrite Hb, Ha, Hlen. cbn [negb andb].
    destruct (String.prefix "Bearer " token) eqn:Hp; cbn [negb].
    + by split.
    + split; [|done]. apply String.prefix_correct. by destruct token.
  - intros ->. rewrite andb_false_r. by repeat case_match.
Qed.
End Headers.

(** ** The middleware *)

Section Serve.
Context `{JSON} `{MapRange} `{HTTPClient} `{Directory}.
Implicit Types (t : TokenInjector) (nowGet nowSet : Z) (a : AuthHandler).
Implicit Types (header h : gmap string (list string)).
Implicit Types (instance : InstanceType) (credentials : CredentialsType).

Lemma GetAuthToken_frame a nowGet nowSet (serviceId other : string)
    (declared : option CredentialsType) :
  other <> serviceId ->
  (GetAuthToken a nowGet nowSet serviceId declared).2 !! other
  = handlerCache a !! other.
Proof.
  intros Hother. unfold GetAuthToken.
  repeat (case_match; cbn [fst snd]; try done).
  by apply handleLoginAuth_frame.
Qed.

(** A call that fails has written nothing. *)
Lemma GetAuthToken_err_cache a nowGet nowSet (serviceId : string)
    (declared : option CredentialsType) (e : AuthError) :
  (GetAuthToken a nowGet nowSet serviceId declared).1 = Err e ->
  (GetAuthToken a nowGet nowSet serviceId declared).2 = handlerCache a.
Proof.
  unfold GetAuthToken, handleLoginAuth. cbn zeta.
  repeat (case_match; cbn [fst snd]; try done).
Qed.

Lemma GetAuthToken_disabled a nowGet nowSet (serviceId : string)
    (declared : option CredentialsType) :
  CacheEnabled (handlerConfig a) = false ->
  (GetAuthToken a nowGet nowSet serviceId declared).2 = handlerCache a.
Proof.
  intros Hoff. unfold GetAuthToken.
  repeat (case_match; cbn [fst snd]; try done).
  by apply handleLoginAuth_disabled.
Qed.

Lemma GetAuthToken_none a nowGet nowSet (serviceId : string) credentials :
  credAuthType credentials = "NONE" ->
  (GetAuthToken a nowGet nowSet serviceId (Some credentials)).1 = Ok "".
Proof. intros Hnone. unfold GetAuthToken. by rewrite Hnone. Qed.

(** The header that is forwarded once the token is there. *)
Lemma ServeHTTP_authenticated t nowGet nowSet header instance credentials
    (token : string) :
  FetchInstanceById (injGlobalConfig t) (ServiceId (injConfig t)) = Ok instance ->
  instCredentials instance = Some credentials ->
  (GetAuthToken (mkHandler (injCache t) (injGlobalConfig t)) nowGet nowSet
     (ServiceId (injConfig t)) (Some credentials)).1 = Ok token ->
  (ServeHTTP t nowGet nowSet header).1
  = Forwarded
      (addCustomHeaders (instHeaders instance)
         (if String.eqb token "" then header
          else Header_Set "Authorization"
                 (authorizationValue (credAuthType credentials) token) header)).
Proof.
  intros Hfetch Hcred Hauth. unfold ServeHTTP. rewrite Hfetch, Hcred.
  destruct (GetAuthToken _ _ _ _ _) as [[token'|e] cache]; cbn [fst] in *;
    by simplify_eq.
Qed.
End Serve.

(** X26.  What [ServeHTTP] answers.  The request is refused with 500
    exactly when the instance cannot be fetched, and with 401 exactly when
    the instance has credentials for which [GetAuthToken] fails; these are
    the only refusals.  An instance without credentials is forwarded with
    the header of the request as it came, the headers that the instance
    declares are not added.  An instance with credentials is forwarded
    exactly when [GetAuthToken] returns a token. *)
Theorem serve_refuses_or_forwards `{JSON} `{MapRange} `{HTTPClient} `{Directory}
    (t : TokenInjector) (nowGet nowSet : Z) (header : gmap string (list string)) :
  let fetched := FetchInstanceById (injGlobalConfig t) (ServiceId (injConfig t)) in
  let authenticated credentials :=
    (GetAuthToken (mkHandler (injCache t) (injGlobalConfig t)) nowGet nowSet
       (ServiceId (injConfig t)) (Some credentials)).1 in
  let out := ServeHTTP t nowGet nowSet header in
  (is_err fetched = true
   <-> out.1 = Refused 500 "Failed to fetch instance data") /\
  (forall instance,
     fetched = Ok instance -> instCredentials instance = None ->
     out = (Forwarded header, injCache t)) /\
  (forall instance credentials,
     fetched = Ok instance -> instCredentials instance = Some credentials ->
     (is_err (authenticated credentials) = true
      <-> out.1 = Refused 401 "Failed to authenticate") /\
     (is_ok (authenticated credentials) = true
      <-> exists h, out.1 = Forwarded h)) /\
  (forall code message,
     out.1 = Refused code message ->
     (code = 500%Z /\ message = "Failed to fetch instance data") \/
     (code = 401%Z /\ message = "Failed to authenticate")).
Proof.
  cbn zeta. unfold ServeHTTP.
  destruct (FetchInstanceById _ _) as [instance|e]; cbn [is_err is_ok fst snd].
  - destruct (instCredentials instance) as [credentials|] eqn:Hcred.
    + destruct (GetAuthToken _ _ _ _ _) as [[token|e] cache] eqn:Hauth;
        cbn [fst snd].
      * split; [done|]. split; [intros ? [= <-] ?; congruence|].
        split; [|done]. intros ? ? [= <-] Hcred'.
        rewrite Hcred in Hcred'. simplify_eq. rewrite Hauth. cbn [fst is_err is_ok].
        split; [done|]. split; [by eexists|done].
      * split; [done|]. split; [intros ? [= <-] ?; congruence|].
        split; [|intros ? ? [= <- <-]; by right].
        intros ? ? [= <-] Hcred'.
        rewrite Hcred in Hcred'. simplify_eq. rewrite Hauth. cbn [fst is_err is_ok].
        split; [done|]. split; [done|by intros [? ?]].
    + cbn [fst snd]. split; [done|]. split; [done|].
      split; [|done]. intros ? ? [= <-] Hcred'. by rewrite Hcred in Hcred'.
  - split; [done|]. split; [done|]. split; [done|].
    intros ? ? [= <- <-]. by left.
Qed.

(** X27.  What [ServeHTTP] does to the cache, and what it reads of the
    request.  Only the entry of the service id of the middleware is ever
    written; a request that is refused, and every request when the cache
    is disabled, leaves the cache as it was.  The header of the request has
    no part in the decision: with another header the cache that results is
    the same and the same refusal is given. *)
Theorem serve_touches_own_cache_entry_only
    `{JSON} `{MapRange} `{HTTPClient} `{Directory}
    (t : TokenInjector) (nowGet nowSet : Z) (header : gmap string (list string)) :
  let out := ServeHTTP t nowGet nowSet header in
  (forall other : string,
     other <> ServiceId (injConfig t) -> out.2 !! other = injCache t !! other) /\
  (forall code message, out.1 = Refused code message -> out.2 = injCache t) /\
  (CacheEnabled (injGlobalConfig t) = false -> out.2 = injCache t) /\
  (forall header',
     (ServeHTTP t nowGet nowSet header').2 = out.2 /\
     (forall code message,
        out.1 = Refused code message ->
        (ServeHTTP t nowGet nowSet header').1 = Refused code message)).
Proof.
  cbn zeta. unfold ServeHTTP.
  destruct (FetchInstanceById _ _) as [instance|e]; cbn [fst snd]; [|done].
  destruct (instCredentials instance) as [credentials|]; cbn [fst snd]; [|done].
  pose proof (GetAuthToken_frame (mkHandler (injCache t) (injGlobalConfig t))
                nowGet nowSet (ServiceId (injConfig t))) as Hframe.
  pose proof (GetAuthToken_err_cache (mkHandler (injCache t) (injGlobalConfig t))
                nowGet nowSet (ServiceId (injConfig t)) (Some credentials)) as Herr.
  pose proof (GetAuthToken_disabled (mkHandler (injCache t) (injGlobalConfig t))
                nowGet nowSet (ServiceId (injConfig t)) (Some credentials)) as Hoff.
  specialize (fun other => Hframe other (Some credentials)).
  destruct (GetAuthToken _ _ _ _ _) as [[token|e] cache]; cbn [fst snd] in *.
  - split; [done|]. split; [done|]. by split.
  - split; [done|]. split; [by intros; eapply Herr|]. by split.
Qed.

(** X28.  The Authorization header that is forwarded.  For an instance
    with credentials for which [GetAuthToken] returns a token, and whose
    own headers do not spell Authorization, the request is forwarded; with
    an empty token (as for the type "NONE") the Authorization header of
    the request goes through as it came; otherwise it is replaced by one
    value: the token itself for the types "BASIC" and "APITOKEN", for a
    token of at most 7 bytes and for one that starts with "Bearer ", and
    the token after "Bearer " in the remaining case, so that a longer
    token of another type always goes out with that prefix. *)
Theorem serve_authorization_header `{JSON} `{MapRange} `{HTTPClient} `{Directory}
    (t : TokenInjector) (nowGet nowSet : Z) (header : gmap string (list string))
    (instance : InstanceType) (credentials : CredentialsType) (token : string) :
  FetchInstanceById (injGlobalConfig t) (ServiceId (injConfig t)) = Ok instance ->
  instCredentials instance = Some credentials ->
  (GetAuthToken (mkHandler (injCache t) (injGlobalConfig t)) nowGet nowSet
     (ServiceId (injConfig t)) (Some credentials)).1 = Ok token ->
  (forall custom, custom ∈ instHeaders instance ->
     CanonicalMIMEHeaderKey (headerKey custom) <> "Authorization") ->
  exists h,
    (ServeHTTP t nowGet nowSet header).1 = Forwarded h /\
    (credAuthType credentials = "NONE" -> token = "") /\
    (token = "" -> h !! "Authorization" = header !! "Authorization") /\
    (token <> "" ->
     exists v,
       h !! "Authorization" = Some [v] /\
       (credAuthType credentials = "BASIC" \/
        credAuthType credentials = "APITOKEN" -> v = token) /\
       (String.length token <= 7 -> v = token) /\
       (String.prefix "Bearer " token = true -> v = token) /\
       (credAuthType credentials <> "BASIC" ->
        credAuthType credentials <> "APITOKEN" ->
        7 < String.length token ->
        String.prefix "Bearer " v = true /\
        (String.prefix "Bearer " token = false -> v = "Bearer " ++ token))).
Proof.
  intros Hfetch Hcred Hauth Hcustom. eexists.
  split; [by apply ServeHTTP_authenticated|].
  split; [|split].
  - intros Hnone.
    rewrite (GetAuthToken_none _ _ _ _ _ Hnone) in Hauth. by simplify_eq.
  - intros ->. cbn [String.eqb]. by apply addCustomHeaders_other.
  - intros Hne%String.eqb_neq. rewrite Hne.
    exists (authorizationValue (credAuthType credentials) token).
    split.
    + rewrite addCustomHeaders_other by done.
      rewrite Header_Set_lookup. by case_decide.
    + pose proof (authorizationValue_cases (credAuthType credentials) token)
        as Hcases.
      cbn zeta in Hcases. destruct Hcases as (Hbare & Hshort & Hlong & Hprefixed).
      split; [exact Hbare|]. split; [exact Hshort|]. split; [exact Hprefixed|].
      exact Hlong.
Qed.

Lemma serve_authorization_header_witness :
  exists h,
    (@ServeHTTP refJSON listOrder (fixedUpstream 200 tokenResponse)
       (fixedDirectory (Answer 200 "") (foundInstance sampleInstance))
       sampleInjector 0 0 {[ "Authorization" := ["Basic Zm9v"] ]}).1
    = Forwarded h /\
    h !! "Authorization" = Some ["Bearer abcdefghij"].
Proof.
  destruct (@serve_authorization_header refJSON listOrder
              (fixedUpstream 200 tokenResponse)
              (fixedDirectory (Answer 200 "") (foundInstance sampleInstance))
              sampleInjector 0%Z 0%Z {[ "Authorization" := ["Basic Zm9v"] ]}
              sampleInstance loginCredentials "abcdefghij")
    as (h & Hforwarded & _ & _ & Hvalue).
  - by vm_compute.
  - done.
  - by vm_compute.
  - intros custom Hin. cbn [sampleInstance instHeaders] in Hin.
    rewrite !elem_of_cons in Hin.
    destruct Hin as [->|[->|Hin]]; [by vm_compute|by vm_compute|].
    by apply elem_of_nil in Hin.
  - exists h. split; [done|].
    destruct Hvalue as (v & Hv & _ & _ & _ & Hlong); [done|].
    destruct Hlong as [_ Hlong]; [done|done|cbn; lia|].
    rewrite Hv, Hlong; [done|by vm_compute].
Defined.

(** X29.  The headers that the instance declares.  For an instance with
    credentials for which [GetAuthToken] returns a token the request is
    forwarded with each declared header set, under the canonical spelling
    of its key and with one value: of the declared headers whose keys have
    the same canonical spelling the last gives the value, and a declared
    header that spells Authorization replaces the token.  A header of the
    request that is neither Authorization nor spelled by a declared header
    goes through as it came. *)
Theorem serve_custom_headers `{JSON} `{MapRange} `{HTTPClient} `{Directory}
    (t : TokenInjector) (nowGet nowSet : Z) (header : gmap string (list string))
    (instance : InstanceType) (credentials : CredentialsType) (token : string) :
  FetchInstanceById (injGlobalConfig t) (ServiceId (injConfig t)) = Ok instance ->
  instCredentials instance = Some credentials ->
  (GetAuthToken (mkHandler (injCache t) (injGlobalConfig t)) nowGet nowSet
     (ServiceId (injConfig t)) (Some credentials)).1 = Ok token ->
  exists h,
    (ServeHTTP t nowGet nowSet header).1 = Forwarded h /\
    (forall pre custom post,
       instHeaders instance = (pre ++ custom :: post)%list ->
       (forall custom', custom' ∈ post ->
          CanonicalMIMEHeaderKey (headerKey custom')
          <> CanonicalMIMEHeaderKey (headerKey custom)) ->
       h !! CanonicalMIMEHeaderKey (headerKey custom)
       = Some [headerValue custom]) /\
    (forall k : string,
       k <> "Authorization" ->
       (forall custom, custom ∈ instHeaders instance ->
          CanonicalMIMEHeaderKey (headerKey custom) <> k) ->
       h !! k = header !! k).
Proof.
  intros Hfetch Hcred Hauth. eexists.
  split; [by apply ServeHTTP_authenticated|]. split.
  - intros pre custom post -> Hpost. by apply addCustomHeaders_last.
  - intros k Hk Hcustom. rewrite addCustomHeaders_other by done.
    destruct (String.eqb token ""); [done|].
    rewrite Header_Set_lookup. by case_decide.
Qed.

Lemma serve_custom_headers_witness :
  exists h,
    (@ServeHTTP refJSON listOrder (fixedUpstream 200 tokenResponse)
       (fixedDirectory (Answer 200 "") (foundInstance sampleInstance))
       sampleInjector 0 0 {[ "Accept" := ["text/html"] ]}).1
    = Forwarded h /\
    h !! "X-Tenant" = Some ["beta"] /\
    h !! "Accept" = Some ["text/html"].
Proof.
  destruct (@serve_custom_headers refJSON listOrder
              (fixedUpstream 200 tokenResponse)
              (fixedDirectory (Answer 200 "") (foundInstance sampleInstance))
              sampleInjector 0%Z 0%Z {[ "Accept" := ["text/html"] ]}
              sampleInstance loginCredentials "abcdefghij")
    as (h & Hforwarded & Hlast & Hother).
  - by vm_compute.
  - done.
  - by vm_compute.
  - exists h. split; [done|]. split.
    + apply (Hlast [mkHeader "x-tenant" "acme"] (mkHeader "X-Tenant" "beta") []);
        [done|]. by intros custom' Hin%elem_of_nil.
    + rewrite Hother; [done|done|].
      intros custom Hin. cbn [sampleInstance instHeaders] in Hin.
      rewrite !elem_of_cons in Hin.
      destruct Hin as [->|[->|Hin]]; [by vm_compute|by vm_compute|].
      by apply elem_of_nil in Hin.
Defined.

(** X30.  [EndpointNode.UnmarshalJSON] tries the REST form first and
    sets one field at most, leaving the other as it was.  A document that
    decodes as an endpoint with a method sets the REST field, whatever it
    holds besides, and keeps the GraphQL field of the receiver; otherwise
    a document that decodes as an operation with an operation type sets
    the GraphQL field and keeps the REST field of the receiver; a document
    that fits neither form leaves the node as it was.  So no field is
    ever cleared: a field that was set is still set afterwards.  A node
    that starts empty ends with at most one field set, and a field that
    is set holds what was decoded, with a method, or an operation type,
    that is not empty. *)
Theorem node_is_rest_before_graphql `{NodeDecoders} (e : EndpointNode)
    (data : string) :
  let e' := EndpointNode_UnmarshalJSON e data in
  (forall endpoint,
     decodeEndpointType data = Some endpoint -> endpointMethod endpoint <> "" ->
     e' = mkNode (Some endpoint) (nodeGqlOperationType e)) /\
  (forall gqlOp,
     (forall endpoint,
        decodeEndpointType data = Some endpoint -> endpointMethod endpoint = "") ->
     decodeGqlOperationType data = Some gqlOp -> gqlOperationType gqlOp <> "" ->
     e' = mkNode (nodeEndpointType e) (Some gqlOp)) /\
  ((forall endpoint,
      decodeEndpointType data = Some endpoint -> endpointMethod endpoint = "") ->
   (forall gqlOp,
      decodeGqlOperationType data = Some gqlOp -> gqlOperationType gqlOp = "") ->
   e' = e) /\
  (is_Some (nodeEndpointType e) -> is_Some (nodeEndpointType e')) /\
  (is_Some (nodeGqlOperationType e) -> is_Some (nodeGqlOperationType e')) /\
  (e = mkNode None None ->
   (nodeEndpointType e' = None \/ nodeGqlOperationType e' = None) /\
   (forall endpoint,
      nodeEndpointType e' = Some endpoint ->
      decodeEndpointType data = Some endpoint /\ endpointMethod endpoint <> "") /\
   (forall gqlOp,
      nodeGqlOperationType e' = Some gqlOp ->
      decodeGqlOperationType data = Some gqlOp /\
      gqlOperationType gqlOp <> "")).
Proof.
  cbn zeta. unfold EndpointNode_UnmarshalJSON.
  split; [|split; [|split; [|split; [|split]]]].
  - intros endpoint -> Hmethod%String.eqb_neq. by rewrite Hmethod.
  - intros gqlOp Hrest -> Hop%String.eqb_neq. rewrite Hop.
    destruct (decodeEndpointType data) as [endpoint|]; [|done].
    by rewrite (Hrest endpoint eq_refl).
  - intros Hrest Hgql.
    destruct (decodeEndpointType data) as [endpoint|];
      [rewrite (Hrest endpoint eq_refl); cbn [String.eqb]|];
      (destruct (decodeGqlOperationType data) as [gqlOp|];
       [by rewrite (Hgql gqlOp eq_refl)|done]).
  - intros Hset. by repeat (case_match; cbn [nodeEndpointType]; try done).
  - intros Hset. by repeat (case_match; cbn [nodeGqlOperationType]; try done).
  - intros ->. cbn [nodeEndpointType nodeGqlOperationType].
    destruct (decodeEndpointType data) as [endpoint|];
      [destruct (String.eqb (endpointMethod endpoint) "") eqn:Hmethod|];
      try (destruct (decodeGqlOperationType data) as [gqlOp|];
           [destruct (String.eqb (gqlOperationType gqlOp) "") eqn:Hop|]);
      cbn [nodeEndpointType nodeGqlOperationType];
      (split; [first [by left|by right]|]);
      (split; intros ? Heq; simplify_eq; (split; [done|by apply String.eqb_neq])).
Qed.
